(** * Storage utilities of libtorrent: buffer slicing, vectored piece I/O
    and storage relocation.

    A shallow embedding of [src/storage_utils.cpp] and the properties of
    its three parts: the buffer-slice helpers [copy_bufs] and
    [advance_bufs], the vectored I/O engine [readwritev], and the storage
    relocation engine [move_storage]. *)

From Stdlib Require Import ZArith Lia String Ascii.
From stdpp Require Import base numbers list strings.

Local Open Scope Z_scope.

(** ** Machine integers *)

Module MachineInt.

Definition INT_MAX : Z := 2147483647.
Definition INT_MIN : Z := -2147483648.

(** Conversion to [int] (32 bits, two's complement). *)
Definition to_int (z : Z) : Z := (z + 2147483648) mod 4294967296 - 2147483648.

(** Conversion to [std::size_t] (64 bits, unsigned). *)
Definition to_size_t (z : Z) : Z := z mod 18446744073709551616.

End MachineInt.
Export MachineInt.

(** ** Buffer descriptors *)

(** [iovec_t]: a base address and a length in bytes ([std::size_t]). *)
Record iovec_t : Type := mk_iovec { iov_base : Z; iov_len : Z }.

#[global] Instance iovec_eq_dec : EqDecision iovec_t.
Proof. solve_decision. Defined.

(** Sum of the element lengths of a buffer list, as a mathematical integer. *)
Fixpoint total_length (bufs : list iovec_t) : Z :=
  match bufs with
  | [] => 0
  | b :: rest => iov_len b + total_length rest
  end.

(** Modelled from the spec: [bufs_size] of [libtorrent/file.hpp], which is
    not part of the sources at hand; "total length = sum of element
    lengths", accumulated in a [std::size_t] and returned as an [int]. *)
Definition bufs_size (bufs : list iovec_t) : Z :=
  to_int (to_size_t (total_length bufs)).

(** The addresses a buffer list covers, in order, and the bytes found
    there in a memory [mem]. *)
Definition iov_addrs (b : iovec_t) : list Z := seqZ (iov_base b) (iov_len b).
Definition bufs_addrs (bufs : list iovec_t) : list Z := concat (iov_addrs <$> bufs).
Definition bufs_bytes (mem : Z → Byte.byte) (bufs : list iovec_t) : list Byte.byte :=
  mem <$> bufs_addrs bufs.

(** A buffer list the [int] counters of the code can measure: every length
    is non-negative and the total fits an [int]. *)
Definition int_sized (bufs : list iovec_t) : Prop :=
  Forall (λ b, 0 ≤ iov_len b) bufs ∧ total_length bufs ≤ INT_MAX.

(** ** [copy_bufs] and [advance_bufs] *)

(** The loop of [copy_bufs]; [rest] is [bufs[i..]], so that an empty [rest]
    is the read of [bufs[i]] past the end of the span, and [i] past the end
    of [target] is the write past the end of the target span (both [None]).
    [size - bytes] is an [int], taken from the [size_t] length. *)
Fixpoint copy_bufs_from (rest : list iovec_t) (i : nat) (size bytes : Z)
    (target : list iovec_t) : option (nat * list iovec_t) :=
  match rest with
  | [] => None
  | b :: rest' =>
      if decide (i < length target)%nat then
        let target := <[i := b]> target in
        let size := to_int (size + to_int (iov_len b)) in
        if bool_decide (size >= bytes) then
          Some (S i, <[i := mk_iovec (iov_base b)
                               (to_size_t (iov_len b - to_int (size - bytes)))]>
                       target)
        else copy_bufs_from rest' (S i) size bytes target
      else None
  end.

Definition copy_bufs (bufs : list iovec_t) (bytes : Z) (target : list iovec_t)
  : option (nat * list iovec_t) :=
  copy_bufs_from bufs 0 0 bytes target.

(** The loop of [advance_bufs]: [bufs.subspan(1)] drops the head; the front
    of an empty span is [None]. *)
Fixpoint advance_bufs_from (bufs : list iovec_t) (size bytes : Z)
  : option (list iovec_t) :=
  match bufs with
  | [] => None
  | b :: rest =>
      let size := to_int (size + to_int (iov_len b)) in
      if bool_decide (size >= bytes) then
        Some (mk_iovec (iov_base b + iov_len b - to_int (size - bytes))
                       (to_size_t (to_int (size - bytes))) :: rest)
      else advance_bufs_from rest size bytes
  end.

Definition advance_bufs (bufs : list iovec_t) (bytes : Z) : option (list iovec_t) :=
  advance_bufs_from bufs 0 bytes.

(** [count_bufs], compiled with [TORRENT_USE_ASSERTS] only: the number of
    elements of [bufs] that hold the first [bytes] bytes. The iterator past
    the end of the span is [None]. *)
Fixpoint count_bufs_from (bufs : list iovec_t) (size : Z) (count : nat)
    (bytes : Z) : option nat :=
  match bufs with
  | [] => None
  | b :: rest =>
      let size := to_int (size + to_int (iov_len b)) in
      if bool_decide (size >= bytes) then Some count
      else count_bufs_from rest size (S count) bytes
  end.

Definition count_bufs (bufs : list iovec_t) (bytes : Z) : option nat :=
  if bool_decide (bytes = 0) then Some 0%nat
  else count_bufs_from bufs 0 1 bytes.

(** The spec's words for the two helpers: [take_bytes] is "exactly the first
    [n] bytes", [drop_bytes] is the view "with the first [n] bytes
    consumed". The code is compared with them below. *)
Fixpoint take_bytes (bufs : list iovec_t) (n : Z) : list iovec_t :=
  match bufs with
  | [] => []
  | b :: rest =>
      if bool_decide (n ≤ iov_len b) then [mk_iovec (iov_base b) n]
      else b :: take_bytes rest (n - iov_len b)
  end.

Fixpoint drop_bytes (bufs : list iovec_t) (n : Z) : list iovec_t :=
  match bufs with
  | [] => []
  | b :: rest =>
      if bool_decide (n ≤ iov_len b)
      then mk_iovec (iov_base b + n) (iov_len b - n) :: rest
      else drop_bytes rest (n - iov_len b)
  end.

(** ** Error carrier *)

(** [error_code] as the [errno] value it carries; [0] is "no error". The
    comparison with a [boost::system::errc] condition is the comparison of
    the values. *)
Definition error_code : Type := Z.
Definition no_such_file_or_directory : error_code := 2.
Definition permission_denied : error_code := 13.
Definition invalid_argument : error_code := 22.

(** Modelled from the spec: the operation tag of the error carrier ("drawn
    from stat, mkdir, rename, partfile_move, and the file-op's own tag");
    the declaration of [storage_error] is not part of the sources at hand. *)
Inductive operation_t : Type :=
  | op_none | op_stat | op_mkdir | op_rename | op_partfile_move
  | op_read | op_write.

#[global] Instance operation_eq_dec : EqDecision operation_t.
Proof. solve_decision. Defined.

(** Modelled from the spec: [storage_error], "a system error code, the
    implicated file index (or a sentinel for no specific file), and an
    operation tag". The sentinel is [-1]. *)
Record storage_error : Type := mk_storage_error {
  ec : error_code;
  file : Z;
  operation : operation_t
}.

#[global] Instance storage_error_eq_dec : EqDecision storage_error.
Proof. solve_decision. Defined.

(** [if (ec)]: the carrier holds a hard error code. *)
Definition is_error (e : storage_error) : bool := bool_decide (ec e ≠ 0).

(** [ec.file(i)] *)
Definition set_file (i : Z) (e : storage_error) : storage_error :=
  mk_storage_error (ec e) i (operation e).

(** ** Virtual file layout *)

(** Modelled from the spec: [file_storage] of [libtorrent/file_storage.hpp],
    which is not part of the sources at hand: "an ordered sequence of file
    records, each with: path (relative or absolute), byte size, and a
    cumulative byte offset giving its position in the flat virtual address
    space", and one piece length. The 64-bit sizes and offsets are kept as
    mathematical integers. *)
Record file_entry : Type := mk_file_entry {
  fe_path : string;
  fe_size : Z;
  fe_offset : Z;
  fe_absolute : bool
}.

Record file_storage : Type := mk_file_storage {
  piece_length : Z;
  entries : list file_entry
}.

Definition num_files (f : file_storage) : nat := length (entries f).
Definition end_file (f : file_storage) : nat := num_files f.

(** The accessors read the record at an index; an index outside the layout
    is an access past the end ([None]). *)
Definition file_size (f : file_storage) (i : nat) : option Z :=
  fe_size <$> entries f !! i.
Definition file_offset (f : file_storage) (i : nat) : option Z :=
  fe_offset <$> entries f !! i.
Definition file_path (f : file_storage) (i : nat) : option string :=
  fe_path <$> entries f !! i.
Definition file_absolute_path (f : file_storage) (i : nat) : option bool :=
  fe_absolute <$> entries f !! i.

Fixpoint sum_sizes (es : list file_entry) : Z :=
  match es with
  | [] => 0
  | e :: rest => fe_size e + sum_sizes rest
  end.

(** The size of the flat virtual address space. *)
Definition total_size (f : file_storage) : Z := sum_sizes (entries f).

(** The layout invariant: sizes are non-negative and every offset is the
    sum of the sizes before it. *)
Fixpoint wf_entries (base : Z) (es : list file_entry) : bool :=
  match es with
  | [] => true
  | e :: rest =>
      bool_decide (fe_offset e = base) && bool_decide (0 ≤ fe_size e)
      && wf_entries (base + fe_size e) rest
  end.

Definition wf_layout (f : file_storage) : bool := wf_entries 0 (entries f).

(** Modelled from the spec: [file_index_at_offset], "file index for a
    global offset"; the file whose byte range holds the offset, as the
    assertions of [readwritev] on its result require. No file holds an
    offset outside the virtual address space ([None]). *)
Fixpoint find_file (es : list file_entry) (i : nat) (off : Z) : option nat :=
  match es with
  | [] => None
  | e :: rest =>
      if bool_decide (fe_offset e ≤ off < fe_offset e + fe_size e) then Some i
      else find_file rest (S i) off
  end.

Definition file_index_at_offset (f : file_storage) (off : Z) : option nat :=
  find_file (entries f) 0 off.

(** ** The vectored I/O engine *)

(** What a run of the code comes to: a result, an access outside a span
    or a layout, or a loop that the given number of steps did not finish. *)
Inductive outcome (A : Type) : Type :=
  | Ok (a : A)
  | Undefined
  | OutOfFuel.
Arguments Ok {A} a.
Arguments Undefined {A}.
Arguments OutOfFuel {A}.

(** [fileop::file_op(file_index, file_offset, bufs, ec)]: the bytes
    transferred and the error carrier it leaves; [S] is the state of the
    strategy object and of the files behind it. *)
Definition fileop (S : Type) : Type :=
  nat → Z → list iovec_t → storage_error → S → Z * storage_error * S.

(** The bytes to ask of the current file (lines 139-141 and again 155-157):
    [bytes_left], cut to what the file holds from [file_offset] on. *)
Definition file_bytes_in (files : file_storage) (file_index : nat)
    (file_offset bytes_left : Z) : option Z :=
  fsize ← file_size files file_index;
  Some (if bool_decide (file_offset + bytes_left > fsize)
        then Z.max (to_int (fsize - file_offset)) 0
        else bytes_left).

(** The inner loop [while (file_bytes_left == 0)]: either it runs off the
    layout, or it stops at a file with bytes to transfer. Every turn moves to
    the next file, so [n = num_files] turns always suffice. *)
Inductive skip_result : Type :=
  | PastEnd
  | AtFile (file_index : nat) (file_offset file_bytes_left : Z).

Fixpoint skip_empty_files (n : nat) (files : file_storage) (bytes_left : Z)
    (file_index : nat) (file_offset file_bytes_left : Z) : outcome skip_result :=
  if bool_decide (file_bytes_left = 0) then
    match n with
    | O => OutOfFuel
    | S n =>
        let file_index := S file_index in
        let file_offset := 0 in
        if bool_decide (end_file files ≤ file_index)%nat then Ok PastEnd
        else
          match file_bytes_in files file_index file_offset bytes_left with
          | None => Undefined
          | Some file_bytes_left =>
              skip_empty_files n files bytes_left file_index file_offset
                file_bytes_left
          end
    end
  else Ok (AtFile file_index file_offset file_bytes_left).

(** The variables of the outer loop. *)
Record rw_state (S : Type) : Type := mk_rw_state {
  rw_file_index : nat;
  rw_file_offset : Z;
  rw_bytes_left : Z;
  rw_current_buf : list iovec_t;
  rw_tmp_buf : list iovec_t;
  rw_ec : storage_error;
  rw_op : S
}.
Arguments mk_rw_state {S}.
Arguments rw_file_index {S}.
Arguments rw_file_offset {S}.
Arguments rw_bytes_left {S}.
Arguments rw_current_buf {S}.
Arguments rw_tmp_buf {S}.
Arguments rw_ec {S}.
Arguments rw_op {S}.

(** One turn of [while (bytes_left > 0)]: a [return] ([inl]) or the state
    for the next turn ([inr]). *)
Definition rw_iteration {S} (op : fileop S) (files : file_storage) (size : Z)
    (st : rw_state S) : outcome ((Z * storage_error * S) + rw_state S) :=
  match file_bytes_in files (rw_file_index st) (rw_file_offset st)
          (rw_bytes_left st) with
  | None => Undefined
  | Some file_bytes_left =>
    match skip_empty_files (num_files files) files (rw_bytes_left st)
            (rw_file_index st) (rw_file_offset st) file_bytes_left with
    | Undefined => Undefined
    | OutOfFuel => OutOfFuel
    | Ok PastEnd => Ok (inl (size, rw_ec st, rw_op st))
    | Ok (AtFile file_index file_offset file_bytes_left) =>
      match copy_bufs (rw_current_buf st) file_bytes_left (rw_tmp_buf st) with
      | None => Undefined
      | Some (tmp_bufs_used, tmp_buf) =>
        let '(bytes_transferred, ec, s) :=
          op file_index file_offset (take tmp_bufs_used tmp_buf)
             (rw_ec st) (rw_op st) in
        if is_error ec then Ok (inl (-1, ec, s))
        else
          match advance_bufs (rw_current_buf st) bytes_transferred with
          | None => Undefined
          | Some current_buf =>
            let bytes_left := to_int (rw_bytes_left st - bytes_transferred) in
            let file_offset := file_offset + bytes_transferred in
            if bool_decide (bytes_transferred = 0) then
              let ec := if bool_decide (file_bytes_left > 0)
                        then set_file (Z.of_nat file_index) ec else ec in
              Ok (inl (to_int (size - bytes_left), ec, s))
            else
              Ok (inr (mk_rw_state file_index file_offset bytes_left
                         current_buf tmp_buf ec s))
          end
      end
    end
  end.

Fixpoint rw_loop {S} (fuel : nat) (op : fileop S) (files : file_storage)
    (size : Z) (st : rw_state S) : outcome (Z * storage_error * S) :=
  if bool_decide (rw_bytes_left st > 0) then
    match fuel with
    | O => OutOfFuel
    | S fuel =>
        match rw_iteration op files size st with
        | Ok (inl r) => Ok r
        | Ok (inr st) => rw_loop fuel op files size st
        | Undefined => Undefined
        | OutOfFuel => OutOfFuel
        end
    end
  else Ok (size, rw_ec st, rw_op st).

(** [readwritev]. The two [TORRENT_ALLOCA] arrays hold [bufs.size()]
    elements each, all [uninit] before they are written. The assertions are
    compiled out. [fuel] bounds the turns of the outer loop. *)
Definition readwritev {S} (op : fileop S) (uninit : iovec_t)
    (files : file_storage) (bufs : list iovec_t) (piece offset : Z)
    (ec : storage_error) (s : S) (fuel : nat)
  : outcome (Z * storage_error * S) :=
  let size := bufs_size bufs in
  let torrent_offset := piece * piece_length files + offset in
  match file_index_at_offset files torrent_offset with
  | None => Undefined
  | Some file_index =>
    match file_offset files file_index with
    | None => Undefined
    | Some first_offset =>
      let file_offset := torrent_offset - first_offset in
      let bytes_left := size in
      let current_buf := replicate (length bufs) uninit in
      match copy_bufs bufs size current_buf with
      | None => Undefined
      | Some (_, current_buf) =>
        let tmp_buf := replicate (length bufs) uninit in
        rw_loop fuel op files size
          (mk_rw_state file_index file_offset bytes_left current_buf tmp_buf ec s)
      end
    end
  end.

(** [readwritev] with what the two [TORRENT_ALLOCA] arrays hold before they
    are written given slot by slot: [current_buf] and [tmp_buf] are the
    [bufs.size()] elements found on the stack, each of them arbitrary.
    [readwritev op uninit] is the case where every slot holds [uninit]. *)
Definition readwritev_on {S} (op : fileop S) (current_buf tmp_buf : list iovec_t)
    (files : file_storage) (bufs : list iovec_t) (piece offset : Z)
    (ec : storage_error) (s : S) (fuel : nat)
  : outcome (Z * storage_error * S) :=
  let size := bufs_size bufs in
  let torrent_offset := piece * piece_length files + offset in
  match file_index_at_offset files torrent_offset with
  | None => Undefined
  | Some file_index =>
    match file_offset files file_index with
    | None => Undefined
    | Some first_offset =>
      let file_offset := torrent_offset - first_offset in
      let bytes_left := size in
      match copy_bufs bufs size current_buf with
      | None => Undefined
      | Some (_, current_buf) =>
        rw_loop fuel op files size
          (mk_rw_state file_index file_offset bytes_left current_buf tmp_buf ec s)
      end
    end
  end.

(** *** Observing the calls to the file-op *)

(** One call to [file_op]: what it was asked and what it answered. *)
Record file_op_call : Type := mk_call {
  call_file : nat;
  call_offset : Z;
  call_bufs : list iovec_t;
  call_ret : Z;
  call_ec : storage_error
}.

(** [traced op] behaves as [op] and appends every call to a log. *)
Definition traced {S} (op : fileop S) : fileop (S * list file_op_call) :=
  λ file_index file_offset bufs ec sl,
    let '(r, ec', s') := op file_index file_offset bufs ec (fst sl) in
    (r, ec', (s', snd sl ++ [mk_call file_index file_offset bufs r ec'])).

(** [traced_in op] behaves as [op] and appends to a log, for every call,
    the error carrier the call was handed and the call itself. *)
Definition traced_in {S} (op : fileop S)
  : fileop (S * list (storage_error * file_op_call)) :=
  λ file_index file_offset bufs ec sl,
    let '(r, ec', s') := op file_index file_offset bufs ec (fst sl) in
    (r, ec', (s', snd sl ++ [(ec, mk_call file_index file_offset bufs r ec')])).

(** The in-memory stub: every request is transferred in full, no error. *)
Definition echo_op : fileop unit :=
  λ _ _ bufs ec s, (bufs_size bufs, ec, s).

(** The contract of a file-op that transfers every request in full and
    reports no error. *)
Definition full_echo {S} (op : fileop S) : Prop :=
  ∀ file_index file_offset bufs ec s,
    is_error ec = false →
    ∃ ec' s', op file_index file_offset bufs ec s = (bufs_size bufs, ec', s')
              ∧ is_error ec' = false.

(** The contract of any file-op: without an error, the bytes transferred
    are between none and all of those requested. *)
Definition bounded_transfer {S} (op : fileop S) : Prop :=
  ∀ file_index file_offset bufs ec s r ec' s',
    int_sized bufs →
    op file_index file_offset bufs ec s = (r, ec', s') →
    is_error ec' = false → 0 ≤ r ≤ total_length bufs.

(** A stub over files that may be shorter on disk than the layout says:
    [on_disk] gives the bytes each file really holds; a request is
    transferred up to the end of the file, and not at all beyond it. *)
Definition truncated_op (on_disk : list Z) : fileop unit :=
  λ file_index file_offset bufs ec s,
    (Z.min (bufs_size bufs)
           (Z.max (default 0 (on_disk !! file_index) - file_offset) 0),
     ec, s).

(** A stub that fails on one file with an I/O error ([EIO]) and transfers
    every request to the other files in full. *)
Definition failing_op (bad : nat) : fileop unit :=
  λ file_index file_offset bufs ec s,
    if bool_decide (file_index = bad)
    then (-1, mk_storage_error 5 (Z.of_nat file_index) op_read, s)
    else (bufs_size bufs, ec, s).

(** What a call asked for, and the calls of a log seen through a
    renumbering of the files. *)
Definition call_request (c : file_op_call) : nat * Z * list iovec_t :=
  (call_file c, call_offset c, call_bufs c).

Fixpoint sum_ret (log : list file_op_call) : Z :=
  match log with
  | [] => 0
  | c :: rest => call_ret c + sum_ret rest
  end.

(** Layout with the zero-length files removed; the cumulative offsets of
    the files that stay are the same, as nothing of positive size went. *)
Definition nonempty_file (e : file_entry) : bool := bool_decide (fe_size e ≠ 0).

Definition without_empty_files (f : file_storage) : file_storage :=
  mk_file_storage (piece_length f) (filter (λ e, nonempty_file e = true) (entries f)).

(** The index a file of [f] has in [without_empty_files f]: the number of
    non-empty files before it. *)
Definition renumber (f : file_storage) (i : nat) : nat :=
  length (filter (λ e, nonempty_file e = true) (take i (entries f))).

(** *** The loop invariant and the shape of a run *)

(** The invariant of the outer loop for a request of [size] bytes that
    starts at the global offset [start]: [live], the part of the cursor
    still to transfer, heads [current_buf] and totals [bytes_left]; the
    loop stands in a file of the layout, at the global offset
    [start + (size - bytes_left)]. *)
Record rw_inv {S} (files : file_storage) (size start : Z)
    (live : list iovec_t) (st : rw_state S) : Prop := mk_rw_inv {
  inv_live : ∃ tail, rw_current_buf st = live ++ tail;
  inv_nonneg : Forall (λ b, 0 ≤ iov_len b) live;
  inv_total : total_length live = rw_bytes_left st;
  inv_bounds : 0 ≤ rw_bytes_left st ≤ size ∧ size ≤ INT_MAX;
  inv_tmp : (length live ≤ length (rw_tmp_buf st))%nat;
  inv_file : ∃ e, entries files !! rw_file_index st = Some e
                  ∧ 0 ≤ rw_file_offset st ≤ fe_size e
                  ∧ fe_offset e + rw_file_offset st
                    = start + (size - rw_bytes_left st)
}.

(** What a turn of the outer loop does with the answer of the file-op,
    called on file [j] at [fo] (lines 166-185). *)
Definition rw_after_call {S} (size : Z) (st : rw_state S) (j : nat) (fo : Z)
    (tmp_buf : list iovec_t) (answer : Z * storage_error * S)
  : outcome ((Z * storage_error * S) + rw_state S) :=
  let '(r, ec, s) := answer in
  if is_error ec then Ok (inl (-1, ec, s))
  else
    match advance_bufs (rw_current_buf st) r with
    | None => Undefined
    | Some current_buf =>
      if bool_decide (r = 0) then
        Ok (inl (to_int (size - to_int (rw_bytes_left st - r)),
                 set_file (Z.of_nat j) ec, s))
      else
        Ok (inr (mk_rw_state j (fo + r) (to_int (rw_bytes_left st - r))
                   current_buf tmp_buf ec s))
    end.

(** A chain of full transfers: from the global offset [p] with [live] still
    to transfer, every call goes to the file that holds the current offset,
    at that offset within the file, for as many bytes as are left in the
    request and in the file, with exactly the next bytes of [live]; the
    chain ends at the offset [p'] with [live'] left. *)
Inductive call_chain (files : file_storage)
  : Z → list iovec_t → list file_op_call → Z → list iovec_t → Prop :=
  | chain_nil p live : call_chain files p live [] p live
  | chain_cons p live c log p' live' e n :
      entries files !! call_file c = Some e →
      fe_offset e ≤ p < fe_offset e + fe_size e →
      call_offset c = p - fe_offset e →
      n = Z.min (total_length live) (fe_offset e + fe_size e - p) →
      0 < n →
      call_bufs c = take_bytes live n →
      call_ret c = n →
      call_chain files (p + n) (drop_bytes live n) log p' live' →
      call_chain files p live (c :: log) p' live'.

(** A call seen through the renumbering of the files. *)
Definition renumber_call (f : file_storage) (c : file_op_call) : file_op_call :=
  mk_call (renumber f (call_file c)) (call_offset c) (call_bufs c)
          (call_ret c) (call_ec c).

(** How a run ends, after the calls [good] that transferred bytes without
    error, [done] bytes having been transferred before them: with no
    further call and the requested size; with a last call that reported an
    error, [-1] and the carrier as that call left it; or with a last call
    that transferred no byte and reported no error, the bytes transferred so
    far and the file of that call set in the carrier. *)
Inductive run_end (size done : Z) (good : list file_op_call)
  : list file_op_call → Z → storage_error → Prop :=
  | end_complete ec' : run_end size done good [] size ec'
  | end_error c :
      is_error (call_ec c) = true →
      run_end size done good [c] (-1) (call_ec c)
  | end_short c :
      is_error (call_ec c) = false → call_ret c = 0 →
      run_end size done good [c] (done + sum_ret good)
        (set_file (Z.of_nat (call_file c)) (call_ec c)).

(** ** The storage relocation engine *)

Inductive status_t : Type :=
  | no_error | fatal_disk_error | need_full_check | file_exist.

Inductive move_flags_t : Type :=
  | always_replace_files | fail_if_exist | dont_replace.

#[global] Instance status_eq_dec : EqDecision status_t.
Proof. solve_decision. Defined.
#[global] Instance move_flags_eq_dec : EqDecision move_flags_t.
Proof. solve_decision. Defined.

(** The path helpers of [libtorrent/aux_/path.hpp], not part of the sources
    at hand, are parameters of the model. *)
Record path_ops : Type := mk_path_ops {
  complete : string → string;
  combine_path : string → string → string;
  has_parent_path : string → bool;
  parent_path : string → string
}.

(** The filesystem primitives and [part_file::move_partfile], over a state
    [W] of the disk. Each returns the [error_code] it leaves ([exists_]
    its answer) and the new state. *)
Record disk_io (W : Type) : Type := mk_disk_io {
  stat_file : string → W → error_code * W;
  create_directories : string → W → error_code * W;
  exists_ : string → W → bool * W;
  move_file : string → string → W → error_code * W;
  copy_file : string → string → W → error_code * W;
  remove : string → W → error_code * W;
  move_partfile : string → W → error_code * W
}.
Arguments stat_file {W}.
Arguments create_directories {W}.
Arguments exists_ {W}.
Arguments move_file {W}.
Arguments copy_file {W}.
Arguments remove {W}.
Arguments move_partfile {W}.

(** Modelled from the spec: [file_storage::file_path(i, save_path)] for a
    file whose path is not absolute, the path of the file under
    [save_path]. *)
Definition file_path_in (paths : path_ops) (save_path : string)
    (fe : file_entry) : string :=
  combine_path paths save_path (fe_path fe).

(** Lines 208-221: the files of the layout, in order, [i] being the index
    of the head of [es]; the first file at the destination that [stat_file]
    does not report missing, with its error code. *)
Fixpoint stat_files {W} (io : disk_io W) (paths : path_ops)
    (new_save_path : string) (es : list file_entry) (i : nat) (w : W)
  : option (nat * error_code) * W :=
  match es with
  | [] => (None, w)
  | fe :: es =>
      if fe_absolute fe then stat_files io paths new_save_path es (S i) w
      else
        let '(err, w) := stat_file io (file_path_in paths new_save_path fe) w in
        if bool_decide (err ≠ no_such_file_or_directory) then (Some (i, err), w)
        else stat_files io paths new_save_path es (S i) w
  end.

(** Lines 200-223. *)
Definition check_destination {W} (io : disk_io W) (paths : path_ops)
    (f : file_storage) (new_save_path : string) (flags : move_flags_t) (w : W)
  : option (nat * error_code) * W :=
  if bool_decide (flags = fail_if_exist) then
    let '(err, w) := stat_file io new_save_path w in
    if bool_decide (err ≠ no_such_file_or_directory)
    then stat_files io paths new_save_path (entries f) 0 w
    else (None, w)
  else (None, w).

(** Lines 225-248: the error and the operation that failed, if any. *)
Definition ensure_destination {W} (io : disk_io W) (new_save_path : string)
    (w : W) : option (error_code * operation_t) * W :=
  let '(err, w) := stat_file io new_save_path w in
  if bool_decide (err = no_such_file_or_directory) then
    let '(err, w) := create_directories io new_save_path w in
    if bool_decide (err ≠ 0) then (Some (err, op_mkdir), w) else (None, w)
  else if bool_decide (err ≠ 0) then (Some (err, op_stat), w)
  else (None, w).

(** The variables that outlive the loop of lines 256-298. *)
Record move_loop (W : Type) : Type := mk_move_loop {
  ml_i : nat;
  ml_e : error_code;
  ml_copied_files : list bool;
  ml_ret : status_t;
  ml_ec : storage_error;
  ml_w : W
}.
Arguments mk_move_loop {W}.
Arguments ml_i {W}.
Arguments ml_e {W}.
Arguments ml_copied_files {W}.
Arguments ml_ret {W}.
Arguments ml_ec {W}.
Arguments ml_w {W}.

(** Lines 256-298; [es] are the files from index [i] on. A [break] leaves
    [i] at the file that failed. *)
Fixpoint move_files {W} (io : disk_io W) (paths : path_ops)
    (flags : move_flags_t) (save_path new_save_path : string)
    (es : list file_entry) (i : nat) (e : error_code)
    (copied_files : list bool) (ret : status_t) (ec : storage_error) (w : W)
  : move_loop W :=
  match es with
  | [] => mk_move_loop i e copied_files ret ec w
  | fe :: es =>
      if fe_absolute fe then
        move_files io paths flags save_path new_save_path es (S i) e
          copied_files ret ec w
      else
        let old_path := combine_path paths save_path (fe_path fe) in
        let new_path := combine_path paths new_save_path (fe_path fe) in
        let '(present, w) :=
          if bool_decide (flags = dont_replace) then exists_ io new_path w
          else (false, w) in
        if present then
          let ret := if bool_decide (ret = no_error) then need_full_check else ret in
          move_files io paths flags save_path new_save_path es (S i) e
            copied_files ret ec w
        else
          let '(e, w) := move_file io old_path new_path w in
          let '(e, copied_files, w) :=
            if bool_decide (e = no_such_file_or_directory) then (0, copied_files, w)
            else if bool_decide (e ≠ 0) && bool_decide (e ≠ invalid_argument)
                    && bool_decide (e ≠ permission_denied) then
              let '(e, w) := copy_file io old_path new_path w in
              (e, if bool_decide (e = 0) then <[i := true]> copied_files
                  else copied_files, w)
            else (e, copied_files, w) in
          if bool_decide (e ≠ 0) then
            mk_move_loop i e copied_files ret
              (mk_storage_error e (Z.of_nat i) op_rename) w
          else
            move_files io paths flags save_path new_save_path es (S i) e
              copied_files ret ec w
  end.

(** Lines 300-309. *)
Definition move_part_file {W} (io : disk_io W) (new_save_path : string)
    (pf : bool) (e : error_code) (ec : storage_error) (w : W)
  : error_code * storage_error * W :=
  if bool_decide (e = 0) && pf then
    let '(e, w) := move_partfile io new_save_path w in
    (e, if bool_decide (e ≠ 0)
        then mk_storage_error e (-1) op_partfile_move else ec, w)
  else (e, ec, w).

(** Lines 314-329: [while (--i >= 0)]. *)
Fixpoint rollback {W} (io : disk_io W) (paths : path_ops) (f : file_storage)
    (save_path new_save_path : string) (copied_files : list bool) (i : nat)
    (w : W) : outcome W :=
  match i with
  | O => Ok w
  | S i =>
      match entries f !! i, (copied_files !! i : option bool) with
      | Some fe, Some copied =>
          if fe_absolute fe then
            rollback io paths f save_path new_save_path copied_files i w
          else if copied then
            rollback io paths f save_path new_save_path copied_files i w
          else
            let old_path := combine_path paths save_path (fe_path fe) in
            let new_path := combine_path paths new_save_path (fe_path fe) in
            let '(_, w) := move_file io new_path old_path w in
            rollback io paths f save_path new_save_path copied_files i w
      | _, _ => Undefined
      end
  end.

(** [std::set<std::string>::insert]: the set as the list of its elements
    in increasing order. *)
Fixpoint set_insert (s : string) (l : list string) : list string :=
  match l with
  | [] => [s]
  | x :: rest =>
      match String.compare s x with
      | Lt => s :: l
      | Eq => l
      | Gt => x :: set_insert s rest
      end
  end.

(** Lines 340-360. *)
Fixpoint remove_copied {W} (io : disk_io W) (paths : path_ops)
    (save_path : string) (copied_files : list bool) (es : list file_entry)
    (i : nat) (subdirs : list string) (w : W) : outcome (list string * W) :=
  match es with
  | [] => Ok (subdirs, w)
  | fe :: es =>
      if fe_absolute fe then
        remove_copied io paths save_path copied_files es (S i) subdirs w
      else
        let subdirs :=
          if has_parent_path paths (fe_path fe)
          then set_insert (parent_path paths (fe_path fe)) subdirs
          else subdirs in
        match (copied_files !! i : option bool) with
        | None => Undefined
        | Some false =>
            remove_copied io paths save_path copied_files es (S i) subdirs w
        | Some true =>
            let old_path := combine_path paths save_path (fe_path fe) in
            let '(_, w) := remove io old_path w in
            remove_copied io paths save_path copied_files es (S i) subdirs w
        end
  end.

(** Lines 367-371: [while (subdir != save_path && !err)]. *)
Fixpoint remove_up {W} (fuel : nat) (io : disk_io W) (paths : path_ops)
    (save_path subdir : string) (err : error_code) (w : W) : outcome W :=
  if bool_decide (subdir ≠ save_path) && bool_decide (err = 0) then
    match fuel with
    | O => OutOfFuel
    | S fuel =>
        let '(err, w) := remove io subdir w in
        remove_up fuel io paths save_path (parent_path paths subdir) err w
    end
  else Ok w.

(** Lines 362-372. *)
Fixpoint remove_subdirs {W} (fuel : nat) (io : disk_io W) (paths : path_ops)
    (save_path : string) (subdirs : list string) (w : W) : outcome W :=
  match subdirs with
  | [] => Ok w
  | s :: subdirs =>
      match remove_up fuel io paths save_path (combine_path paths save_path s) 0 w with
      | Ok w => remove_subdirs fuel io paths save_path subdirs w
      | Undefined => Undefined
      | OutOfFuel => OutOfFuel
      end
  end.

(** [move_storage]; [pf] tells whether there is a part file. [fuel] bounds
    the turns of each directory-pruning loop. *)
Definition move_storage {W} (io : disk_io W) (paths : path_ops)
    (f : file_storage) (save_path destination_save_path : string) (pf : bool)
    (flags : move_flags_t) (ec : storage_error) (w : W) (fuel : nat)
  : outcome (status_t * string * storage_error * W) :=
  let ret := no_error in
  let new_save_path := complete paths destination_save_path in
  match check_destination io paths f new_save_path flags w with
  | (Some (i, err), w) =>
      Ok (file_exist, save_path, mk_storage_error err (Z.of_nat i) op_stat, w)
  | (None, w) =>
    match ensure_destination io new_save_path w with
    | (Some (err, operation), w) =>
        Ok (fatal_disk_error, save_path, mk_storage_error err (-1) operation, w)
    | (None, w) =>
      let copied_files := replicate (num_files f) false in
      let ml := move_files io paths flags save_path new_save_path (entries f)
                  0 0 copied_files ret ec w in
      let '(e, ec, w) :=
        move_part_file io new_save_path pf (ml_e ml) (ml_ec ml) (ml_w ml) in
      if bool_decide (e ≠ 0) then
        match rollback io paths f save_path new_save_path (ml_copied_files ml)
                (ml_i ml) w with
        | Ok w => Ok (fatal_disk_error, save_path, ec, w)
        | Undefined => Undefined
        | OutOfFuel => OutOfFuel
        end
      else
        match remove_copied io paths save_path (ml_copied_files ml) (entries f)
                0 [] w with
        | Ok (subdirs, w) =>
            match remove_subdirs fuel io paths save_path subdirs w with
            | Ok w => Ok (ml_ret ml, new_save_path, ec, w)
            | Undefined => Undefined
            | OutOfFuel => OutOfFuel
            end
        | Undefined => Undefined
        | OutOfFuel => OutOfFuel
        end
    end
  end.

(** *** Observing the calls to the filesystem *)

Inductive fs_event : Type :=
  | ev_stat_file (p : string) (e : error_code)
  | ev_create_directories (p : string) (e : error_code)
  | ev_exists (p : string) (present : bool)
  | ev_move_file (src dst : string) (e : error_code)
  | ev_copy_file (src dst : string) (e : error_code)
  | ev_remove (p : string) (e : error_code)
  | ev_move_partfile (p : string) (e : error_code).

#[global] Instance fs_event_eq_dec : EqDecision fs_event.
Proof. solve_decision. Defined.

(** [traced_io io] behaves as [io] and appends every call to a log. *)
Definition traced_io {W} (io : disk_io W) : disk_io (W * list fs_event) :=
  {| stat_file := λ p (wl : W * list fs_event),
       let '(e, w) := stat_file io p (fst wl) in
       (e, (w, snd wl ++ [ev_stat_file p e]));
     create_directories := λ p (wl : W * list fs_event),
       let '(e, w) := create_directories io p (fst wl) in
       (e, (w, snd wl ++ [ev_create_directories p e]));
     exists_ := λ p (wl : W * list fs_event),
       let '(b, w) := exists_ io p (fst wl) in
       (b, (w, snd wl ++ [ev_exists p b]));
     move_file := λ src dst (wl : W * list fs_event),
       let '(e, w) := move_file io src dst (fst wl) in
       (e, (w, snd wl ++ [ev_move_file src dst e]));
     copy_file := λ src dst (wl : W * list fs_event),
       let '(e, w) := copy_file io src dst (fst wl) in
       (e, (w, snd wl ++ [ev_copy_file src dst e]));
     remove := λ p (wl : W * list fs_event),
       let '(e, w) := remove io p (fst wl) in
       (e, (w, snd wl ++ [ev_remove p e]));
     move_partfile := λ p (wl : W * list fs_event),
       let '(e, w) := move_partfile io p (fst wl) in
       (e, (w, snd wl ++ [ev_move_partfile p e])) |}.

Arguments traced_io : simpl never.

(** An event of [stat_file], the one primitive that changes nothing. *)
Definition is_stat_event (ev : fs_event) : Prop :=
  ∃ p e, ev = ev_stat_file p e.

(** A [stat_file] that leaves the state of the disk as it is. *)
Definition stat_read_only {W} (io : disk_io W) : Prop :=
  ∀ p w, snd (stat_file io p w) = w.

(** The file at the destination is reported missing, whatever the state
    of the disk; files with an absolute path are not looked at. *)
Definition always_missing {W} (io : disk_io W) (paths : path_ops)
    (new_save_path : string) (fe : file_entry) : Prop :=
  fe_absolute fe = true ∨
  ∀ w, fst (stat_file io (file_path_in paths new_save_path fe) w)
       = no_such_file_or_directory.

(** The probes of the files at the destination, all of them. *)
Definition probe_events (paths : path_ops) (new_save_path : string)
    (a : string → error_code) (es : list file_entry) : list fs_event :=
  filter (λ fe, fe_absolute fe = false) es ≫= λ fe,
    [ev_stat_file (file_path_in paths new_save_path fe)
       (a (file_path_in paths new_save_path fe))].

(** A disk whose answers do not depend on its state: what every
    primitive answers, by its arguments. *)
Record answers : Type := mk_answers {
  stat_ans : string → error_code;
  mkdir_ans : string → error_code;
  exists_ans : string → bool;
  move_ans : string → string → error_code;
  copy_ans : string → string → error_code;
  remove_ans : string → error_code;
  partfile_ans : string → error_code
}.

Record follows {W} (io : disk_io W) (a : answers) : Prop := mk_follows {
  follows_stat : ∀ p w, fst (stat_file io p w) = stat_ans a p;
  follows_mkdir : ∀ p w, fst (create_directories io p w) = mkdir_ans a p;
  follows_exists : ∀ p w, fst (exists_ io p w) = exists_ans a p;
  follows_move : ∀ src dst w, fst (move_file io src dst w) = move_ans a src dst;
  follows_copy : ∀ src dst w, fst (copy_file io src dst w) = copy_ans a src dst;
  follows_remove : ∀ p w, fst (remove io p w) = remove_ans a p;
  follows_partfile : ∀ p w, fst (move_partfile io p w) = partfile_ans a p
}.

(** The stub that answers as told and keeps no state. *)
Definition script_io (a : answers) : disk_io unit :=
  {| stat_file := λ p w, (stat_ans a p, w);
     create_directories := λ p w, (mkdir_ans a p, w);
     exists_ := λ p w, (exists_ans a p, w);
     move_file := λ src dst w, (move_ans a src dst, w);
     copy_file := λ src dst w, (copy_ans a src dst, w);
     remove := λ p w, (remove_ans a p, w);
     move_partfile := λ p w, (partfile_ans a p, w) |}.

(** *** The spec's words for the relocation of one file *)

(** What happens to a file (spec 4.3, step 4): files with an absolute
    path are never relocated; under dont-replace a file whose destination
    exists is skipped; the move succeeds, a missing source counting as
    success; a move that fails for another reason than "invalid argument"
    or "permission denied" falls back to a copy; any other failure aborts. *)
Inductive file_fate : Type :=
  | fate_absolute
  | fate_skipped
  | fate_moved
  | fate_copied
  | fate_failed (e : error_code).

#[global] Instance file_fate_eq_dec : EqDecision file_fate.
Proof. solve_decision. Defined.

Definition fate (a : answers) (paths : path_ops) (flags : move_flags_t)
    (save_path new_save_path : string) (fe : file_entry) : file_fate :=
  let old_path := combine_path paths save_path (fe_path fe) in
  let new_path := combine_path paths new_save_path (fe_path fe) in
  if fe_absolute fe then fate_absolute
  else if bool_decide (flags = dont_replace) && exists_ans a new_path
  then fate_skipped
  else
    let m := move_ans a old_path new_path in
    if bool_decide (m = 0 ∨ m = no_such_file_or_directory) then fate_moved
    else if bool_decide (m = invalid_argument ∨ m = permission_denied)
    then fate_failed m
    else if bool_decide (copy_ans a old_path new_path = 0) then fate_copied
    else fate_failed (copy_ans a old_path new_path).

(** The calls the relocation of one file makes. *)
Definition fate_events (a : answers) (paths : path_ops) (flags : move_flags_t)
    (save_path new_save_path : string) (fe : file_entry) : list fs_event :=
  let old_path := combine_path paths save_path (fe_path fe) in
  let new_path := combine_path paths new_save_path (fe_path fe) in
  let probe := if bool_decide (flags = dont_replace)
               then [ev_exists new_path (exists_ans a new_path)] else [] in
  let m := move_ans a old_path new_path in
  match fate a paths flags save_path new_save_path fe with
  | fate_absolute => []
  | fate_skipped => probe
  | fate_moved => probe ++ [ev_move_file old_path new_path m]
  | fate_copied | fate_failed _ =>
      probe ++ ev_move_file old_path new_path m ::
        (if bool_decide (m = invalid_argument ∨ m = permission_denied) then []
         else [ev_copy_file old_path new_path (copy_ans a old_path new_path)])
  end.

Definition is_failed (ft : file_fate) : bool :=
  match ft with fate_failed _ => true | _ => false end.

(** The status a relocation without failure ends with. *)
Definition status_after (fates : list file_fate) : status_t :=
  if bool_decide (fate_skipped ∈ fates) then need_full_check else no_error.

(** Rollback (spec 4.3, step 6): "walk the files already processed in
    reverse order and move each one back to its original location, except
    files that were copied rather than moved"; files with an absolute
    path were not relocated. *)
Definition moved_back (a : answers) (paths : path_ops) (flags : move_flags_t)
    (save_path new_save_path : string) (processed : list file_entry)
  : list fs_event :=
  reverse processed ≫= λ fe,
    let old_path := combine_path paths save_path (fe_path fe) in
    let new_path := combine_path paths new_save_path (fe_path fe) in
    match fate a paths flags save_path new_save_path fe with
    | fate_absolute | fate_copied => []
    | _ => [ev_move_file new_path old_path (move_ans a new_path old_path)]
    end.

(** [status_t] after a file was skipped (line 266). *)
Definition after_skip (ret : status_t) : status_t :=
  if bool_decide (ret = no_error) then need_full_check else ret.

(** The copied-files set after the files of the given fates, the first
    of them being file [i]. *)
Fixpoint mark_copied (fates : list file_fate) (i : nat) (copied_files : list bool)
  : list bool :=
  match fates with
  | [] => copied_files
  | ft :: fates =>
      mark_copied fates (S i)
        (if bool_decide (ft = fate_copied) then <[i := true]> copied_files
         else copied_files)
  end.

(** Whether a file of this fate is in the copied-files set. *)
Definition copied_flag (ft : file_fate) : bool := bool_decide (ft = fate_copied).

(** Commit cleanup (spec 4.3, step 7): "for every file that was copied
    (not moved), delete the original from the source tree". *)
Definition removed_sources (a : answers) (paths : path_ops) (flags : move_flags_t)
    (save_path new_save_path : string) (es : list file_entry) : list fs_event :=
  es ≫= λ fe,
    let old_path := combine_path paths save_path (fe_path fe) in
    match fate a paths flags save_path new_save_path fe with
    | fate_copied => [ev_remove old_path (remove_ans a old_path)]
    | _ => []
    end.

(** The set of the parent directories of the relocated files (lines
    346-347). *)
Fixpoint collect_subdirs (paths : path_ops) (es : list file_entry)
    (subdirs : list string) : list string :=
  match es with
  | [] => subdirs
  | fe :: es =>
      collect_subdirs paths es
        (if fe_absolute fe then subdirs
         else if has_parent_path paths (fe_path fe)
         then set_insert (parent_path paths (fe_path fe)) subdirs
         else subdirs)
  end.

(** The removal of a directory above a relocated file, in the source tree. *)
Definition is_dir_remove (paths : path_ops) (f : file_storage)
    (save_path : string) (ev : fs_event) : Prop :=
  ∃ fe k e,
    fe ∈ entries f ∧ fe_absolute fe = false ∧
    has_parent_path paths (fe_path fe) = true ∧
    ev = ev_remove
           (Nat.iter k (parent_path paths)
              (combine_path paths save_path (parent_path paths (fe_path fe)))) e.

(** The relocation fails after the files [processed] went through: at
    the next file of the layout, or at the partial-piece store when all
    files went through. [e] is the error and [ec'] the error carrier. *)
Definition relocation_fails (a : answers) (paths : path_ops) (flags : move_flags_t)
    (save_path new_save_path : string) (f : file_storage) (pf : bool)
    (processed : list file_entry) (e : error_code) (ec' : storage_error) : Prop :=
  (∃ fe post,
     entries f = processed ++ fe :: post ∧
     fate a paths flags save_path new_save_path fe = fate_failed e ∧
     ec' = mk_storage_error e (Z.of_nat (length processed)) op_rename)
  ∨ (processed = entries f ∧ pf = true ∧
     partfile_ans a new_save_path = e ∧ e ≠ 0 ∧
     ec' = mk_storage_error e (-1) op_partfile_move).

(** The calls of a relocation up to its failure. *)
Definition failure_events (a : answers) (paths : path_ops) (flags : move_flags_t)
    (save_path new_save_path : string) (f : file_storage)
    (processed : list file_entry) : list fs_event :=
  match drop (length processed) (entries f) with
  | fe :: _ => fate_events a paths flags save_path new_save_path fe
  | [] => [ev_move_partfile new_save_path (partfile_ans a new_save_path)]
  end.

(** The file goes through without a copy: it has an absolute path, is
    skipped, or is moved. *)
Definition goes_clean (ft : file_fate) : bool :=
  match ft with
  | fate_absolute | fate_skipped | fate_moved => true
  | _ => false
  end.

Definition is_copy_event (ev : fs_event) : bool :=
  match ev with ev_copy_file _ _ _ => true | _ => false end.

Definition is_remove_event (ev : fs_event) : bool :=
  match ev with ev_remove _ _ => true | _ => false end.

(** A call that neither copies a file nor removes a path. *)
Definition no_copy_no_remove (ev : fs_event) : Prop :=
  is_copy_event ev = false ∧ is_remove_event ev = false.

Definition is_exists_event (ev : fs_event) : bool :=
  match ev with ev_exists _ _ => true | _ => false end.

Definition is_partfile_event (ev : fs_event) : bool :=
  match ev with ev_move_partfile _ _ => true | _ => false end.

(** The answers of [move_file] after which the file is copied (lines
    277-281): an error, other than "no such file or directory", "invalid
    argument" and "permission denied". *)
Definition copy_fallback_error (e : error_code) : Prop :=
  e ≠ 0 ∧ e ≠ no_such_file_or_directory ∧
  e ≠ invalid_argument ∧ e ≠ permission_denied.

(** Every call to [copy_file] in the log comes right after a call to
    [move_file] with the same two paths that answered such an error. *)
Definition copies_follow_moves (log : list fs_event) : Prop :=
  ∀ pre src dst e post, log = pre ++ ev_copy_file src dst e :: post →
    ∃ pre' m, pre = pre' ++ [ev_move_file src dst m] ∧ copy_fallback_error m.

(** The calls the relocation of one file may make (lines 261-289). *)
Definition file_calls (flags : move_flags_t) (old_path new_path : string)
    (seg : list fs_event) : Prop :=
  ∃ probe rest,
    seg = probe ++ rest ∧
    (probe = [] ∨ (flags = dont_replace ∧ ∃ b, probe = [ev_exists new_path b])) ∧
    (rest = [] ∨ (∃ m, rest = [ev_move_file old_path new_path m])
     ∨ (∃ m c, rest = [ev_move_file old_path new_path m;
                       ev_copy_file old_path new_path c]
               ∧ copy_fallback_error m)).

(** The probe of the destination of a file under dont-replace. *)
Definition probe_of (a : answers) (flags : move_flags_t) (new_path : string)
  : list fs_event :=
  if bool_decide (flags = dont_replace)
  then [ev_exists new_path (exists_ans a new_path)] else [].

(** The call to the partial-piece store, when there is one. *)
Definition partfile_events (a : answers) (new_save_path : string) (pf : bool)
  : list fs_event :=
  if pf then [ev_move_partfile new_save_path (partfile_ans a new_save_path)]
  else [].

(** The pre-flight of the relocation (spec 4.3, steps 2 and 3) lets it
    start: under fail-if-exists the destination root or every file under it
    is missing, and the root is there or can be created. *)
Definition preflight_ok (a : answers) (paths : path_ops) (f : file_storage)
    (new_save_path : string) (flags : move_flags_t) : bool :=
  (bool_decide (flags ≠ fail_if_exist)
   || bool_decide (stat_ans a new_save_path = no_such_file_or_directory)
   || forallb (λ fe, fe_absolute fe
                     || bool_decide (stat_ans a (file_path_in paths new_save_path fe)
                                     = no_such_file_or_directory))
              (entries f))
  && (if bool_decide (stat_ans a new_save_path = no_such_file_or_directory)
      then bool_decide (mkdir_ans a new_save_path = 0)
      else bool_decide (stat_ans a new_save_path = 0)).

(** The calls of the pre-flight when it passes. *)
Definition preflight_events (a : answers) (paths : path_ops) (f : file_storage)
    (new_save_path : string) (flags : move_flags_t) : list fs_event :=
  (if bool_decide (flags = fail_if_exist) then
     ev_stat_file new_save_path (stat_ans a new_save_path) ::
     (if bool_decide (stat_ans a new_save_path ≠ no_such_file_or_directory)
      then probe_events paths new_save_path (stat_ans a) (entries f)
      else [])
   else [])
  ++ ev_stat_file new_save_path (stat_ans a new_save_path) ::
     (if bool_decide (stat_ans a new_save_path = no_such_file_or_directory)
      then [ev_create_directories new_save_path (mkdir_ans a new_save_path)]
      else []).

(** The directory [p] is [save_path] or below it, at most [n] levels. *)
Fixpoint climbs_to (paths : path_ops) (save_path : string) (n : nat)
    (p : string) : bool :=
  bool_decide (p = save_path)
  || match n with
     | O => false
     | S n => climbs_to paths save_path n (parent_path paths p)
     end.

(** Every directory of a relocated file lies below [save_path], at most
    [n] levels deep. *)
Definition dirs_below (paths : path_ops) (f : file_storage)
    (save_path : string) (n : nat) : bool :=
  forallb (λ fe, fe_absolute fe || negb (has_parent_path paths (fe_path fe))
                 || climbs_to paths save_path n
                      (combine_path paths save_path
                         (parent_path paths (fe_path fe))))
          (entries f).

(** Path helpers for the examples: components are separated by [/]. *)
Fixpoint has_slash (s : string) : bool :=
  match s with
  | EmptyString => false
  | String c rest => bool_decide (c = "/"%char) || has_slash rest
  end.

Fixpoint strip_last (s : string) : string :=
  match s with
  | EmptyString => EmptyString
  | String c rest => if has_slash rest then String c (strip_last rest)
                     else EmptyString
  end.

Definition slash_paths : path_ops :=
  {| complete := λ p, p;
     combine_path := λ a b, (a ++ "/" ++ b)%string;
     has_parent_path := has_slash;
     parent_path := strip_last |}.

(** *** Disks and layouts for examples *)

Definition EXDEV : error_code := 18.

(** Four files in three directories; the destination directory is missing
    and can be created. *)
Definition four_files : file_storage :=
  mk_file_storage 4
    [mk_file_entry "a" 3 0 false; mk_file_entry "d/b" 2 3 false;
     mk_file_entry "d/c" 5 5 false; mk_file_entry "e/x/f" 1 10 false].

(** A layout whose only file was moved out to an absolute path. *)
Definition absolute_only : file_storage :=
  mk_file_storage 4 [mk_file_entry "/elsewhere/a" 3 0 true].

Definition fresh_destination : answers :=
  {| stat_ans := λ p, if bool_decide (p = "new"%string)
                      then no_such_file_or_directory else 0;
     mkdir_ans := λ _, 0;
     exists_ans := λ _, false;
     move_ans := λ _ _, 0;
     copy_ans := λ _ _, 0;
     remove_ans := λ _, 0;
     partfile_ans := λ _, 0 |}.

(** The destination is there, with ["d/b"] in it; nothing else is. *)
Definition one_file_present : answers :=
  {| stat_ans := λ p, if bool_decide (p = "new"%string ∨ p = "new/d/b"%string)
                      then 0 else no_such_file_or_directory;
     mkdir_ans := λ _, 0;
     exists_ans := λ p, bool_decide (p = "new/d/b"%string);
     move_ans := λ _ _, 0;
     copy_ans := λ _ _, 0;
     remove_ans := λ _, 0;
     partfile_ans := λ _, 0 |}.

(** No path below the destination may be looked at. *)
Definition destination_unreadable : answers :=
  {| stat_ans := λ _, permission_denied;
     mkdir_ans := λ _, permission_denied;
     exists_ans := λ _, false;
     move_ans := λ _ _, permission_denied;
     copy_ans := λ _ _, permission_denied;
     remove_ans := λ _, permission_denied;
     partfile_ans := λ _, permission_denied |}.

(** Moving ["d/c"] fails with the error [e]; every other call succeeds. *)
Definition move_fails (e : error_code) : answers :=
  {| stat_ans := λ p, if bool_decide (p = "new"%string)
                      then no_such_file_or_directory else 0;
     mkdir_ans := λ _, 0;
     exists_ans := λ _, false;
     move_ans := λ src _, if bool_decide (src = "old/d/c"%string) then e else 0;
     copy_ans := λ _ _, 0;
     remove_ans := λ _, 0;
     partfile_ans := λ _, 0 |}.

(** The destination directory is missing and may not be created. *)
Definition cannot_create : answers :=
  {| stat_ans := λ _, no_such_file_or_directory;
     mkdir_ans := λ _, permission_denied;
     exists_ans := λ _, false;
     move_ans := λ _ _, 0;
     copy_ans := λ _ _, 0;
     remove_ans := λ _, 0;
     partfile_ans := λ _, 0 |}.

(** *** A small layout for examples *)

(** Three files of 3, 0 and 5 bytes and a trailing empty file; pieces of
    4 bytes. *)
Definition example_layout : file_storage :=
  mk_file_storage 4
    [mk_file_entry "a" 3 0 false; mk_file_entry "empty" 0 3 false;
     mk_file_entry "dir/b" 5 3 false; mk_file_entry "dir/last" 0 8 false].

Definition no_storage_error : storage_error := mk_storage_error 0 (-1) op_none.

(** * Properties *)

(** ** Machine integers *)

Lemma to_int_id z : INT_MIN ≤ z ≤ INT_MAX → to_int z = z.
Proof.
  unfold to_int, INT_MIN, INT_MAX. intros Hz.
  rewrite Z.mod_small by lia. lia.
Qed.

Lemma to_size_t_id z : 0 ≤ z ≤ INT_MAX → to_size_t z = z.
Proof.
  unfold to_size_t, INT_MAX. intros Hz. apply Z.mod_small. lia.
Qed.

(** ** Buffer lists *)

Lemma total_length_app l k : total_length (l ++ k) = total_length l + total_length k.
Proof. induction l as [|b l IH]; simpl; lia. Qed.

Lemma total_length_nonneg l : Forall (λ b, 0 ≤ iov_len b) l → 0 ≤ total_length l.
Proof. induction 1; simpl; lia. Qed.

Lemma bufs_addrs_app l k : bufs_addrs (l ++ k) = bufs_addrs l ++ bufs_addrs k.
Proof. unfold bufs_addrs. by rewrite fmap_app, concat_app. Qed.

Lemma bufs_addrs_cons b l : bufs_addrs (b :: l) = iov_addrs b ++ bufs_addrs l.
Proof. reflexivity. Qed.

Lemma bufs_size_id l : int_sized l → bufs_size l = total_length l.
Proof.
  intros [Hpos Hmax]. pose proof (total_length_nonneg l Hpos).
  unfold bufs_size. rewrite to_size_t_id by lia.
  apply to_int_id. unfold INT_MIN. lia.
Qed.

Lemma int_sized_cons b l :
  int_sized (b :: l) → 0 ≤ iov_len b ≤ INT_MAX ∧ int_sized l.
Proof.
  intros [Hpos Hmax]. inversion_clear Hpos as [|? ? Hb Hl].
  pose proof (total_length_nonneg l Hl). simpl in Hmax.
  repeat split; try lia; done.
Qed.

(** *** The spec's [take] and [advance] *)

Section take_drop_bytes.
Implicit Types (l k : list iovec_t) (n : Z).

Lemma take_bytes_total l n :
  Forall (λ b, 0 ≤ iov_len b) l → 0 ≤ n ≤ total_length l →
  total_length (take_bytes l n) = n.
Proof.
  intros Hl. revert n. induction Hl as [|b l Hb Hl IH]; intros n Hn; simpl in *.
  - lia.
  - case_bool_decide; simpl; [lia|]. rewrite IH by lia. lia.
Qed.

Lemma drop_bytes_total l n :
  Forall (λ b, 0 ≤ iov_len b) l → 0 ≤ n ≤ total_length l →
  total_length (drop_bytes l n) = total_length l - n.
Proof.
  intros Hl. revert n. induction Hl as [|b l Hb Hl IH]; intros n Hn; simpl in *.
  - lia.
  - case_bool_decide; simpl; [lia|]. rewrite IH by lia. lia.
Qed.

Lemma take_bytes_nonneg l n :
  Forall (λ b, 0 ≤ iov_len b) l → 0 ≤ n →
  Forall (λ b, 0 ≤ iov_len b) (take_bytes l n).
Proof.
  intros Hl. revert n. induction Hl as [|b l Hb Hl IH]; intros n Hn; simpl.
  - constructor.
  - case_bool_decide.
    + repeat constructor. simpl. lia.
    + constructor; [done|]. apply IH. lia.
Qed.

Lemma drop_bytes_nonneg l n :
  Forall (λ b, 0 ≤ iov_len b) l → 0 ≤ n →
  Forall (λ b, 0 ≤ iov_len b) (drop_bytes l n).
Proof.
  intros Hl. revert n. induction Hl as [|b l Hb Hl IH]; intros n Hn; simpl.
  - constructor.
  - case_bool_decide.
    + constructor; [simpl; lia|done].
    + apply IH. lia.
Qed.

(** Taking and then advancing splits the covered addresses in two. *)
Lemma take_drop_bytes_addrs l n :
  Forall (λ b, 0 ≤ iov_len b) l → 0 ≤ n ≤ total_length l →
  bufs_addrs (take_bytes l n) ++ bufs_addrs (drop_bytes l n) = bufs_addrs l.
Proof.
  intros Hl. revert n. induction Hl as [|b l Hb Hl IH]; intros n Hn; simpl in *.
  - done.
  - case_bool_decide.
    + rewrite !bufs_addrs_cons. unfold iov_addrs at 1 2 3. simpl.
      change (bufs_addrs []) with (@nil Z). rewrite app_nil_r, app_assoc.
      f_equal. replace (iov_len b) with (n + (iov_len b - n)) at 2 by lia.
      by rewrite seqZ_app by lia.
    + rewrite !bufs_addrs_cons, <- app_assoc. f_equal. apply IH. lia.
Qed.

Lemma take_bytes_length l n :
  Forall (λ b, 0 ≤ iov_len b) l → 0 < n ≤ total_length l →
  (0 < length (take_bytes l n) ≤ length l)%nat.
Proof.
  intros Hl. revert n. induction Hl as [|b l Hb Hl IH]; intros n Hn; simpl in *.
  - lia.
  - case_bool_decide; simpl; [lia|].
    specialize (IH (n - iov_len b)). lia.
Qed.

(** What lies behind the live part of a cursor is never reached. *)
Lemma take_bytes_app l k n :
  Forall (λ b, 0 ≤ iov_len b) l → 0 < n ≤ total_length l →
  take_bytes (l ++ k) n = take_bytes l n.
Proof.
  intros Hl. revert n. induction Hl as [|b l Hb Hl IH]; intros n Hn; simpl in *.
  - lia.
  - case_bool_decide; [done|]. f_equal. apply IH. lia.
Qed.

Lemma drop_bytes_app l k n :
  Forall (λ b, 0 ≤ iov_len b) l → 0 < n ≤ total_length l →
  drop_bytes (l ++ k) n = drop_bytes l n ++ k.
Proof.
  intros Hl. revert n. induction Hl as [|b l Hb Hl IH]; intros n Hn; simpl in *.
  - lia.
  - case_bool_decide; [done|]. apply IH. lia.
Qed.
End take_drop_bytes.

(** *** The code against the spec's words *)

Lemma copy_bufs_from_take live tail i size bytes target :
  Forall (λ b, 0 ≤ iov_len b) live →
  0 ≤ size < bytes → bytes ≤ size + total_length live →
  size + total_length live ≤ INT_MAX →
  (i + length live ≤ length target)%nat →
  copy_bufs_from (live ++ tail) i size bytes target =
    Some ((i + length (take_bytes live (bytes - size)))%nat,
          take i target ++ take_bytes live (bytes - size)
            ++ drop (i + length (take_bytes live (bytes - size))) target).
Proof.
  intros Hlive. revert i size target.
  induction Hlive as [|b live Hb Hlive IH]; intros i size target Hsz Hle Hmax Hlen;
    simpl in *.
  - lia.
  - pose proof (total_length_nonneg _ Hlive) as Hr.
    rewrite decide_True by lia.
    rewrite (to_int_id (iov_len b)) by (unfold INT_MIN; lia).
    rewrite (to_int_id (size + iov_len b)) by (unfold INT_MIN; lia).
    case_bool_decide as Hstop.
    + rewrite bool_decide_true by lia. simpl.
      rewrite list_insert_insert_eq.
      rewrite (to_int_id (size + iov_len b - bytes)) by (unfold INT_MIN; lia).
      rewrite to_size_t_id by lia.
      rewrite insert_take_drop by lia.
      replace (iov_len b - (size + iov_len b - bytes)) with (bytes - size) by lia.
      by replace (i + 1)%nat with (S i) by lia.
    + rewrite bool_decide_false by lia.
      rewrite IH; [|lia|lia|lia|rewrite length_insert; lia].
      replace (bytes - (size + iov_len b)) with (bytes - size - iov_len b) by lia.
      set (tk := take_bytes live (bytes - size - iov_len b)). simpl.
      replace (i + S (length tk))%nat with (S (i + length tk)) by lia.
      rewrite (take_S_r _ i b) by (apply list_lookup_insert_eq; lia).
      rewrite take_insert_ge by lia.
      rewrite drop_insert_lt by lia.
      by rewrite <- app_assoc.
Qed.

(** [copy_bufs] on a cursor whose live part is [live]: the slice is
    [take_bytes live bytes], written over the head of [target]. *)
Lemma copy_bufs_take live tail bytes target :
  int_sized live → 0 < bytes ≤ total_length live →
  (length live ≤ length target)%nat →
  copy_bufs (live ++ tail) bytes target =
    Some (length (take_bytes live bytes),
          take_bytes live bytes ++ drop (length (take_bytes live bytes)) target).
Proof.
  intros [Hpos Hmax] Hb Hlen. unfold copy_bufs.
  rewrite copy_bufs_from_take by (simpl; first [done|lia]).
  by rewrite Z.sub_0_r.
Qed.

Lemma advance_bufs_from_drop live tail size bytes :
  Forall (λ b, 0 ≤ iov_len b) live → live ≠ [] →
  0 ≤ size ≤ bytes → bytes ≤ size + total_length live →
  size + total_length live ≤ INT_MAX →
  advance_bufs_from (live ++ tail) size bytes
    = Some (drop_bytes live (bytes - size) ++ tail).
Proof.
  intros Hlive. revert size.
  induction Hlive as [|b live Hb Hlive IH]; intros size Hne Hsz Hle Hmax;
    simpl in *; [done|].
  pose proof (total_length_nonneg _ Hlive) as Hr.
  rewrite (to_int_id (iov_len b)) by (unfold INT_MIN; lia).
  rewrite (to_int_id (size + iov_len b)) by (unfold INT_MIN; lia).
  case_bool_decide as Hstop.
  - rewrite bool_decide_true by lia.
    rewrite (to_int_id (size + iov_len b - bytes)) by (unfold INT_MIN; lia).
    rewrite to_size_t_id by lia. simpl.
    replace (iov_base b + iov_len b - (size + iov_len b - bytes))
      with (iov_base b + (bytes - size)) by lia.
    by replace (size + iov_len b - bytes)
      with (iov_len b - (bytes - size)) by lia.
  - rewrite bool_decide_false by lia.
    assert (live ≠ []) by (intros ->; simpl in *; lia).
    rewrite IH by (first [done|lia]).
    by replace (bytes - (size + iov_len b)) with (bytes - size - iov_len b) by lia.
Qed.

(** [advance_bufs] on such a cursor leaves [drop_bytes live bytes] live. *)
Lemma advance_bufs_drop live tail bytes :
  int_sized live → live ≠ [] → 0 ≤ bytes ≤ total_length live →
  advance_bufs (live ++ tail) bytes = Some (drop_bytes live bytes ++ tail).
Proof.
  intros [Hpos Hmax] Hne Hb. unfold advance_bufs.
  rewrite advance_bufs_from_drop by (first [done|lia]).
  by rewrite Z.sub_0_r.
Qed.

(** The shape of a slice: whole leading elements, then the element that
    straddles the boundary, cut to what is left of the [n] bytes. *)
Lemma take_bytes_shape l n :
  Forall (λ b, 0 ≤ iov_len b) l → 0 < n ≤ total_length l →
  ∃ k b m, l !! k = Some b ∧ 0 < m ≤ iov_len b ∧
    take_bytes l n = take k l ++ [mk_iovec (iov_base b) m].
Proof.
  intros Hl. revert n. induction Hl as [|b l Hb Hl IH]; intros n Hn; simpl in *.
  - lia.
  - case_bool_decide.
    + exists 0%nat, b, n. simpl. repeat split; first [done|lia].
    + destruct (IH (n - iov_len b)) as (k & b' & m & Hk & Hm & ->); [lia|].
      exists (S k), b', m. simpl. repeat split; first [done|lia].
Qed.

(** C2: for a buffer list [B] and [0 < n ≤ total_length B], [copy_bufs]
    produces in [target] a list of total length exactly [n]; the count it
    returns is the number of elements it wrote (the elements before it are
    those of [B], the last one cut at the boundary, and [target] is
    untouched from it on); and the bytes covered by that list followed by
    the bytes covered by [advance_bufs B n] are the bytes of [B], in order. *)
Theorem copy_bufs_advance_bufs_partition (B target : list iovec_t) (n : Z) :
  int_sized B → 0 < n ≤ total_length B → (length B ≤ length target)%nat →
  ∃ (cnt : nat) (target' rest : list iovec_t),
    copy_bufs B n target = Some (cnt, target') ∧
    advance_bufs B n = Some rest ∧
    total_length (take cnt target') = n ∧
    (0 < cnt ≤ length B)%nat ∧
    length target' = length target ∧
    take (cnt - 1) target' = take (cnt - 1) B ∧
    (∃ b m, B !! (cnt - 1)%nat = Some b ∧ 0 < m ≤ iov_len b ∧
            target' !! (cnt - 1)%nat = Some (mk_iovec (iov_base b) m)) ∧
    drop cnt target' = drop cnt target ∧
    ∀ mem, bufs_bytes mem (take cnt target') ++ bufs_bytes mem rest
           = bufs_bytes mem B.
Proof.
  intros HB Hn Hlen. pose proof HB as [Hpos Hmax].
  assert (B ≠ []) as Hne by (intros ->; simpl in *; lia).
  pose proof (take_bytes_length B n Hpos Hn) as Htl.
  destruct (take_bytes_shape B n Hpos Hn) as (k & b & m & Hk & Hm & Hshape).
  assert (length (take_bytes B n) = S k) as Hcnt.
  { rewrite Hshape, length_app, length_take. simpl.
    apply lookup_lt_Some in Hk. lia. }
  exists (length (take_bytes B n)),
    (take_bytes B n ++ drop (length (take_bytes B n)) target),
    (drop_bytes B n).
  split; [rewrite <- (app_nil_r B) at 1; by apply copy_bufs_take|].
  split.
  { rewrite <- (app_nil_r B) at 1. rewrite advance_bufs_drop by (first [done|lia]).
    by rewrite app_nil_r. }
  rewrite take_app_length.
  split; [apply take_bytes_total; first [done|lia]|].
  split; [lia|].
  split; [rewrite length_app, length_drop; lia|].
  split.
  { rewrite take_app_le by lia. rewrite Hcnt, Hshape. simpl.
    rewrite Nat.sub_0_r. apply lookup_lt_Some in Hk.
    rewrite take_app_le by (rewrite length_take; lia).
    rewrite take_take. f_equal. lia. }
  split.
  { exists b, m. rewrite Hcnt. simpl. rewrite Nat.sub_0_r.
    repeat split; try done; try lia.
    rewrite lookup_app_l by lia. rewrite Hshape.
    apply lookup_lt_Some in Hk.
    rewrite lookup_app_r by (rewrite length_take; lia).
    rewrite length_take. by replace (k - k `min` length B)%nat with 0%nat by lia. }
  split; [by rewrite drop_app_length|].
  intros mem. unfold bufs_bytes. rewrite <- fmap_app. f_equal.
  apply take_drop_bytes_addrs; first [done|lia].
Qed.

Lemma copy_bufs_advance_bufs_partition_witness :
  ∃ (cnt : nat) (target' rest : list iovec_t),
    copy_bufs [mk_iovec 100 4; mk_iovec 200 6] 7 [mk_iovec 0 0; mk_iovec 0 0]
      = Some (cnt, target') ∧
    advance_bufs [mk_iovec 100 4; mk_iovec 200 6] 7 = Some rest ∧
    total_length (take cnt target') = 7 ∧
    (0 < cnt ≤ 2)%nat ∧
    length target' = 2%nat ∧
    take (cnt - 1) target' = take (cnt - 1) [mk_iovec 100 4; mk_iovec 200 6] ∧
    (∃ b m, [mk_iovec 100 4; mk_iovec 200 6] !! (cnt - 1)%nat = Some b ∧
            0 < m ≤ iov_len b ∧
            target' !! (cnt - 1)%nat = Some (mk_iovec (iov_base b) m)) ∧
    drop cnt target' = drop cnt [mk_iovec 0 0; mk_iovec 0 0] ∧
    ∀ mem, bufs_bytes mem (take cnt target') ++ bufs_bytes mem rest
           = bufs_bytes mem [mk_iovec 100 4; mk_iovec 200 6].
Proof.
  apply (copy_bufs_advance_bufs_partition
           [mk_iovec 100 4; mk_iovec 200 6] [mk_iovec 0 0; mk_iovec 0 0] 7).
  - split; [repeat constructor; simpl; lia | simpl; unfold INT_MAX; lia].
  - simpl. lia.
  - simpl. lia.
Defined.

(** ** The file layout *)

Section layout.
Implicit Types (es : list file_entry) (e : file_entry) (base off : Z).

Lemma sum_sizes_app es1 es2 : sum_sizes (es1 ++ es2) = sum_sizes es1 + sum_sizes es2.
Proof. induction es1 as [|e es1 IH]; simpl; lia. Qed.

Lemma wf_entries_cons base e es :
  wf_entries base (e :: es) = true ↔
  fe_offset e = base ∧ 0 ≤ fe_size e ∧ wf_entries (base + fe_size e) es = true.
Proof.
  simpl. rewrite !andb_true_iff, !bool_decide_eq_true. tauto.
Qed.

Lemma wf_entries_sum_nonneg base es :
  wf_entries base es = true → 0 ≤ sum_sizes es.
Proof.
  revert base. induction es as [|e es IH]; intros base Hwf; simpl; [lia|].
  apply wf_entries_cons in Hwf as (_ & ? & Hwf). apply IH in Hwf. lia.
Qed.

Lemma wf_entries_take base es i :
  wf_entries base es = true → wf_entries base (take i es) = true.
Proof.
  revert base i. induction es as [|e es IH]; intros base [|i] Hwf; try done.
  apply wf_entries_cons in Hwf as (? & ? & Hwf).
  change (take (S i) (e :: es)) with (e :: take i es).
  apply wf_entries_cons. eauto.
Qed.

(** The offset of a file is the sum of the sizes before it. *)
Lemma wf_entries_lookup base es i e :
  wf_entries base es = true → es !! i = Some e →
  0 ≤ fe_size e ∧ fe_offset e = base + sum_sizes (take i es).
Proof.
  revert base i. induction es as [|e0 es IH]; intros base [|i] Hwf Hi;
    simplify_eq/=; apply wf_entries_cons in Hwf as (? & ? & Hwf).
  - lia.
  - destruct (IH _ _ Hwf Hi) as [? ->]. lia.
Qed.

Lemma wf_entries_next base es i e e' :
  wf_entries base es = true → es !! i = Some e → es !! S i = Some e' →
  fe_offset e' = fe_offset e + fe_size e.
Proof.
  intros Hwf Hi Hi'.
  destruct (wf_entries_lookup _ _ _ _ Hwf Hi) as [_ ->].
  destruct (wf_entries_lookup _ _ _ _ Hwf Hi') as [_ ->].
  rewrite (take_S_r _ _ _ Hi), sum_sizes_app. simpl. lia.
Qed.

Lemma wf_entries_last base es i e :
  wf_entries base es = true → es !! i = Some e → length es = S i →
  fe_offset e + fe_size e = base + sum_sizes es.
Proof.
  intros Hwf Hi Hlen.
  destruct (wf_entries_lookup _ _ _ _ Hwf Hi) as [_ ->].
  replace (sum_sizes es) with (sum_sizes (take (S i) es))
    by (by rewrite take_ge by lia).
  rewrite (take_S_r _ _ _ Hi), sum_sizes_app. simpl. lia.
Qed.

(** Every file lies inside the virtual address space. *)
Lemma wf_entries_within base es i e :
  wf_entries base es = true → es !! i = Some e →
  base ≤ fe_offset e ∧ fe_offset e + fe_size e ≤ base + sum_sizes es.
Proof.
  intros Hwf Hi.
  destruct (wf_entries_lookup _ _ _ _ Hwf Hi) as [? Hoff].
  pose proof (wf_entries_sum_nonneg _ _ (wf_entries_take _ _ i Hwf)).
  replace (sum_sizes es) with (sum_sizes (take (S i) es ++ drop (S i) es))
    by (by rewrite take_drop).
  rewrite sum_sizes_app, (take_S_r _ _ _ Hi), sum_sizes_app. simpl.
  assert (0 ≤ sum_sizes (drop (S i) es)); [|lia].
  clear -Hwf. revert base i Hwf.
  induction es as [|e0 es IH]; intros base i Hwf; [by destruct i|].
  apply wf_entries_cons in Hwf as (? & ? & Hwf).
  destruct i as [|i]; simpl.
  - rewrite drop_0. by eapply wf_entries_sum_nonneg.
  - by eapply IH.
Qed.

Lemma find_file_Some es i0 off j :
  find_file es i0 off = Some j →
  ∃ k e, j = (i0 + k)%nat ∧ es !! k = Some e ∧
         fe_offset e ≤ off < fe_offset e + fe_size e.
Proof.
  revert i0. induction es as [|e0 es IH]; intros i0 Hfind; simpl in *; [done|].
  case_bool_decide.
  - simplify_eq. exists 0%nat, e0. split; [lia|done].
  - destruct (IH _ Hfind) as (k & e & -> & Hk & He).
    exists (S k), e. split; [lia|done].
Qed.

(** No two files hold the same offset: the file that holds it is the one
    [find_file] returns. *)
Lemma find_file_unique base es i0 off k e :
  wf_entries base es = true → es !! k = Some e →
  fe_offset e ≤ off < fe_offset e + fe_size e →
  find_file es i0 off = Some (i0 + k)%nat.
Proof.
  revert base i0 k. induction es as [|e0 es IH]; intros base i0 k Hwf Hk He;
    [done|].
  pose proof Hwf as Hwf0. apply wf_entries_cons in Hwf as (Hoff & Hsz & Hwf).
  destruct k as [|k]; simplify_eq/=.
  - rewrite bool_decide_true by done. f_equal. lia.
  - destruct (wf_entries_within _ _ _ _ Hwf Hk) as [Hlow _].
    rewrite bool_decide_false by lia.
    rewrite (IH _ (S i0) k Hwf Hk He). f_equal. lia.
Qed.

Lemma find_file_exists base es i0 off :
  wf_entries base es = true → base ≤ off < base + sum_sizes es →
  is_Some (find_file es i0 off).
Proof.
  revert base i0. induction es as [|e0 es IH]; intros base i0 Hwf Hoff;
    simpl in *; [lia|].
  apply wf_entries_cons in Hwf as (Hb & Hsz & Hwf).
  case_bool_decide; [done|]. eapply IH; [done|lia].
Qed.

(** Removing the zero-length files *)

Lemma sum_sizes_filter es :
  sum_sizes (filter (λ e, nonempty_file e = true) es) = sum_sizes es.
Proof.
  induction es as [|e es IH]; [done|].
  rewrite filter_cons. unfold nonempty_file at 1.
  destruct (decide _) as [Hne|Hne]; simpl; rewrite IH; [done|].
  case_bool_decide; [done|]. lia.
Qed.

Lemma wf_entries_filter base es :
  wf_entries base es = true →
  wf_entries base (filter (λ e, nonempty_file e = true) es) = true.
Proof.
  revert base. induction es as [|e es IH]; intros base Hwf; [done|].
  apply wf_entries_cons in Hwf as (Hb & Hsz & Hwf).
  rewrite filter_cons. unfold nonempty_file at 1.
  destruct (decide _) as [Hne|Hne].
  - apply wf_entries_cons. eauto.
  - case_bool_decide; [done|].
    replace (fe_size e) with 0 in Hwf by lia. rewrite Z.add_0_r in Hwf. eauto.
Qed.

Lemma filter_lookup_renumber es i e :
  es !! i = Some e → nonempty_file e = true →
  filter (λ e, nonempty_file e = true) es
    !! length (filter (λ e, nonempty_file e = true) (take i es)) = Some e.
Proof.
  intros Hi He.
  assert (filter (λ e, nonempty_file e = true) es
          = filter (λ e, nonempty_file e = true) (take i es)
            ++ e :: filter (λ e, nonempty_file e = true) (drop (S i) es)) as ->.
  { rewrite <- (take_drop_middle _ _ _ Hi) at 1.
    by rewrite filter_app, filter_cons_True by done. }
  by rewrite lookup_app_r, Nat.sub_diag by lia.
Qed.
End layout.

(** ** The vectored I/O engine *)

Lemma drop_bytes_length l n : (length (drop_bytes l n) ≤ length l)%nat.
Proof.
  revert n. induction l as [|b l IH]; intros n; simpl; [lia|].
  case_bool_decide; simpl; [lia|]. specialize (IH (n - iov_len b)). lia.
Qed.

Lemma bufs_addrs_empty l :
  Forall (λ b, 0 ≤ iov_len b) l → total_length l = 0 → bufs_addrs l = [].
Proof.
  induction 1 as [|b l Hb Hl IH]; intros Htot; simpl in *; [done|].
  pose proof (total_length_nonneg _ Hl).
  rewrite bufs_addrs_cons, IH by lia. unfold iov_addrs.
  by rewrite seqZ_nil by lia.
Qed.

Section file_steps.
Context (files : file_storage).
Hypothesis Hwf : wf_layout files = true.

Lemma file_bytes_in_min i e fo bl :
  entries files !! i = Some e → 0 ≤ fo ≤ fe_size e → 0 < bl ≤ INT_MAX →
  file_bytes_in files i fo bl = Some (Z.min bl (fe_size e - fo)).
Proof using Type.
  intros Hi Hfo Hbl. unfold file_bytes_in, file_size. rewrite Hi. simpl.
  f_equal. case_bool_decide; [|lia].
  rewrite to_int_id by (unfold INT_MIN; lia). lia.
Qed.

(** The inner loop stops at the file that holds the current global
    offset, or runs off the layout when that offset is its end. *)
Lemma skip_empty_files_spec n bl i e fo :
  entries files !! i = Some e → 0 ≤ fo ≤ fe_size e → 0 < bl ≤ INT_MAX →
  (num_files files ≤ n + i)%nat →
  (total_size files ≤ fe_offset e + fo ∧
   skip_empty_files n files bl i fo (Z.min bl (fe_size e - fo)) = Ok PastEnd)
  ∨ (∃ j e', entries files !! j = Some e' ∧
       fe_offset e' ≤ fe_offset e + fo < fe_offset e' + fe_size e' ∧
       skip_empty_files n files bl i fo (Z.min bl (fe_size e - fo))
         = Ok (AtFile j (fe_offset e + fo - fe_offset e')
                 (Z.min bl (fe_offset e' + fe_size e' - (fe_offset e + fo))))).
Proof using Hwf.
  revert i e fo. induction n as [|n IH]; intros i e fo Hi Hfo Hbl Hn.
  - pose proof (lookup_lt_Some _ _ _ Hi). unfold num_files in Hn.
    destruct (decide (fo = fe_size e)) as [->|Hne].
    + lia.
    + right. exists i, e. split; [done|]. split; [lia|].
      simpl. rewrite bool_decide_false by lia.
      do 2 f_equal; lia.
  - destruct (decide (fo = fe_size e)) as [->|Hne].
    + simpl. rewrite bool_decide_true by lia.
      unfold end_file, num_files in *.
      case_bool_decide as Hend.
      * left. split; [|done]. unfold total_size.
        pose proof (lookup_lt_Some _ _ _ Hi).
        rewrite (wf_entries_last 0 _ i e) by (first [done|lia]). lia.
      * destruct (lookup_lt_is_Some_2 (entries files) (S i)) as [e' Hi'];
          [lia|].
        destruct (wf_entries_lookup _ _ _ _ Hwf Hi') as [Hsz' _].
        pose proof (wf_entries_next _ _ _ _ _ Hwf Hi Hi') as Hoff'.
        rewrite (file_bytes_in_min (S i) e') by (first [done|lia]).
        destruct (IH (S i) e' 0) as [[Hpast Hskip]|(j & e'' & Hj & Hin & Hskip)];
          try done; try lia.
        -- left. split; [lia|done].
        -- right. exists j, e''. split; [done|]. split; [lia|].
           rewrite Hskip. do 2 f_equal; lia.
    + right. exists i, e. split; [done|]. split; [lia|].
      simpl. rewrite bool_decide_false by lia.
      do 2 f_equal; lia.
Qed.
End file_steps.

Section iteration.
Context {S : Type} (op : fileop S) (files : file_storage).
Hypothesis Hwf : wf_layout files = true.
Implicit Types (st : rw_state S) (live : list iovec_t).

Lemma rw_inv_int_sized size start live st :
  rw_inv files size start live st → int_sized live.
Proof using Type.
  intros [_ Hnn Htot [? ?] _ _]. split; [done|lia].
Qed.

(** One turn of the outer loop: it returns [size] when the current global
    offset is the end of the layout, and otherwise asks the file that
    holds this offset for the next bytes of [live]. *)
Lemma rw_iteration_spec size start live st :
  rw_inv files size start live st → 0 < rw_bytes_left st →
  let p := start + (size - rw_bytes_left st) in
  (total_size files ≤ p ∧
   rw_iteration op files size st = Ok (inl (size, rw_ec st, rw_op st)))
  ∨ (∃ j e tmp',
       entries files !! j = Some e ∧
       fe_offset e ≤ p < fe_offset e + fe_size e ∧
       length tmp' = length (rw_tmp_buf st) ∧
       rw_iteration op files size st =
         rw_after_call size st j (p - fe_offset e) tmp'
           (op j (p - fe_offset e)
              (take_bytes live
                 (Z.min (rw_bytes_left st) (fe_offset e + fe_size e - p)))
              (rw_ec st) (rw_op st))).
Proof using Hwf.
  intros Hinv Hbl p. pose proof (rw_inv_int_sized _ _ _ _ Hinv) as Hsized.
  destruct Hinv as [[tail Hcb] Hnn Htot [Hbl0 Hmax] Htmp (e0 & Hi & Hfo & Hpos)].
  fold p in Hpos. unfold rw_iteration.
  rewrite (file_bytes_in_min files _ e0) by (first [done|lia]).
  destruct (skip_empty_files_spec files Hwf (num_files files)
              (rw_bytes_left st) _ e0 _ Hi Hfo)
    as [[Hpast Hskip]|(j & e & Hj & Hin & Hskip)]; try lia.
  - left. rewrite Hskip. split; [lia|done].
  - right. rewrite Hskip, Hpos. rewrite Hpos in Hin.
    set (n := Z.min (rw_bytes_left st) (fe_offset e + fe_size e - p)).
    rewrite Hcb, copy_bufs_take by (first [done|lia]).
    exists j, e,
      (take_bytes live n ++ drop (length (take_bytes live n)) (rw_tmp_buf st)).
    split; [done|]. split; [done|].
    assert (0 < length (take_bytes live n) ≤ length live)%nat
      by (apply take_bytes_length; [done|lia]).
    split; [rewrite length_app, length_drop; lia|].
    rewrite take_app_length. unfold rw_after_call. fold n.
    destruct (op j (p - fe_offset e) (take_bytes live n) (rw_ec st) (rw_op st))
      as [[r ec'] s'].
    cbv beta iota. rewrite Hcb.
    by rewrite (bool_decide_true (n > 0)) by lia.
Qed.

(** After an answer without error, of no more bytes than requested. *)
Lemma rw_after_call_ok size start live st j e tmp' r ec' s' :
  rw_inv files size start live st → 0 < rw_bytes_left st →
  let p := start + (size - rw_bytes_left st) in
  entries files !! j = Some e →
  fe_offset e ≤ p < fe_offset e + fe_size e →
  length tmp' = length (rw_tmp_buf st) →
  is_error ec' = false →
  0 ≤ r ≤ Z.min (rw_bytes_left st) (fe_offset e + fe_size e - p) →
  ∃ st',
    rw_after_call size st j (p - fe_offset e) tmp' (r, ec', s')
      = (if bool_decide (r = 0)
         then Ok (inl (size - rw_bytes_left st, set_file (Z.of_nat j) ec', s'))
         else Ok (inr st')) ∧
    rw_inv files size start (drop_bytes live r) st' ∧
    rw_bytes_left st' = rw_bytes_left st - r ∧
    rw_ec st' = ec' ∧ rw_op st' = s'.
Proof using Type.
  intros Hinv Hbl p Hj Hin Htmp' Hok Hr.
  pose proof (rw_inv_int_sized _ _ _ _ Hinv) as Hsized.
  destruct Hinv as [[tail Hcb] Hnn Htot [Hbl0 Hmax] Htmp (e0 & Hi & Hfo & Hpos)].
  assert (live ≠ []) as Hne by (intros ->; simpl in *; lia).
  exists (mk_rw_state j (p - fe_offset e + r) (rw_bytes_left st - r)
            (drop_bytes live r ++ tail) tmp' ec' s').
  split.
  { unfold rw_after_call. rewrite Hok, Hcb.
    rewrite advance_bufs_drop by (first [done|lia]).
    rewrite (to_int_id (rw_bytes_left st - r)) by (unfold INT_MIN; lia).
    case_bool_decide as Hr0; [|done].
    subst r. rewrite Z.sub_0_r.
    by rewrite to_int_id by (unfold INT_MIN; lia). }
  split; [|done].
  split; simpl.
  - by eexists.
  - apply drop_bytes_nonneg; [done|lia].
  - rewrite drop_bytes_total by (first [done|lia]). lia.
  - lia.
  - pose proof (drop_bytes_length live r). lia.
  - exists e. split; [done|]. fold p in Hpos. lia.
Qed.
End iteration.

Lemma take_bytes_int_sized live n :
  int_sized live → 0 ≤ n ≤ total_length live → int_sized (take_bytes live n).
Proof.
  intros [Hnn Hmax] Hn. split.
  - apply take_bytes_nonneg; [done|lia].
  - rewrite take_bytes_total by done. lia.
Qed.

Section echo_run.
Context {S : Type} (op : fileop S) (files : file_storage).
Hypothesis Hwf : wf_layout files = true.
Hypothesis Hecho : full_echo op.

(** With a file-op that transfers every request in full, the loop ends
    with [size], after a chain of calls that stops only when nothing is
    left to transfer or at the end of the layout. *)
Lemma rw_loop_echo size start fuel :
  ∀ live (st : rw_state (S * list file_op_call)),
    rw_inv files size start live st →
    is_error (rw_ec st) = false →
    (Z.to_nat (rw_bytes_left st) ≤ fuel)%nat →
    ∃ ec' s' log' p' live',
      rw_loop fuel (traced op) files size st
        = Ok (size, ec', (s', snd (rw_op st) ++ log')) ∧
      is_error ec' = false ∧
      call_chain files (start + (size - rw_bytes_left st)) live log' p' live' ∧
      (total_length live' = 0 ∨ total_size files ≤ p').
Proof using Hwf Hecho.
  induction fuel as [|fuel IH]; intros live st Hinv Hec Hfuel.
  - pose proof (inv_bounds _ _ _ _ _ Hinv) as [? ?].
    exists (rw_ec st), (fst (rw_op st)), [], (start + (size - rw_bytes_left st)), live.
    simpl. rewrite bool_decide_false by lia. rewrite app_nil_r.
    destruct (rw_op st). repeat split; try done; [constructor|].
    left. rewrite (inv_total _ _ _ _ _ Hinv). lia.
  - simpl. case_bool_decide as Hbl.
    2:{ pose proof (inv_bounds _ _ _ _ _ Hinv) as [? ?].
        exists (rw_ec st), (fst (rw_op st)), [],
          (start + (size - rw_bytes_left st)), live.
        rewrite app_nil_r. destruct (rw_op st).
        repeat split; try done; [constructor|].
        left. rewrite (inv_total _ _ _ _ _ Hinv). lia. }
    pose proof (rw_inv_int_sized _ _ _ _ _ Hinv) as Hsized.
    pose proof (inv_total _ _ _ _ _ Hinv) as Htot.
    destruct (rw_iteration_spec (traced op) files Hwf size start live st Hinv)
      as [[Hpast ->]|(j & e & tmp' & Hj & Hin & Htmp' & ->)]; [lia|..].
    { exists (rw_ec st), (fst (rw_op st)), [],
        (start + (size - rw_bytes_left st)), live.
      rewrite app_nil_r. destruct (rw_op st).
      repeat split; try done; [constructor|]. by right. }
    set (n := Z.min (rw_bytes_left st)
                (fe_offset e + fe_size e - (start + (size - rw_bytes_left st)))).
    assert (0 < n ≤ total_length live) as Hn by lia.
    unfold traced at 1.
    destruct (Hecho j (start + (size - rw_bytes_left st) - fe_offset e)
                (take_bytes live n) (rw_ec st)
                (fst (rw_op st)) Hec) as (ec' & s' & -> & Hec').
    rewrite bufs_size_id by (apply take_bytes_int_sized; [done|lia]).
    rewrite take_bytes_total by (first [apply Hsized|lia]).
    set (c := mk_call j (start + (size - rw_bytes_left st) - fe_offset e)
                (take_bytes live n) n ec').
    destruct (rw_after_call_ok files size start live st j e tmp' n ec'
                (s', snd (rw_op st) ++ [c]) Hinv)
      as (st' & -> & Hinv' & Hbl' & Hec'' & Hop'); try done; try lia.
    rewrite bool_decide_false by lia.
    destruct (IH _ st' Hinv') as (ec'' & s'' & log' & p' & live' & -> & ? & Hchain & Hend).
    { by rewrite Hec''. }
    { lia. }
    exists ec'', s'', (c :: log'), p', live'.
    rewrite Hop'. simpl. rewrite <- app_assoc. simpl.
    repeat split; try done.
    eapply (chain_cons _ _ _ c _ _ _ e n); try done; try (subst n; lia).
    rewrite Hbl' in Hchain.
    by replace (start + (size - (rw_bytes_left st - n)))
      with (start + (size - rw_bytes_left st) + n) in Hchain by lia.
Qed.
End echo_run.

(** *** What a chain of full transfers covers *)

Section call_chain.
Context (files : file_storage).
Hypothesis Hwf : wf_layout files = true.

Lemma call_chain_sum p live log p' live' :
  call_chain files p live log p' live' →
  Forall (λ b, 0 ≤ iov_len b) live →
  sum_ret log = p' - p ∧ p ≤ p' ∧
  total_length live' = total_length live - (p' - p) ∧
  Forall (λ b, 0 ≤ iov_len b) live'.
Proof using Type.
  induction 1 as [|p live c log p' live' e n He Hin Hoff Hn Hpos Hbufs Hret _ IH];
    intros Hnn; simpl.
  - repeat split; first [done|lia].
  - destruct IH as (Hsum & Hle & Htot & Hnn'); [apply drop_bytes_nonneg; [done|lia]|].
    rewrite drop_bytes_total in Htot by (first [done|lia]).
    repeat split; first [done|lia].
Qed.

(** A chain stays inside the layout. *)
Lemma call_chain_within p live log p' live' :
  call_chain files p live log p' live' → p ≤ total_size files →
  p' ≤ total_size files.
Proof using Hwf.
  induction 1 as [|p live c log p' live' e n He Hin Hoff Hn Hpos Hbufs Hret _ IH];
    intros Hp; [done|].
  apply IH. destruct (wf_entries_within _ _ _ _ Hwf He) as [_ Hend].
  unfold total_size. lia.
Qed.

(** The buffers of the calls, one after the other, and what is left
    cover the addresses of the request, in order. *)
Lemma call_chain_addrs p live log p' live' :
  call_chain files p live log p' live' →
  Forall (λ b, 0 ≤ iov_len b) live →
  bufs_addrs (concat (call_bufs <$> log)) ++ bufs_addrs live' = bufs_addrs live.
Proof using Type.
  induction 1 as [|p live c log p' live' e n He Hin Hoff Hn Hpos Hbufs Hret _ IH];
    intros Hnn; [done|].
  rewrite fmap_cons. change (concat (?x :: ?l)) with (x ++ concat l).
  rewrite bufs_addrs_app, <- app_assoc, IH, Hbufs
    by (apply drop_bytes_nonneg; [done|lia]).
  apply take_drop_bytes_addrs; [done|lia].
Qed.

(** Every call goes to a file of the layout, at the offset within the
    file that continues the request where the calls before it ended,
    and stays within the file. *)
Lemma call_chain_position p live log p' live' :
  call_chain files p live log p' live' →
  Forall (λ b, 0 ≤ iov_len b) live →
  ∀ pre c post, log = pre ++ c :: post →
    ∃ e, entries files !! call_file c = Some e ∧
         fe_offset e + call_offset c = p + sum_ret pre ∧
         0 ≤ call_offset c ∧
         call_offset c + call_ret c ≤ fe_size e ∧
         0 < call_ret c ∧
         total_length (call_bufs c) = call_ret c.
Proof using Type.
  induction 1 as [|p live c0 log p' live' e n He Hin Hoff Hn Hpos Hbufs Hret _ IH];
    intros Hnn pre c post Hlog.
  - by destruct pre.
  - assert (0 ≤ n) as Hn0 by lia.
    destruct pre as [|c1 pre]; simplify_eq/=.
    + exists e. rewrite Hbufs, take_bytes_total by (first [done|lia]).
      repeat split; first [done|lia].
    + destruct (IH (drop_bytes_nonneg _ _ Hnn Hn0) pre c post eq_refl)
        as (e' & ? & ? & ? & ? & ? & ?).
      exists e'. repeat split; first [done|lia].
Qed.
End call_chain.

Lemma rw_loop_done {S} fuel (op : fileop S) files size st :
  rw_bytes_left st ≤ 0 → rw_loop fuel op files size st = Ok (size, rw_ec st, rw_op st).
Proof. intros Hbl. destruct fuel; simpl; by rewrite bool_decide_false by lia. Qed.

(** The first [copy_bufs] of [readwritev], for a request of no bytes. *)
Lemma copy_bufs_zero b bufs target :
  0 ≤ iov_len b ≤ INT_MAX → target ≠ [] →
  is_Some (copy_bufs (b :: bufs) 0 target).
Proof.
  intros Hb Htarget. unfold copy_bufs. simpl.
  destruct target; [done|]. rewrite decide_True by (simpl; lia).
  rewrite Z.add_0_l, !(to_int_id (iov_len b)) by (unfold INT_MIN; lia).
  by rewrite bool_decide_true by lia.
Qed.

(** The loop variables at the first turn of the outer loop. *)
Lemma readwritev_start {S} (op : fileop S) uninit files bufs piece offset ec s fuel :
  wf_layout files = true → bufs ≠ [] → int_sized bufs →
  0 ≤ piece * piece_length files + offset < total_size files →
  0 < total_length bufs →
  ∃ st, readwritev op uninit files bufs piece offset ec s fuel
          = rw_loop fuel op files (total_length bufs) st ∧
        rw_inv files (total_length bufs) (piece * piece_length files + offset)
          (take_bytes bufs (total_length bufs)) st ∧
        rw_bytes_left st = total_length bufs ∧ rw_ec st = ec ∧ rw_op st = s.
Proof.
  intros Hwf Hne Hsized Hoff Hsize. pose proof Hsized as [Hnn Hmax].
  unfold readwritev. rewrite bufs_size_id by done.
  unfold file_index_at_offset, file_offset.
  destruct (find_file_exists 0 (entries files) 0
              (piece * piece_length files + offset) Hwf) as [j Hfind];
    [unfold total_size in Hoff; lia|].
  rewrite Hfind. apply find_file_Some in Hfind as (k & e & -> & Hk & Hin).
  simpl. rewrite Hk. simpl.
  replace (copy_bufs bufs) with (copy_bufs (bufs ++ []))
    by (by rewrite app_nil_r).
  rewrite copy_bufs_take by (first [done|rewrite ?length_replicate; lia]).
  eexists. split; [done|].
  pose proof (take_bytes_length bufs (total_length bufs) Hnn ltac:(lia)).
  split; [|done]. split; simpl.
  - by eexists.
  - apply take_bytes_nonneg; [done|lia].
  - apply take_bytes_total; [done|lia].
  - lia.
  - rewrite length_replicate. lia.
  - exists e. split; [done|]. lia.
Qed.

Lemma echo_op_full_echo : full_echo echo_op.
Proof. intros j fo bufs e s He. by exists e, s. Qed.

(** A request of at least one byte against a file-op that transfers every
    request in full: the result is the requested size, whether or not the
    request fits in the layout, and the calls form a chain that stops only
    when nothing is left or at the end of the layout. *)
Lemma readwritev_echo_run {S} (op : fileop S) uninit files bufs piece offset
    ec s fuel :
  wf_layout files = true → full_echo op → is_error ec = false →
  bufs ≠ [] → int_sized bufs →
  0 ≤ piece * piece_length files + offset < total_size files →
  0 < total_length bufs →
  (Z.to_nat (total_length bufs) ≤ fuel)%nat →
  ∃ ec' s' log p' live',
    readwritev (traced op) uninit files bufs piece offset ec (s, []) fuel
      = Ok (total_length bufs, ec', (s', log)) ∧
    is_error ec' = false ∧
    call_chain files (piece * piece_length files + offset)
      (take_bytes bufs (total_length bufs)) log p' live' ∧
    (total_length live' = 0 ∨ total_size files ≤ p').
Proof.
  intros Hwf Hecho Hec Hne Hsized Hoff Hsize Hfuel.
  destruct (readwritev_start (traced op) uninit files bufs piece offset ec
              (s, []) fuel) as (st & -> & Hinv & Hbl & Hec0 & Hop); try done.
  destruct (rw_loop_echo op files Hwf Hecho (total_length bufs)
              (piece * piece_length files + offset) fuel _ st Hinv)
    as (ec' & s' & log & p' & live' & -> & Hec' & Hchain & Hend).
  { by rewrite Hec0. }
  { by rewrite Hbl. }
  exists ec', s', log, p', live'. rewrite Hop. simpl.
  repeat split; try done.
  rewrite Hbl in Hchain.
  by replace (piece * piece_length files + offset
              + (total_length bufs - total_length bufs))
    with (piece * piece_length files + offset) in Hchain by lia.
Qed.

Lemma take_bytes_all_addrs bufs :
  Forall (λ b, 0 ≤ iov_len b) bufs →
  bufs_addrs (take_bytes bufs (total_length bufs)) = bufs_addrs bufs.
Proof.
  intros Hnn. pose proof (total_length_nonneg _ Hnn).
  pose proof (take_drop_bytes_addrs bufs (total_length bufs) Hnn) as Hsplit.
  rewrite <- Hsplit by lia.
  rewrite (bufs_addrs_empty (drop_bytes _ _)), app_nil_r; [done|..].
  - apply drop_bytes_nonneg; [done|lia].
  - rewrite drop_bytes_total by (first [done|lia]). lia.
Qed.

(** C1: for a layout, a valid start (piece, offset) and a non-empty buffer
    list whose total length fits the remaining virtual size, with a file-op
    that transfers every request in full without error, [readwritev]
    returns the total buffer length; the buffers of the calls, one after
    the other, cover the addresses of the input buffers in order; every
    call goes to a file of the layout at the offset within it that
    continues the request, within the size of the file; and the lengths of
    the calls sum to the total request. *)
Theorem readwritev_full_transfer {S} (op : fileop S) (uninit : iovec_t)
    (files : file_storage) (bufs : list iovec_t) (piece offset : Z)
    (ec : storage_error) (s : S) (fuel : nat) :
  wf_layout files = true →
  full_echo op → is_error ec = false →
  bufs ≠ [] → int_sized bufs →
  0 ≤ piece * piece_length files + offset < total_size files →
  piece * piece_length files + offset + total_length bufs ≤ total_size files →
  (Z.to_nat (total_length bufs) ≤ fuel)%nat →
  ∃ ec' s' log,
    readwritev (traced op) uninit files bufs piece offset ec (s, []) fuel
      = Ok (total_length bufs, ec', (s', log)) ∧
    is_error ec' = false ∧
    sum_ret log = total_length bufs ∧
    bufs_addrs (concat (call_bufs <$> log)) = bufs_addrs bufs ∧
    ∀ pre c post, log = pre ++ c :: post →
      ∃ e, entries files !! call_file c = Some e ∧
           fe_offset e + call_offset c
             = piece * piece_length files + offset + sum_ret pre ∧
           0 ≤ call_offset c ∧
           call_offset c + call_ret c ≤ fe_size e ∧
           0 < call_ret c ∧
           total_length (call_bufs c) = call_ret c.
Proof.
  intros Hwf Hecho Hec Hne Hsized Hoff Hfit Hfuel.
  pose proof Hsized as [Hnn Hmax].
  pose proof (total_length_nonneg _ Hnn) as Htot.
  destruct (decide (total_length bufs = 0)) as [Hzero|Hpos].
  - exists ec, s, []. split.
    + unfold readwritev. rewrite bufs_size_id, Hzero by done.
      unfold file_index_at_offset, file_offset.
      destruct (find_file_exists 0 (entries files) 0
                  (piece * piece_length files + offset) Hwf) as [j Hfind];
        [unfold total_size in Hoff; lia|].
      rewrite Hfind. apply find_file_Some in Hfind as (k & e & -> & Hk & Hin).
      simpl. rewrite Hk. simpl.
      destruct bufs as [|b bufs]; [done|].
      apply int_sized_cons in Hsized as [Hb _].
      destruct (copy_bufs_zero b bufs (replicate (length (b :: bufs)) uninit) Hb)
        as [[cnt cb] ->]; [done|].
      by rewrite rw_loop_done by (simpl; lia).
    + repeat split; try done.
      * by rewrite (bufs_addrs_empty bufs).
      * intros pre c post Hlog. by destruct pre.
  - destruct (readwritev_echo_run op uninit files bufs piece offset ec s fuel)
      as (ec' & s' & log & p' & live' & Hrun & Hec' & Hchain & Hend);
      try done; try lia.
    assert (Forall (λ b, 0 ≤ iov_len b) (take_bytes bufs (total_length bufs)))
      as Hnn' by (apply take_bytes_nonneg; [done|lia]).
    destruct (call_chain_sum _ _ _ _ _ _ Hchain Hnn') as (Hsum & Hle & Hleft & Hnn'').
    rewrite take_bytes_total in Hleft by (first [done|lia]).
    pose proof (total_length_nonneg _ Hnn'') as Hleft0.
    pose proof (call_chain_within files Hwf _ _ _ _ _ Hchain) as Hin.
    assert (total_length live' = 0) as Hdone by lia.
    exists ec', s', log. repeat split; try done.
    + lia.
    + rewrite <- (take_bytes_all_addrs bufs Hnn).
      rewrite <- (call_chain_addrs _ _ _ _ _ _ Hchain Hnn').
      by rewrite (bufs_addrs_empty live'), app_nil_r.
    + intros pre c post Hlog.
      apply (call_chain_position files _ _ _ _ _ Hchain Hnn' pre c post Hlog).
Qed.

Lemma readwritev_full_transfer_witness :
  ∃ ec' s' log,
    readwritev (traced echo_op) (mk_iovec 0 0) example_layout
      [mk_iovec 100 2; mk_iovec 200 5] 0 1 no_storage_error (tt, []) 7
      = Ok (total_length [mk_iovec 100 2; mk_iovec 200 5], ec', (s', log)) ∧
    is_error ec' = false ∧
    sum_ret log = total_length [mk_iovec 100 2; mk_iovec 200 5] ∧
    bufs_addrs (concat (call_bufs <$> log))
      = bufs_addrs [mk_iovec 100 2; mk_iovec 200 5] ∧
    ∀ pre c post, log = pre ++ c :: post →
      ∃ e, entries example_layout !! call_file c = Some e ∧
           fe_offset e + call_offset c
             = 0 * piece_length example_layout + 1 + sum_ret pre ∧
           0 ≤ call_offset c ∧
           call_offset c + call_ret c ≤ fe_size e ∧
           0 < call_ret c ∧
           total_length (call_bufs c) = call_ret c.
Proof.
  apply (readwritev_full_transfer echo_op (mk_iovec 0 0) example_layout
           [mk_iovec 100 2; mk_iovec 200 5] 0 1 no_storage_error tt 7).
  - reflexivity.
  - intros j fo bufs e s He. by exists e, s.
  - reflexivity.
  - discriminate.
  - split; [repeat constructor; simpl; lia | simpl; unfold INT_MAX; lia].
  - vm_compute. split; [discriminate|reflexivity].
  - vm_compute. discriminate.
  - simpl. lia.
Defined.

(** C3, as the code has it: for a request whose buffers total more bytes
    than remain in the virtual address space from its start, with a file-op
    that transfers every request in full without error, [readwritev] reads
    no file index at or past the end of the layout (every call goes to a
    file of the layout and stays within its size), the calls transfer
    exactly the bytes that remain in the layout, fewer than requested, and
    the value returned is the full requested size. *)
Theorem readwritev_past_end {S} (op : fileop S) (uninit : iovec_t)
    (files : file_storage) (bufs : list iovec_t) (piece offset : Z)
    (ec : storage_error) (s : S) (fuel : nat) :
  wf_layout files = true →
  full_echo op → is_error ec = false →
  bufs ≠ [] → int_sized bufs →
  0 ≤ piece * piece_length files + offset < total_size files →
  total_size files < piece * piece_length files + offset + total_length bufs →
  (Z.to_nat (total_length bufs) ≤ fuel)%nat →
  ∃ ec' s' log,
    readwritev (traced op) uninit files bufs piece offset ec (s, []) fuel
      = Ok (total_length bufs, ec', (s', log)) ∧
    sum_ret log = total_size files - (piece * piece_length files + offset) ∧
    sum_ret log < total_length bufs ∧
    ∀ pre c post, log = pre ++ c :: post →
      (call_file c < end_file files)%nat ∧
      ∃ e, entries files !! call_file c = Some e ∧
           fe_offset e + call_offset c
             = piece * piece_length files + offset + sum_ret pre ∧
           0 ≤ call_offset c ∧
           call_offset c + call_ret c ≤ fe_size e ∧
           0 < call_ret c ∧
           total_length (call_bufs c) = call_ret c.
Proof.
  intros Hwf Hecho Hec Hne Hsized Hoff Hover Hfuel.
  pose proof Hsized as [Hnn Hmax].
  destruct (readwritev_echo_run op uninit files bufs piece offset ec s fuel)
    as (ec' & s' & log & p' & live' & Hrun & Hec' & Hchain & Hend);
    try done; try lia.
  assert (Forall (λ b, 0 ≤ iov_len b) (take_bytes bufs (total_length bufs)))
    as Hnn' by (apply take_bytes_nonneg; [done|lia]).
  destruct (call_chain_sum _ _ _ _ _ _ Hchain Hnn') as (Hsum & Hle & Hleft & Hnn'').
  rewrite take_bytes_total in Hleft by (first [done|lia]).
  pose proof (call_chain_within files Hwf _ _ _ _ _ Hchain) as Hin.
  exists ec', s', log. repeat split; try done; try lia.
  - destruct (call_chain_position files _ _ _ _ _ Hchain Hnn' pre c post)
      as (e & He & _); [done|].
    apply lookup_lt_Some in He. by unfold end_file, num_files.
  - by apply (call_chain_position files _ _ _ _ _ Hchain Hnn' pre c post).
Qed.

Lemma readwritev_past_end_witness :
  ∃ ec' s' log,
    readwritev (traced echo_op) (mk_iovec 0 0) example_layout
      [mk_iovec 100 2; mk_iovec 200 50] 0 1 no_storage_error (tt, []) 52
      = Ok (total_length [mk_iovec 100 2; mk_iovec 200 50], ec', (s', log)) ∧
    sum_ret log
      = total_size example_layout - (0 * piece_length example_layout + 1) ∧
    sum_ret log < total_length [mk_iovec 100 2; mk_iovec 200 50] ∧
    ∀ pre c post, log = pre ++ c :: post →
      (call_file c < end_file example_layout)%nat ∧
      ∃ e, entries example_layout !! call_file c = Some e ∧
           fe_offset e + call_offset c
             = 0 * piece_length example_layout + 1 + sum_ret pre ∧
           0 ≤ call_offset c ∧
           call_offset c + call_ret c ≤ fe_size e ∧
           0 < call_ret c ∧
           total_length (call_bufs c) = call_ret c.
Proof.
  apply (readwritev_past_end echo_op (mk_iovec 0 0) example_layout
           [mk_iovec 100 2; mk_iovec 200 50] 0 1 no_storage_error tt 52).
  - reflexivity.
  - intros j fo bufs e s He. by exists e, s.
  - reflexivity.
  - discriminate.
  - split; [repeat constructor; simpl; lia | simpl; unfold INT_MAX; lia].
  - vm_compute. split; [discriminate|reflexivity].
  - vm_compute. reflexivity.
  - simpl. lia.
Defined.

(** C3 as stated fails: 52 bytes are requested at offset 1 of a layout of
    8 bytes; the calls transfer the 7 bytes that remain, and the value
    returned is 52, neither the bytes transferred nor less than requested. *)
Lemma readwritev_past_end_counterexample :
  readwritev (traced echo_op) (mk_iovec 0 0) example_layout
    [mk_iovec 100 2; mk_iovec 200 50] 0 1 no_storage_error (tt, []) 52
  = Ok (52, no_storage_error,
        (tt, [mk_call 0 1 [mk_iovec 100 2] 2 no_storage_error;
              mk_call 2 0 [mk_iovec 102 0; mk_iovec 200 5] 5 no_storage_error])) ∧
  ¬ (∃ r ec' s' log,
       readwritev (traced echo_op) (mk_iovec 0 0) example_layout
         [mk_iovec 100 2; mk_iovec 200 50] 0 1 no_storage_error (tt, []) 52
         = Ok (r, ec', (s', log)) ∧
       r = sum_ret log ∧
       r < total_length [mk_iovec 100 2; mk_iovec 200 50]).
Proof.
  split; [by vm_compute|].
  intros (r & ec' & s' & log & Hrun & Hr & Hlt).
  vm_compute in Hrun. simplify_eq.
Qed.

(** *** Zero-length files *)

Section empty_files.
Context (files : file_storage).
Hypothesis Hwf : wf_layout files = true.

Lemma wf_layout_without_empty_files :
  wf_layout (without_empty_files files) = true.
Proof using Hwf. by apply wf_entries_filter. Qed.

Lemma total_size_without_empty_files :
  total_size (without_empty_files files) = total_size files.
Proof using Type. apply sum_sizes_filter. Qed.

(** A chain of calls on the layout is, file indices renumbered, a chain
    of calls on the layout without its zero-length files. *)
Lemma call_chain_renumber p live log p' live' :
  call_chain files p live log p' live' →
  call_chain (without_empty_files files) p live
    (renumber_call files <$> log) p' live'.
Proof using Type.
  induction 1 as [|p live c log p' live' e n He Hin Hoff Hn Hpos Hbufs Hret _ IH].
  - constructor.
  - rewrite fmap_cons. eapply (chain_cons _ _ _ _ _ _ _ e n); try done.
    simpl. apply filter_lookup_renumber; [done|].
    unfold nonempty_file. apply bool_decide_eq_true. lia.
Qed.

(** Two chains from the same point that both run to the end of the
    request, or of the layout, make the same calls. *)
Lemma call_chain_deterministic p live logA pA liveA :
  call_chain files p live logA pA liveA →
  ∀ logB pB liveB,
    call_chain files p live logB pB liveB →
    (total_length liveA = 0 ∨ total_size files ≤ pA) →
    (total_length liveB = 0 ∨ total_size files ≤ pB) →
    call_request <$> logA = call_request <$> logB ∧
    call_ret <$> logA = call_ret <$> logB.
Proof using Hwf.
  induction 1 as [|p live c log p' live' e n He Hin Hoff Hn Hpos Hbufs Hret _ IH];
    intros logB pB liveB HB HendA HendB.
  - inversion HB as [|? ? cB logB' ? ? eB nB HeB HinB HoffB HnB HposB]; subst;
      [done|].
    destruct (wf_entries_within _ _ _ _ Hwf HeB) as [_ ?].
    unfold total_size in HendA. lia.
  - inversion HB as [|? ? cB logB' ? ? eB nB HeB HinB HoffB HnB HposB HbufsB HretB HB'];
      subst.
    + destruct (wf_entries_within _ _ _ _ Hwf He) as [_ ?].
      unfold total_size in HendB. lia.
    + pose proof (find_file_unique 0 _ 0 p _ _ Hwf He Hin) as Hfind.
      rewrite (find_file_unique 0 _ 0 p _ _ Hwf HeB HinB) in Hfind.
      assert (call_file cB = call_file c) as Hfile by (simplify_eq/=; lia).
      rewrite Hfile in HeB. simplify_eq.
      destruct (IH _ _ _ HB' HendA HendB) as [Hreq Hrets].
      rewrite !fmap_cons, Hreq, Hrets. unfold call_request.
      split; congruence.
Qed.
End empty_files.

Lemma readwritev_zero {S} (op : fileop S) uninit files bufs piece offset ec s fuel :
  wf_layout files = true → bufs ≠ [] → int_sized bufs →
  0 ≤ piece * piece_length files + offset < total_size files →
  total_length bufs = 0 →
  readwritev op uninit files bufs piece offset ec s fuel = Ok (0, ec, s).
Proof.
  intros Hwf Hne Hsized Hoff Hzero.
  unfold readwritev. rewrite bufs_size_id, Hzero by done.
  unfold file_index_at_offset, file_offset.
  destruct (find_file_exists 0 (entries files) 0
              (piece * piece_length files + offset) Hwf) as [j Hfind];
    [unfold total_size in Hoff; lia|].
  rewrite Hfind. apply find_file_Some in Hfind as (k & e & -> & Hk & Hin).
  simpl. rewrite Hk. simpl.
  destruct bufs as [|b bufs]; [done|].
  apply int_sized_cons in Hsized as [Hb _].
  destruct (copy_bufs_zero b bufs (replicate (length (b :: bufs)) uninit) Hb)
    as [[cnt cb] ->]; [done|].
  by rewrite rw_loop_done by (simpl; lia).
Qed.

(** C9: for a layout with zero-length files and a request on it, with
    file-ops that transfer every request in full without error on both
    sides, [readwritev] on the layout and on the layout with the
    zero-length files removed both return the requested size and make the
    same sequence of calls (offset within the file, buffers, bytes), the
    file indices being those of the files that stay; no call goes to a
    zero-length file. The transfer goes on past the zero-length files:
    the calls transfer the whole request, or what remains of the layout
    when the request runs past its end, each call at the global offset the
    bytes transferred so far lead to. *)
Theorem readwritev_skips_empty_files {S S'} (op : fileop S) (op' : fileop S')
    (uninit uninit' : iovec_t) (files : file_storage) (bufs : list iovec_t)
    (piece offset : Z) (ec ec' : storage_error) (s : S) (s' : S') (fuel : nat) :
  wf_layout files = true →
  full_echo op → full_echo op' →
  is_error ec = false → is_error ec' = false →
  bufs ≠ [] → int_sized bufs →
  0 ≤ piece * piece_length files + offset < total_size files →
  (Z.to_nat (total_length bufs) ≤ fuel)%nat →
  ∃ e1 s1 log1 e2 s2 log2,
    readwritev (traced op) uninit files bufs piece offset ec (s, []) fuel
      = Ok (total_length bufs, e1, (s1, log1)) ∧
    readwritev (traced op') uninit' (without_empty_files files) bufs piece
      offset ec' (s', []) fuel
      = Ok (total_length bufs, e2, (s2, log2)) ∧
    call_request <$> log2 = call_request <$> (renumber_call files <$> log1) ∧
    call_ret <$> log2 = call_ret <$> log1 ∧
    Forall (λ c, ∃ e, entries files !! call_file c = Some e ∧ 0 < fe_size e) log1 ∧
    sum_ret log1
      = Z.min (total_length bufs)
              (total_size files - (piece * piece_length files + offset)) ∧
    (∀ pre c post, log1 = pre ++ c :: post →
       ∃ e, entries files !! call_file c = Some e ∧
            fe_offset e + call_offset c
              = piece * piece_length files + offset + sum_ret pre ∧
            0 ≤ call_offset c ∧
            call_offset c + call_ret c ≤ fe_size e ∧
            0 < call_ret c ∧
            total_length (call_bufs c) = call_ret c).
Proof.
  intros Hwf Hecho Hecho' Hec Hec' Hne Hsized Hoff Hfuel.
  pose proof Hsized as [Hnn Hmax].
  pose proof (total_length_nonneg _ Hnn) as Htot.
  pose proof (wf_layout_without_empty_files files Hwf) as Hwf'.
  pose proof (total_size_without_empty_files files) as Htotal'.
  destruct (decide (total_length bufs = 0)) as [Hzero|Hpos].
  - exists ec, s, [], ec', s', [].
    rewrite !readwritev_zero by (first [done|by rewrite ?Htotal']).
    rewrite Hzero. repeat split; try done.
    + simpl. lia.
    + intros pre c post Hlog. by destruct pre.
  - destruct (readwritev_echo_run op uninit files bufs piece offset ec s fuel)
      as (e1 & s1 & log1 & p1 & live1 & Hrun1 & _ & Hchain1 & Hend1);
      try done; try lia.
    destruct (readwritev_echo_run op' uninit' (without_empty_files files) bufs
                piece offset ec' s' fuel)
      as (e2 & s2 & log2 & p2 & live2 & Hrun2 & _ & Hchain2 & Hend2);
      try done; try lia; [by rewrite Htotal'|].
    simpl in Hchain2.
    exists e1, s1, log1, e2, s2, log2.
    split; [done|]. split; [done|].
    apply call_chain_renumber in Hchain1 as Hchain1'.
    destruct (call_chain_deterministic _ Hwf' _ _ _ _ _ Hchain2 _ _ _ Hchain1')
      as [Hreq Hrets]; [done|by rewrite Htotal'|].
    assert (Forall (λ b, 0 ≤ iov_len b) (take_bytes bufs (total_length bufs)))
      as Hnn' by (apply take_bytes_nonneg; [done|lia]).
    split; [done|]. split; [|split; [|split]].
    + rewrite Hrets, <- list_fmap_compose. by apply list_fmap_ext.
    + apply Forall_forall. intros c Hc.
      apply list_elem_of_split in Hc as (pre & post & Hlog).
      destruct (call_chain_position files _ _ _ _ _ Hchain1 Hnn' pre c post Hlog)
        as (e & He & _ & ? & ? & ? & _).
      exists e. split; [done|lia].
    + destruct (call_chain_sum _ _ _ _ _ _ Hchain1 Hnn')
        as (Hsum & Hle & Hleft & Hnn'').
      rewrite take_bytes_total in Hleft by (first [done|lia]).
      pose proof (total_length_nonneg _ Hnn'') as Hleft0.
      pose proof (call_chain_within files Hwf _ _ _ _ _ Hchain1) as Hin.
      lia.
    + intros pre c post Hlog.
      apply (call_chain_position files _ _ _ _ _ Hchain1 Hnn' pre c post Hlog).
Qed.

Lemma readwritev_skips_empty_files_witness :
  ∃ e1 s1 log1 e2 s2 log2,
    readwritev (traced echo_op) (mk_iovec 0 0) example_layout
      [mk_iovec 100 2; mk_iovec 200 5] 0 1 no_storage_error (tt, []) 7
      = Ok (total_length [mk_iovec 100 2; mk_iovec 200 5], e1, (s1, log1)) ∧
    readwritev (traced echo_op) (mk_iovec 7 7) (without_empty_files example_layout)
      [mk_iovec 100 2; mk_iovec 200 5] 0 1 no_storage_error (tt, []) 7
      = Ok (total_length [mk_iovec 100 2; mk_iovec 200 5], e2, (s2, log2)) ∧
    call_request <$> log2
      = call_request <$> (renumber_call example_layout <$> log1) ∧
    call_ret <$> log2 = call_ret <$> log1 ∧
    Forall (λ c, ∃ e, entries example_layout !! call_file c = Some e
                      ∧ 0 < fe_size e) log1 ∧
    sum_ret log1
      = Z.min (total_length [mk_iovec 100 2; mk_iovec 200 5])
              (total_size example_layout
               - (0 * piece_length example_layout + 1)) ∧
    (∀ pre c post, log1 = pre ++ c :: post →
       ∃ e, entries example_layout !! call_file c = Some e ∧
            fe_offset e + call_offset c
              = 0 * piece_length example_layout + 1 + sum_ret pre ∧
            0 ≤ call_offset c ∧
            call_offset c + call_ret c ≤ fe_size e ∧
            0 < call_ret c ∧
            total_length (call_bufs c) = call_ret c).
Proof.
  apply (readwritev_skips_empty_files echo_op echo_op (mk_iovec 0 0)
           (mk_iovec 7 7) example_layout [mk_iovec 100 2; mk_iovec 200 5]
           0 1 no_storage_error no_storage_error tt tt 7).
  - reflexivity.
  - intros j fo bufs e s He. by exists e, s.
  - intros j fo bufs e s He. by exists e, s.
  - reflexivity.
  - reflexivity.
  - discriminate.
  - split; [repeat constructor; simpl; lia | simpl; unfold INT_MAX; lia].
  - vm_compute. split; [discriminate|reflexivity].
  - simpl. lia.
Defined.

(** The request of the witness crosses the zero-length file 1: the bytes
    go to the files 0 and 2 of the layout, which are the files 0 and 1 of
    the layout without its zero-length files. *)
Example readwritev_across_empty_file :
  readwritev (traced echo_op) (mk_iovec 0 0) example_layout
    [mk_iovec 100 2; mk_iovec 200 5] 0 1 no_storage_error (tt, []) 7
  = Ok (7, no_storage_error,
        (tt, [mk_call 0 1 [mk_iovec 100 2] 2 no_storage_error;
              mk_call 2 0 [mk_iovec 102 0; mk_iovec 200 5] 5 no_storage_error])) ∧
  readwritev (traced echo_op) (mk_iovec 0 0) (without_empty_files example_layout)
    [mk_iovec 100 2; mk_iovec 200 5] 0 1 no_storage_error (tt, []) 7
  = Ok (7, no_storage_error,
        (tt, [mk_call 0 1 [mk_iovec 100 2] 2 no_storage_error;
              mk_call 1 0 [mk_iovec 102 0; mk_iovec 200 5] 5 no_storage_error])).
Proof. by vm_compute. Qed.

(** *** Errors and short transfers *)

Lemma last_call_unique {A} (P : A → Prop) (good last pre post : list A) (c : A) :
  Forall (λ a, ¬ P a) good → (length last ≤ 1)%nat →
  good ++ last = pre ++ c :: post → P c →
  pre = good ∧ last = [c] ∧ post = [].
Proof.
  intros Hgood Hlast Heq Hc.
  assert (length good ≤ length pre)%nat as Hlen.
  { destruct (decide (length pre < length good)%nat) as [Hlt|]; [|lia].
    assert (good !! length pre = Some c) as Hin.
    { rewrite <- (lookup_app_l good last) by done.
      rewrite Heq. by rewrite list_lookup_middle. }
    rewrite Forall_lookup in Hgood. by destruct (Hgood _ _ Hin). }
  pose proof (f_equal length Heq) as Hlens.
  rewrite !length_app in Hlens. simpl in Hlens.
  assert (length pre = length good) as Hpre by lia.
  apply app_inj_1 in Heq as [-> Heq]; [|done].
  destruct post; [|simpl in *; lia]. by rewrite Heq.
Qed.

Section carrier_run.
Context {S : Type} (op : fileop S) (files : file_storage).
Hypothesis Hwf : wf_layout files = true.
Hypothesis Hbounded : bounded_transfer op.

(** With any file-op that keeps its contract and a carrier that holds no
    error, the loop returns: every call is handed a carrier without error
    and is issued at the global offset the bytes transferred so far lead
    to; after calls that each transferred at least one byte without error
    the run ends as [run_end] says, and with no further call only when
    the request is satisfied or the layout has ended. *)
Lemma rw_loop_carrier size start fuel :
  ∀ live (st : rw_state (S * list (storage_error * file_op_call))),
    rw_inv files size start live st →
    is_error (rw_ec st) = false →
    (Z.to_nat (rw_bytes_left st) ≤ fuel)%nat →
    ∃ r ec' s' log good last,
      rw_loop fuel (traced_in op) files size st
        = Ok (r, ec', (s', snd (rw_op st) ++ log)) ∧
      snd <$> log = good ++ last ∧
      Forall (λ ic, is_error (fst ic) = false) log ∧
      Forall (λ c, is_error (call_ec c) = false ∧ 0 < call_ret c) good ∧
      run_end size (size - rw_bytes_left st) good last r ec' ∧
      (∀ pre c post, good ++ last = pre ++ c :: post →
         ∃ e, entries files !! call_file c = Some e ∧
              fe_offset e + call_offset c
                = start + (size - rw_bytes_left st) + sum_ret pre ∧
              0 ≤ call_offset c ∧
              call_offset c + total_length (call_bufs c) ≤ fe_size e ∧
              0 < total_length (call_bufs c)) ∧
      (last = [] →
       sum_ret good = rw_bytes_left st
       ∨ total_size files ≤ start + (size - rw_bytes_left st) + sum_ret good).
Proof using Hwf Hbounded.
  induction fuel as [|fuel IH]; intros live st Hinv Hclean Hfuel.
  - pose proof (inv_bounds _ _ _ _ _ Hinv) as [? ?].
    exists size, (rw_ec st), (fst (rw_op st)), [], [], [].
    rewrite rw_loop_done by lia. rewrite !app_nil_r. destruct (rw_op st).
    repeat split; try done; [constructor|intros pre c post Hlog; by destruct pre|].
    intros _. left. simpl. lia.
  - pose proof (inv_bounds _ _ _ _ _ Hinv) as [? ?].
    simpl. case_bool_decide as Hbl.
    2:{ exists size, (rw_ec st), (fst (rw_op st)), [], [], [].
        rewrite !app_nil_r. destruct (rw_op st).
        repeat split; try done;
          [constructor|intros pre c post Hlog; by destruct pre|].
        intros _. left. simpl. lia. }
    pose proof (rw_inv_int_sized _ _ _ _ _ Hinv) as Hsized.
    pose proof (inv_total _ _ _ _ _ Hinv) as Htot.
    destruct (rw_iteration_spec (traced_in op) files Hwf size start live st Hinv)
      as [[Hpast ->]|(j & e & tmp' & Hj & Hin & Htmp' & ->)]; [lia|..].
    { exists size, (rw_ec st), (fst (rw_op st)), [], [], [].
      rewrite !app_nil_r. destruct (rw_op st).
      repeat split; try done;
        [constructor|intros pre c post Hlog; by destruct pre|].
      intros _. right. simpl. lia. }
    set (n := Z.min (rw_bytes_left st)
                (fe_offset e + fe_size e - (start + (size - rw_bytes_left st)))).
    assert (0 < n ≤ total_length live) as Hn by lia.
    assert (total_length (take_bytes live n) = n) as Hreq
      by (apply take_bytes_total; [apply Hsized|lia]).
    unfold traced_in at 1.
    destruct (op j (start + (size - rw_bytes_left st) - fe_offset e)
                (take_bytes live n) (rw_ec st) (fst (rw_op st)))
      as [[r ec'] s'] eqn:Hop.
    set (c := mk_call j (start + (size - rw_bytes_left st) - fe_offset e)
                (take_bytes live n) r ec').
    assert (∀ rest pre c' post, c :: rest = pre ++ c' :: post →
              (pre = [] ∧ c' = c ∧ post = rest)
              ∨ ∃ pre', pre = c :: pre' ∧ rest = pre' ++ c' :: post) as Hsplit.
    { intros rest pre c' post Hlog. destruct pre as [|c1 pre].
      - left. simpl in Hlog. by injection Hlog as <- <-.
      - right. simpl in Hlog. injection Hlog as <- ->. by exists pre. }
    assert (∃ e0, entries files !! call_file c = Some e0 ∧
              fe_offset e0 + call_offset c
                = start + (size - rw_bytes_left st) + sum_ret [] ∧
              0 ≤ call_offset c ∧
              call_offset c + total_length (call_bufs c) ≤ fe_size e0 ∧
              0 < total_length (call_bufs c)) as Hfirst.
    { exists e. simpl. rewrite Hreq. repeat split; first [done|lia]. }
    destruct (is_error ec') eqn:Hec'.
    { exists (-1), ec', s', [(rw_ec st, c)], [], [c].
      unfold rw_after_call. rewrite Hec'.
      repeat split; try done.
      - by repeat constructor.
      - by apply (end_error _ _ _ c).
      - intros pre c' post Hlog.
        destruct (Hsplit [] pre c' post Hlog) as [(-> & -> & _)|(pre' & _ & Hnil)];
          [done|by destruct pre']. }
    assert (int_sized (take_bytes live n)) as Hsized'
      by (apply take_bytes_int_sized; [done|lia]).
    pose proof (Hbounded _ _ _ _ _ _ _ _ Hsized' Hop Hec') as Hr.
    rewrite Hreq in Hr.
    destruct (rw_after_call_ok files size start live st j e tmp' r ec'
                (s', snd (rw_op st) ++ [(rw_ec st, c)]) Hinv)
      as (st' & -> & Hinv' & Hbl' & Hec'' & Hop'); try done; try lia.
    case_bool_decide as Hr0.
    { exists (size - rw_bytes_left st), (set_file (Z.of_nat j) ec'), s',
        [(rw_ec st, c)], [], [c].
      repeat split; try done.
      - by repeat constructor.
      - replace (size - rw_bytes_left st)
          with (size - rw_bytes_left st + sum_ret []) at 2 by (simpl; lia).
        by apply (end_short _ _ _ c).
      - intros pre c' post Hlog.
        destruct (Hsplit [] pre c' post Hlog) as [(-> & -> & _)|(pre' & _ & Hnil)];
          [done|by destruct pre']. }
    destruct (IH _ st' Hinv')
      as (r' & ec'' & s'' & log & good & last & -> & Hcalls & Hins & Hgood
          & Hend & Hpos & Hall); [by rewrite Hec''|lia|].
    exists r', ec'', s'', ((rw_ec st, c) :: log), (c :: good), last.
    split; [rewrite Hop'; simpl; by rewrite <- app_assoc|].
    split; [by rewrite fmap_cons, Hcalls|].
    split; [by constructor|].
    split; [constructor; [|done]; simpl; split; [done|lia]|].
    split; [|split].
    + rewrite Hbl' in Hend. destruct Hend as [ec3|c3 Hc3|c3 Hc3 Hret3].
      * constructor.
      * by constructor.
      * replace (size - (rw_bytes_left st - r) + sum_ret good)
          with (size - rw_bytes_left st + sum_ret (c :: good))
          by (simpl; lia).
        by constructor.
    + intros pre c' post Hlog.
      destruct (Hsplit _ pre c' post Hlog) as [(-> & -> & _)|(pre' & -> & Hrest)];
        [done|].
      destruct (Hpos pre' c' post Hrest) as (e' & ? & ? & ? & ? & ?).
      exists e'. simpl. repeat split; first [done|lia].
    + intros Hlast. destruct (Hall Hlast) as [?|?]; [left|right]; simpl; lia.
Qed.
End carrier_run.

Lemma sum_ret_nonneg (log : list file_op_call) :
  Forall (λ c, is_error (call_ec c) = false ∧ 0 < call_ret c) log → 0 ≤ sum_ret log.
Proof. induction 1 as [|c log [_ ?] _ IH]; simpl; lia. Qed.

Lemma truncated_op_bounded on_disk : bounded_transfer (truncated_op on_disk).
Proof.
  intros j fo bufs e s r e' s' Hsized Hop _. unfold truncated_op in Hop.
  simplify_eq. rewrite bufs_size_id by done.
  destruct Hsized as [Hnn _]. pose proof (total_length_nonneg _ Hnn). lia.
Qed.

(** C4: with a file-op that keeps its contract and an error carrier that
    holds no error when it is handed in, every call to the file-op is handed
    a carrier without error, so that an error in the carrier after a call
    is an error that call reported. [readwritev] returns [-1] exactly when
    some call reported an error; the call that reported it is the last one
    made and the error carrier is as that call left it. A call that
    reports no error and transfers no byte was asked for at least one byte;
    it is the last call made, the carrier holds its file index and still no
    error code, and the value returned is the sum of the bytes the calls
    before it transferred, which is not negative. Every call asks for at
    least one byte, within one file, at the global offset the bytes
    transferred so far lead to; and when no call reports an error or
    transfers no byte, the value returned is the requested size and the
    calls have transferred the whole request or reached the end of the
    layout. *)
Theorem readwritev_error_or_short_transfer {S} (op : fileop S)
    (uninit : iovec_t) (files : file_storage) (bufs : list iovec_t)
    (piece offset : Z) (ec0 : storage_error) (s : S) (fuel : nat) :
  wf_layout files = true →
  bounded_transfer op →
  is_error ec0 = false →
  bufs ≠ [] → int_sized bufs →
  0 ≤ piece * piece_length files + offset < total_size files →
  (Z.to_nat (total_length bufs) ≤ fuel)%nat →
  ∃ r ec' s' log,
    readwritev (traced_in op) uninit files bufs piece offset ec0 (s, []) fuel
      = Ok (r, ec', (s', log)) ∧
    Forall (λ ic, is_error (fst ic) = false) log ∧
    (r = -1 ↔ Exists (λ c, is_error (call_ec c) = true) (snd <$> log)) ∧
    (∀ pre c post, snd <$> log = pre ++ c :: post →
       is_error (call_ec c) = true →
       post = [] ∧ r = -1 ∧ ec' = call_ec c) ∧
    (∀ pre c post, snd <$> log = pre ++ c :: post →
       is_error (call_ec c) = false → call_ret c = 0 →
       0 < total_length (call_bufs c) ∧ post = [] ∧
       ec' = set_file (Z.of_nat (call_file c)) (call_ec c) ∧
       file ec' = Z.of_nat (call_file c) ∧ ec ec' = 0 ∧
       r = sum_ret pre ∧ 0 ≤ r) ∧
    (∀ pre c post, snd <$> log = pre ++ c :: post →
       ∃ e, entries files !! call_file c = Some e ∧
            fe_offset e + call_offset c
              = piece * piece_length files + offset + sum_ret pre ∧
            0 ≤ call_offset c ∧
            call_offset c + total_length (call_bufs c) ≤ fe_size e ∧
            0 < total_length (call_bufs c)) ∧
    (Forall (λ c, is_error (call_ec c) = false ∧ call_ret c ≠ 0) (snd <$> log) →
     r = total_length bufs ∧
     (sum_ret (snd <$> log) = total_length bufs
      ∨ total_size files
        ≤ piece * piece_length files + offset + sum_ret (snd <$> log))).
Proof.
  intros Hwf Hbounded Hclean Hne Hsized Hoff Hfuel.
  pose proof Hsized as [Hnn Hmax].
  pose proof (total_length_nonneg _ Hnn) as Htot.
  destruct (decide (total_length bufs = 0)) as [Hzero|Hpos].
  { exists 0, ec0, s, []. rewrite readwritev_zero by done.
    split; [done|]. split; [constructor|]. split; [|split; [|split; [|split]]].
    - split; [done|]. by intros ?%Exists_nil.
    - intros pre c post Hlog. by destruct pre.
    - intros pre c post Hlog. by destruct pre.
    - intros pre c post Hlog. by destruct pre.
    - intros _. simpl. split; [done|by left]. }
  destruct (readwritev_start (traced_in op) uninit files bufs piece offset ec0
              (s, []) fuel) as (st & -> & Hinv & Hbl & Hec0 & Hop);
    try done; try lia.
  destruct (rw_loop_carrier op files Hwf Hbounded (total_length bufs)
              (piece * piece_length files + offset) fuel _ st Hinv)
    as (r & ec' & s' & log & good & last & -> & Hcalls & Hins & Hgood & Hend
        & Hposn & Hall); [by rewrite Hec0|lia|].
  rewrite Hop, Hbl, Z.sub_diag in *. simpl in *.
  exists r, ec', s', log. split; [done|]. split; [done|].
  rewrite Hcalls.
  pose proof (sum_ret_nonneg _ Hgood) as Hsum.
  assert (Forall (λ c, ¬ is_error (call_ec c) = true) good) as Hgood1.
  { eapply Forall_impl; [exact Hgood|]. intros c [Hc _]. by rewrite Hc. }
  assert (Forall (λ c, ¬ (is_error (call_ec c) = false ∧ call_ret c = 0)) good)
    as Hgood2.
  { eapply Forall_impl; [exact Hgood|]. intros c [_ Hc] [_ Hc']. lia. }
  assert (length last ≤ 1)%nat as Hlast by (destruct Hend; simpl; lia).
  split; [|split; [|split; [|split]]].
  - split.
    + intros Hr. destruct Hend as [ec3|c3 Hc3|c3 Hc3 Hret3]; [lia| |lia].
      apply Exists_app. right. by constructor.
    + intros [Hex|Hex]%Exists_app.
      * apply Exists_exists in Hex as (c & Hc & Herr).
        rewrite Forall_forall in Hgood1. by destruct (Hgood1 c Hc).
      * destruct Hend as [ec3|c3 Hc3|c3 Hc3 Hret3]; [by inversion Hex|done|].
        inversion Hex as [? ? Hc|? ? Hc]; simplify_eq; [congruence|by inversion Hc].
  - intros pre c post Hlog Herr.
    destruct (last_call_unique (λ c, is_error (call_ec c) = true)
                good last pre post c Hgood1 Hlast Hlog Herr) as (-> & -> & ->).
    inversion Hend; simplify_eq; [by repeat split|congruence].
  - intros pre c post Hlog Hok Hret.
    destruct (last_call_unique (λ c, is_error (call_ec c) = false ∧ call_ret c = 0)
                good last pre post c Hgood2 Hlast Hlog (conj Hok Hret))
      as (-> & -> & ->).
    destruct (Hposn good c [] eq_refl) as (e & _ & _ & _ & _ & Hasked).
    inversion Hend; simplify_eq; [congruence|].
    repeat split; try done; try lia.
    simpl. unfold is_error in Hok. by apply bool_decide_eq_false, dec_stable in Hok.
  - intros pre c post Hlog.
    destruct (Hposn pre c post Hlog) as (e & ? & ? & ? & ? & ?).
    exists e. repeat split; first [done|lia].
  - intros Hfull. apply Forall_app in Hfull as [_ Hfull].
    destruct Hend as [ec3|c3 Hc3|c3 Hc3 Hret3].
    + rewrite app_nil_r. split; [done|].
      destruct (Hall eq_refl) as [?|?]; [left|right]; lia.
    + inversion_clear Hfull as [|? ? [Hc _] _]. congruence.
    + inversion_clear Hfull as [|? ? [_ Hc] _]. lia.
Qed.

Lemma readwritev_error_or_short_transfer_witness :
  ∃ r ec' s' log,
    readwritev (traced_in (truncated_op [3; 0; 2; 0])) (mk_iovec 0 0)
      example_layout [mk_iovec 100 2; mk_iovec 200 5] 0 1 no_storage_error
      (tt, []) 7
      = Ok (r, ec', (s', log)) ∧
    Forall (λ ic, is_error (fst ic) = false) log ∧
    (r = -1 ↔ Exists (λ c, is_error (call_ec c) = true) (snd <$> log)) ∧
    (∀ pre c post, snd <$> log = pre ++ c :: post →
       is_error (call_ec c) = true →
       post = [] ∧ r = -1 ∧ ec' = call_ec c) ∧
    (∀ pre c post, snd <$> log = pre ++ c :: post →
       is_error (call_ec c) = false → call_ret c = 0 →
       0 < total_length (call_bufs c) ∧ post = [] ∧
       ec' = set_file (Z.of_nat (call_file c)) (call_ec c) ∧
       file ec' = Z.of_nat (call_file c) ∧ ec ec' = 0 ∧
       r = sum_ret pre ∧ 0 ≤ r) ∧
    (∀ pre c post, snd <$> log = pre ++ c :: post →
       ∃ e, entries example_layout !! call_file c = Some e ∧
            fe_offset e + call_offset c
              = 0 * piece_length example_layout + 1 + sum_ret pre ∧
            0 ≤ call_offset c ∧
            call_offset c + total_length (call_bufs c) ≤ fe_size e ∧
            0 < total_length (call_bufs c)) ∧
    (Forall (λ c, is_error (call_ec c) = false ∧ call_ret c ≠ 0) (snd <$> log) →
     r = total_length [mk_iovec 100 2; mk_iovec 200 5] ∧
     (sum_ret (snd <$> log) = total_length [mk_iovec 100 2; mk_iovec 200 5]
      ∨ total_size example_layout
        ≤ 0 * piece_length example_layout + 1 + sum_ret (snd <$> log))).
Proof.
  apply (readwritev_error_or_short_transfer (truncated_op [3; 0; 2; 0])
           (mk_iovec 0 0) example_layout [mk_iovec 100 2; mk_iovec 200 5]
           0 1 no_storage_error tt 7).
  - reflexivity.
  - apply truncated_op_bounded.
  - reflexivity.
  - discriminate.
  - split; [repeat constructor; simpl; lia | simpl; unfold INT_MAX; lia].
  - vm_compute. split; [discriminate|reflexivity].
  - simpl. lia.
Defined.

(** The two ways to stop early, on the example layout: a file cut short on
    disk, and a file whose file-op fails. *)
Example readwritev_truncated_file :
  readwritev (traced (truncated_op [3; 0; 2; 0])) (mk_iovec 0 0) example_layout
    [mk_iovec 100 2; mk_iovec 200 5] 0 1 no_storage_error (tt, []) 7
  = Ok (4, mk_storage_error 0 2 op_none,
        (tt, [mk_call 0 1 [mk_iovec 100 2] 2 no_storage_error;
              mk_call 2 0 [mk_iovec 102 0; mk_iovec 200 5] 2 no_storage_error;
              mk_call 2 2 [mk_iovec 202 3] 0 no_storage_error])).
Proof. by vm_compute. Qed.

(** The same failing file, with the carrier handed to every call. *)
Example readwritev_failing_file_carrier :
  readwritev (traced_in (failing_op 2)) (mk_iovec 0 0) example_layout
    [mk_iovec 100 2; mk_iovec 200 5] 0 1 no_storage_error (tt, []) 7
  = Ok (-1, mk_storage_error 5 2 op_read,
        (tt, [(no_storage_error,
               mk_call 0 1 [mk_iovec 100 2] 2 no_storage_error);
              (no_storage_error,
               mk_call 2 0 [mk_iovec 102 0; mk_iovec 200 5] (-1)
                 (mk_storage_error 5 2 op_read))])).
Proof. by vm_compute. Qed.

Example readwritev_failing_file :
  readwritev (traced (failing_op 2)) (mk_iovec 0 0) example_layout
    [mk_iovec 100 2; mk_iovec 200 5] 0 1 no_storage_error (tt, []) 7
  = Ok (-1, mk_storage_error 5 2 op_read,
        (tt, [mk_call 0 1 [mk_iovec 100 2] 2 no_storage_error;
              mk_call 2 0 [mk_iovec 102 0; mk_iovec 200 5] (-1)
                (mk_storage_error 5 2 op_read)])).
Proof. by vm_compute. Qed.

(** ** The storage relocation engine *)

(** *** The calls of a traced disk *)

Section traced_io.
Context {W : Type} (io : disk_io W).
Implicit Types (w : W) (l : list fs_event).

Lemma traced_stat_file p w l :
  stat_file (traced_io io) p (w, l)
  = (fst (stat_file io p w),
     (snd (stat_file io p w), l ++ [ev_stat_file p (fst (stat_file io p w))])).
Proof. unfold traced_io. simpl. by destruct (stat_file io p w). Qed.

Lemma traced_create_directories p w l :
  create_directories (traced_io io) p (w, l)
  = (fst (create_directories io p w),
     (snd (create_directories io p w),
      l ++ [ev_create_directories p (fst (create_directories io p w))])).
Proof. unfold traced_io. simpl. by destruct (create_directories io p w). Qed.

Lemma traced_exists p w l :
  exists_ (traced_io io) p (w, l)
  = (fst (exists_ io p w),
     (snd (exists_ io p w), l ++ [ev_exists p (fst (exists_ io p w))])).
Proof. unfold traced_io. simpl. by destruct (exists_ io p w). Qed.

Lemma traced_move_file src dst w l :
  move_file (traced_io io) src dst (w, l)
  = (fst (move_file io src dst w),
     (snd (move_file io src dst w),
      l ++ [ev_move_file src dst (fst (move_file io src dst w))])).
Proof. unfold traced_io. simpl. by destruct (move_file io src dst w). Qed.

Lemma traced_copy_file src dst w l :
  copy_file (traced_io io) src dst (w, l)
  = (fst (copy_file io src dst w),
     (snd (copy_file io src dst w),
      l ++ [ev_copy_file src dst (fst (copy_file io src dst w))])).
Proof. unfold traced_io. simpl. by destruct (copy_file io src dst w). Qed.

Lemma traced_remove p w l :
  remove (traced_io io) p (w, l)
  = (fst (remove io p w),
     (snd (remove io p w), l ++ [ev_remove p (fst (remove io p w))])).
Proof. unfold traced_io. simpl. by destruct (remove io p w). Qed.

Lemma traced_move_partfile p w l :
  move_partfile (traced_io io) p (w, l)
  = (fst (move_partfile io p w),
     (snd (move_partfile io p w),
      l ++ [ev_move_partfile p (fst (move_partfile io p w))])).
Proof. unfold traced_io. simpl. by destruct (move_partfile io p w). Qed.
End traced_io.

Lemma script_io_follows a : follows (script_io a) a.
Proof. by split. Qed.

(** *** The pre-flight checks *)

Section preflight.
Context {W : Type} (io : disk_io W) (paths : path_ops).
Context (new_save_path : string).
Implicit Types (w : W) (l : list fs_event) (es : list file_entry).

(** The loop over the files only calls [stat_file]. *)
Lemma stat_files_only_stat es i w l :
  ∃ r w' l',
    stat_files (traced_io io) paths new_save_path es i (w, l) = (r, (w', l ++ l')) ∧
    Forall is_stat_event l' ∧
    (stat_read_only io → w' = w).
Proof.
  revert i w l. induction es as [|fe es IH]; intros i w l; cbn [stat_files app length].
  - exists None, w, []. by rewrite app_nil_r.
  - destruct (fe_absolute fe); [apply IH|].
    rewrite traced_stat_file.
    set (p := file_path_in paths new_save_path fe).
    case_bool_decide as Herr.
    + exists (Some (i, fst (stat_file io p w))), (snd (stat_file io p w)),
        [ev_stat_file p (fst (stat_file io p w))].
      repeat split; [repeat constructor; by eexists _, _|by intros ->].
    + destruct (IH (S i) (snd (stat_file io p w))
                  (l ++ [ev_stat_file p (fst (stat_file io p w))]))
        as (r & w' & l' & -> & Hl' & Hw').
      exists r, w', (ev_stat_file p (fst (stat_file io p w)) :: l').
      rewrite <- app_assoc. repeat split; try done.
      * constructor; [by eexists _, _|done].
      * intros Hro. rewrite (Hw' Hro). apply Hro.
Qed.

(** It stops at the first file that is not reported missing. *)
Lemma stat_files_first pre fe post err i w l :
  Forall (always_missing io paths new_save_path) pre →
  fe_absolute fe = false →
  (∀ w, fst (stat_file io (file_path_in paths new_save_path fe) w) = err) →
  err ≠ no_such_file_or_directory →
  fst (stat_files (traced_io io) paths new_save_path (pre ++ fe :: post) i (w, l))
  = Some ((i + length pre)%nat, err).
Proof.
  intros Hpre Habs Hfe Herr. revert i w l.
  induction Hpre as [|fe0 pre [Habs0|Hmissing] _ IH]; intros i w l; cbn [stat_files app length].
  - rewrite Habs, traced_stat_file, Hfe, bool_decide_true by done.
    cbn [fst]. do 2 f_equal. lia.
  - rewrite Habs0, IH. do 2 f_equal. lia.
  - destruct (fe_absolute fe0); [rewrite IH; do 2 f_equal; lia|].
    rewrite traced_stat_file, Hmissing, bool_decide_false by naive_solver.
    rewrite IH. do 2 f_equal. lia.
Qed.

(** It finds nothing when every file is missing. *)
Lemma stat_files_none (a : string → error_code) es i w l :
  (∀ p w, fst (stat_file io p w) = a p) →
  Forall (λ fe, fe_absolute fe = true
                ∨ a (file_path_in paths new_save_path fe)
                  = no_such_file_or_directory) es →
  ∃ w', stat_files (traced_io io) paths new_save_path es i (w, l)
        = (None, (w', l ++ probe_events paths new_save_path a es)).
Proof.
  intros Ha Hes. revert i w l.
  induction Hes as [|fe es Hfe _ IH]; intros i w l; cbn [stat_files app length].
  - exists w. by rewrite app_nil_r.
  - unfold probe_events. rewrite filter_cons.
    destruct (fe_absolute fe) eqn:Habs.
    + rewrite decide_False by done. apply IH.
    + destruct Hfe as [?|Hfe]; [done|].
      rewrite decide_True by done.
      rewrite traced_stat_file, Ha, Hfe, bool_decide_false by naive_solver.
      destruct (IH (S i) (snd (stat_file io (file_path_in paths new_save_path fe) w))
                  (l ++ [ev_stat_file (file_path_in paths new_save_path fe)
                           no_such_file_or_directory])) as [w' ->].
      exists w'. rewrite <- app_assoc. simpl. by rewrite Hfe.
Qed.
End preflight.

(** Among the files, the first one that is not always missing. *)
Lemma first_not_missing {W} (io : disk_io W) paths new_save_path
    (es : list file_entry) (fe : file_entry) :
  fe ∈ es → fe_absolute fe = false →
  (∀ w, fst (stat_file io (file_path_in paths new_save_path fe) w)
        ≠ no_such_file_or_directory) →
  ∃ pre fe' post, es = pre ++ fe' :: post ∧ fe_absolute fe' = false ∧
    (∀ i w l, is_Some (fst (stat_files (traced_io io) paths new_save_path
                              (pre ++ fe' :: post) i (w, l)))).
Proof.
  intros Hin Habs Hfe.
  apply list_elem_of_split in Hin as (pre & post & ->).
  exists pre, fe, post. repeat split; try done.
  intros i w l. revert i w l.
  induction pre as [|fe0 pre IH]; intros i w l; cbn [stat_files app length].
  - rewrite Habs, traced_stat_file, bool_decide_true by done. by eexists.
  - destruct (fe_absolute fe0); [apply IH|].
    rewrite traced_stat_file. case_bool_decide; [by eexists|apply IH].
Qed.

(** C6: under the fail-if-exists policy, when the probe of the destination
    root does not report it missing and the probe of the destination of
    some file with a non-absolute path does not either, [move_storage]
    returns the destination-exists status with the original save path, and
    the only calls it made to the disk are [stat_file]: no directory was
    created, no file moved, copied or removed; with a [stat_file] that
    changes nothing, the state of the disk is the one it started in. *)
Theorem move_storage_fail_if_exist_no_mutation {W} (io : disk_io W)
    (paths : path_ops) (f : file_storage) (save_path destination_save_path : string)
    (pf : bool) (ec0 : storage_error) (w : W) (fuel : nat) (fe : file_entry) :
  (∀ w, fst (stat_file io (complete paths destination_save_path) w)
        ≠ no_such_file_or_directory) →
  fe ∈ entries f → fe_absolute fe = false →
  (∀ w, fst (stat_file io
               (file_path_in paths (complete paths destination_save_path) fe) w)
        ≠ no_such_file_or_directory) →
  ∃ ec' w' log,
    move_storage (traced_io io) paths f save_path destination_save_path pf
      fail_if_exist ec0 (w, []) fuel
      = Ok (file_exist, save_path, ec', (w', log)) ∧
    Forall is_stat_event log ∧
    (stat_read_only io → w' = w).
Proof.
  intros Hroot Hin Habs Hfe.
  unfold move_storage, check_destination.
  rewrite bool_decide_true by done.
  rewrite traced_stat_file, bool_decide_true by done.
  set (new_save_path := complete paths destination_save_path) in *.
  set (w1 := snd (stat_file io new_save_path w)).
  set (l1 := [] ++ [ev_stat_file new_save_path (fst (stat_file io new_save_path w))]).
  destruct (stat_files_only_stat io paths new_save_path (entries f) 0 w1 l1)
    as (r & w' & l' & Hrun & Hl' & Hw').
  destruct (first_not_missing io paths new_save_path (entries f) fe Hin Habs Hfe)
    as (pre & fe' & post & Hes & _ & Hsome).
  specialize (Hsome 0%nat w1 l1). rewrite <- Hes, Hrun in Hsome.
  simpl in Hsome. destruct Hsome as [[i err] ->]. rewrite Hrun.
  exists (mk_storage_error err (Z.of_nat i) op_stat), w', (l1 ++ l').
  repeat split.
  - apply Forall_app. split; [|done]. repeat constructor. by eexists _, _.
  - intros Hro. rewrite (Hw' Hro). apply Hro.
Qed.

Lemma move_storage_fail_if_exist_no_mutation_witness :
  ∃ ec' w' log,
    move_storage (traced_io (script_io one_file_present)) slash_paths four_files
      "old" "new" true fail_if_exist no_storage_error (tt, []) 2
      = Ok (file_exist, "old"%string, ec', (w', log)) ∧
    Forall is_stat_event log ∧
    (stat_read_only (script_io one_file_present) → w' = tt).
Proof.
  apply (move_storage_fail_if_exist_no_mutation (script_io one_file_present)
           slash_paths four_files "old" "new" true no_storage_error tt 2
           (mk_file_entry "d/b" 2 3 false)).
  - intros w. vm_compute. discriminate.
  - vm_compute. apply list_elem_of_further, list_elem_of_here.
  - reflexivity.
  - intros w. vm_compute. discriminate.
Defined.

(** C10, as the code has it: in the pre-check of the fail-if-exists
    policy, with a probe of the destination root that answers anything but
    "no such file or directory", the first file with a non-absolute path
    whose probe answers anything but that, success and permission errors
    alike, makes [move_storage] return the destination-exists status with
    the original save path; the error carrier holds the answer of that
    probe, the index of the file and the [stat] operation; only
    [stat_file] was called. *)
Theorem move_storage_fail_if_exist_stat_error {W} (io : disk_io W)
    (paths : path_ops) (f : file_storage) (save_path destination_save_path : string)
    (pf : bool) (ec0 : storage_error) (w : W) (fuel : nat)
    (pre post : list file_entry) (fe : file_entry) (err : error_code) :
  (∀ w, fst (stat_file io (complete paths destination_save_path) w)
        ≠ no_such_file_or_directory) →
  entries f = pre ++ fe :: post →
  Forall (always_missing io paths (complete paths destination_save_path)) pre →
  fe_absolute fe = false →
  (∀ w, fst (stat_file io
               (file_path_in paths (complete paths destination_save_path) fe) w)
        = err) →
  err ≠ no_such_file_or_directory →
  ∃ w' log,
    move_storage (traced_io io) paths f save_path destination_save_path pf
      fail_if_exist ec0 (w, []) fuel
      = Ok (file_exist, save_path,
            mk_storage_error err (Z.of_nat (length pre)) op_stat, (w', log)) ∧
    Forall is_stat_event log.
Proof.
  intros Hroot Hes Hpre Habs Hfe Herr.
  unfold move_storage, check_destination.
  rewrite bool_decide_true by done.
  rewrite traced_stat_file, bool_decide_true by done.
  set (new_save_path := complete paths destination_save_path) in *.
  set (w1 := snd (stat_file io new_save_path w)).
  set (l1 := [] ++ [ev_stat_file new_save_path (fst (stat_file io new_save_path w))]).
  destruct (stat_files_only_stat io paths new_save_path (entries f) 0 w1 l1)
    as (r & w' & l' & Hrun & Hl' & _).
  pose proof (stat_files_first io paths new_save_path pre fe post err 0 w1 l1
                Hpre Habs Hfe Herr) as Hfirst.
  rewrite <- Hes, Hrun in Hfirst. simpl in Hfirst. subst r. rewrite Hrun.
  exists w', (l1 ++ l'). split; [done|].
  apply Forall_app. split; [|done]. repeat constructor. by eexists _, _.
Qed.

Lemma move_storage_fail_if_exist_stat_error_witness :
  ∃ w' log,
    move_storage (traced_io (script_io destination_unreadable)) slash_paths
      four_files "old" "new" true fail_if_exist no_storage_error (tt, []) 2
      = Ok (file_exist, "old"%string,
            mk_storage_error permission_denied
              (Z.of_nat (length (@nil file_entry))) op_stat, (w', log)) ∧
    Forall is_stat_event log.
Proof.
  apply (move_storage_fail_if_exist_stat_error (script_io destination_unreadable)
           slash_paths four_files "old" "new" true no_storage_error tt 2
           [] (drop 1 (entries four_files)) (mk_file_entry "a" 3 0 false)
           permission_denied).
  - intros w. vm_compute. discriminate.
  - reflexivity.
  - constructor.
  - reflexivity.
  - intros w. reflexivity.
  - vm_compute. discriminate.
Defined.

(** C10 as stated fails for the destination root: with a layout whose only
    file has an absolute path, a permission error on the probe of the root
    is followed by no probe of a file, and the directory check that comes
    next returns the fatal-disk-error status for it. *)
Lemma move_storage_fail_if_exist_stat_error_counterexample :
  stat_ans destination_unreadable (complete slash_paths "new") = permission_denied ∧
  move_storage (traced_io (script_io destination_unreadable)) slash_paths
    absolute_only "old" "new" false fail_if_exist no_storage_error (tt, []) 2
  = Ok (fatal_disk_error, "old"%string,
        mk_storage_error permission_denied (-1) op_stat,
        (tt, [ev_stat_file "new" permission_denied;
              ev_stat_file "new" permission_denied])) ∧
  ¬ (∃ ec' w',
       move_storage (traced_io (script_io destination_unreadable)) slash_paths
         absolute_only "old" "new" false fail_if_exist no_storage_error (tt, []) 2
       = Ok (file_exist, "old"%string, ec', w')).
Proof.
  split; [reflexivity|]. split; [by vm_compute|].
  intros (ec' & w' & Hrun). vm_compute in Hrun. discriminate.
Qed.

(** *** Moving the files *)

Section move_files.
Context {W : Type} (io : disk_io W) (a : answers).
Hypothesis Hf : follows io a.
Context (paths : path_ops) (flags : move_flags_t).
Context (save_path new_save_path : string).
Implicit Types (w : W) (l : list fs_event) (es : list file_entry).

Local Abbreviation fate_of := (fate a paths flags save_path new_save_path).
Local Abbreviation events_of := (fate_events a paths flags save_path new_save_path).

Lemma fate_failed_nonzero fe e : fate_of fe = fate_failed e → e ≠ 0.
Proof using Type.
  unfold fate. intros Hfate.
  repeat (destruct (fe_absolute _) || destruct (_ && _) || case_bool_decide);
    simplify_eq; try done.
  unfold invalid_argument, permission_denied in *. lia.
Qed.

(** The relocation of one file, by its fate. *)
Lemma move_files_step fe es i copied ret ec1 w l :
  ∃ w',
    move_files (traced_io io) paths flags save_path new_save_path (fe :: es)
      i 0 copied ret ec1 (w, l)
    = match fate_of fe with
      | fate_failed e =>
          mk_move_loop i e copied ret
            (mk_storage_error e (Z.of_nat i) op_rename) (w', l ++ events_of fe)
      | ft =>
          move_files (traced_io io) paths flags save_path new_save_path es
            (S i) 0
            (if bool_decide (ft = fate_copied) then <[i := true]> copied
             else copied)
            (if bool_decide (ft = fate_skipped) then after_skip ret else ret)
            ec1 (w', l ++ events_of fe)
      end.
Proof using Hf.
  cbn [move_files]. unfold fate_events, fate.
  destruct (fe_absolute fe) eqn:Habs.
  { exists w. by rewrite app_nil_r. }
  set (old_path := combine_path paths save_path (fe_path fe)).
  set (new_path := combine_path paths new_save_path (fe_path fe)).
  assert (∃ w1 l1,
    (if bool_decide (flags = dont_replace)
     then exists_ (traced_io io) new_path (w, l) else (false, (w, l)))
    = (bool_decide (flags = dont_replace) && exists_ans a new_path, (w1, l ++ l1)) ∧
    l1 = (if bool_decide (flags = dont_replace)
          then [ev_exists new_path (exists_ans a new_path)] else []))
    as (w1 & l1 & -> & Hl1).
  { case_bool_decide.
    - rewrite traced_exists, (follows_exists io a Hf). by eexists _, _.
    - exists w, []. by rewrite app_nil_r. }
  rewrite <- Hl1.
  destruct (bool_decide (flags = dont_replace) && exists_ans a new_path).
  { exists w1.
    by rewrite (bool_decide_false (fate_skipped = fate_copied)),
         (bool_decide_true (fate_skipped = fate_skipped)) by done. }
  rewrite traced_move_file, (follows_move io a Hf).
  set (m := move_ans a old_path new_path).
  set (w2 := snd (move_file io old_path new_path w1)).
  destruct (decide (m = no_such_file_or_directory)) as [Hm|Hm].
  { rewrite (bool_decide_true (m = no_such_file_or_directory)) by done.
    rewrite (bool_decide_true (_ ∨ _)) by (by right). cbv beta iota.
    rewrite (bool_decide_false (0 ≠ 0)) by naive_solver.
    exists w2.
    by rewrite (bool_decide_false (fate_moved = fate_copied)),
         (bool_decide_false (fate_moved = fate_skipped)), app_assoc by done. }
  rewrite (bool_decide_false (m = no_such_file_or_directory)) by done.
  destruct (decide (m = 0)) as [Hm0|Hm0].
  { rewrite (bool_decide_true (_ ∨ _)) by (by left).
    rewrite !(bool_decide_false (m ≠ 0)) by naive_solver. cbn [andb].
    cbv beta iota. rewrite !(bool_decide_false (m ≠ 0)) by naive_solver.
    exists w2. rewrite Hm0.
    by rewrite (bool_decide_false (fate_moved = fate_copied)),
         (bool_decide_false (fate_moved = fate_skipped)), app_assoc by done. }
  rewrite (bool_decide_false (_ ∨ _)) by (by intros [?|?]).
  rewrite (bool_decide_true (m ≠ 0)) by done. cbn [andb].
  destruct (decide (m = invalid_argument ∨ m = permission_denied)) as [Hm1|Hm1].
  { rewrite (bool_decide_true (_ ∨ _)) by done.
    assert (bool_decide (m ≠ invalid_argument)
            && bool_decide (m ≠ permission_denied) = false) as ->.
    { destruct Hm1 as [Hm1|Hm1]; rewrite Hm1; by vm_compute. }
    cbv beta iota. rewrite (bool_decide_true (m ≠ 0)) by done.
    exists w2. by rewrite <- app_assoc. }
  rewrite (bool_decide_false (_ ∨ _)) by done.
  rewrite !bool_decide_true by naive_solver. cbn [andb].
  rewrite traced_copy_file, (follows_copy io a Hf).
  set (c := copy_ans a old_path new_path).
  exists (snd (copy_file io old_path new_path w2)). cbv beta iota.
  destruct (decide (c = 0)) as [Hc|Hc].
  - rewrite !(bool_decide_true (c = 0)), (bool_decide_false (c ≠ 0))
      by naive_solver.
    rewrite (bool_decide_true (fate_copied = fate_copied)),
      (bool_decide_false (fate_copied = fate_skipped)) by done.
    rewrite Hc. by rewrite <- !app_assoc.
  - rewrite !(bool_decide_false (c = 0)), (bool_decide_true (c ≠ 0)) by done.
    by rewrite <- !app_assoc.
Qed.

(** The files that do not fail go through one after the other. *)
Lemma move_files_ok es i copied ret ec1 w l :
  Forall (λ fe, is_failed (fate_of fe) = false) es →
  ∃ w',
    move_files (traced_io io) paths flags save_path new_save_path es i 0
      copied ret ec1 (w, l)
    = mk_move_loop (i + length es) 0 (mark_copied (fate_of <$> es) i copied)
        (if bool_decide (fate_skipped ∈ fate_of <$> es) then after_skip ret
         else ret)
        ec1 (w', l ++ (es ≫= events_of)).
Proof using Hf.
  intros Hes. revert i copied ret w l.
  induction Hes as [|fe es Hfe _ IH]; intros i copied ret w l.
  - exists w. cbn. rewrite app_nil_r, Nat.add_0_r.
    by rewrite bool_decide_false by (by intros ?%elem_of_nil).
  - destruct (move_files_step fe es i copied ret ec1 w l) as [w1 ->].
    rewrite fmap_cons, bind_cons. cbn [mark_copied length].
    destruct (fate_of fe) eqn:Hfate; try done.
    all: edestruct IH as [w' ->]; exists w'; rewrite <- app_assoc;
      replace (S i + length es)%nat with (i + S (length es))%nat by lia;
      f_equal.
    all: repeat case_bool_decide; try done;
      try (unfold after_skip; by repeat case_bool_decide);
      repeat match goal with
      | H : _ ∈ _ :: _ |- _ => apply elem_of_cons in H as [?|?]
      | H : ¬ _ ∈ _ :: _ |- _ => rewrite elem_of_cons in H
      end; try done; naive_solver.
Qed.

(** The first file that fails stops the loop. *)
Lemma move_files_fail pre fe post e i copied ret ec1 w l :
  Forall (λ fe, is_failed (fate_of fe) = false) pre →
  fate_of fe = fate_failed e →
  ∃ w',
    move_files (traced_io io) paths flags save_path new_save_path
      (pre ++ fe :: post) i 0 copied ret ec1 (w, l)
    = mk_move_loop (i + length pre) e (mark_copied (fate_of <$> pre) i copied)
        (if bool_decide (fate_skipped ∈ fate_of <$> pre) then after_skip ret
         else ret)
        (mk_storage_error e (Z.of_nat (i + length pre)) op_rename)
        (w', l ++ (pre ≫= events_of) ++ events_of fe).
Proof using Hf.
  intros Hpre Hfail. revert i copied ret w l.
  induction Hpre as [|fe0 pre Hfe0 _ IH]; intros i copied ret w l.
  - cbn [app]. destruct (move_files_step fe post i copied ret ec1 w l) as [w1 ->].
    rewrite Hfail. exists w1. cbn. rewrite Nat.add_0_r.
    by rewrite bool_decide_false by (by intros ?%elem_of_nil).
  - cbn [app].
    destruct (move_files_step fe0 (pre ++ fe :: post) i copied ret ec1 w l)
      as [w1 ->].
    rewrite fmap_cons, bind_cons. cbn [mark_copied length].
    destruct (fate_of fe0) eqn:Hfate; try done.
    all: edestruct IH as [w' ->]; exists w'; rewrite <- !app_assoc;
      replace (S i + length pre)%nat with (i + S (length pre))%nat by lia;
      f_equal.
    all: repeat case_bool_decide; try done;
      try (unfold after_skip; by repeat case_bool_decide);
      repeat match goal with
      | H : _ ∈ _ :: _ |- _ => apply elem_of_cons in H as [?|?]
      | H : ¬ _ ∈ _ :: _ |- _ => rewrite elem_of_cons in H
      end; try done; naive_solver.
Qed.
End move_files.

(** *** The copied-files set, rollback and cleanup *)

Lemma mark_copied_replicate fates pre n :
  (length fates ≤ n)%nat →
  mark_copied fates (length pre) (pre ++ replicate n false)
  = pre ++ (copied_flag <$> fates) ++ replicate (n - length fates) false.
Proof.
  revert pre n. induction fates as [|ft fates IH]; intros pre n Hn.
  - simpl. by rewrite Nat.sub_0_r.
  - destruct n as [|n]; [simpl in Hn; lia|].
    cbn [mark_copied replicate length fmap list_fmap].
    assert ((if bool_decide (ft = fate_copied)
             then <[length pre := true]> (pre ++ false :: replicate n false)
             else pre ++ false :: replicate n false)
            = (pre ++ [copied_flag ft]) ++ replicate n false) as ->.
    { unfold copied_flag. case_bool_decide.
      - rewrite insert_app_r_alt, Nat.sub_diag by lia. simpl.
        by rewrite <- app_assoc.
      - by rewrite <- app_assoc. }
    replace (S (length pre)) with (length (pre ++ [copied_flag ft]))
      by (rewrite length_app; simpl; lia).
    rewrite IH by (simpl in Hn; lia).
    rewrite <- app_assoc. simpl. do 3 f_equal.
Qed.

Lemma set_insert_elem (x s : string) (l : list string) :
  x ∈ set_insert s l → x = s ∨ x ∈ l.
Proof.
  induction l as [|y l IH]; simpl.
  - intros ?%list_elem_of_singleton. by left.
  - destruct (String.compare s y).
    + by right.
    + intros [->|?]%elem_of_cons; [by left|by right].
    + intros [->|Hx]%elem_of_cons; [right; by left|].
      destruct (IH Hx) as [?|?]; [by left|right; by right].
Qed.

Lemma collect_subdirs_elem paths es subdirs s :
  s ∈ collect_subdirs paths es subdirs →
  s ∈ subdirs ∨
  ∃ fe, fe ∈ es ∧ fe_absolute fe = false ∧
        has_parent_path paths (fe_path fe) = true ∧
        s = parent_path paths (fe_path fe).
Proof.
  revert subdirs. induction es as [|fe es IH]; intros subdirs; simpl; [by left|].
  intros [Hs|(fe' & ? & ? & ? & ?)]%IH.
  - destruct (fe_absolute fe) eqn:Habs; [by left|].
    destruct (has_parent_path paths (fe_path fe)) eqn:Hparent; [|by left].
    apply set_insert_elem in Hs as [->|?]; [|by left].
    right. exists fe. repeat split; try done. by left.
  - right. exists fe'. repeat split; try done. by right.
Qed.

Section cleanup.
Context {W : Type} (io : disk_io W) (a : answers).
Hypothesis Hf : follows io a.
Context (paths : path_ops) (flags : move_flags_t).
Context (f : file_storage) (save_path new_save_path : string).
Implicit Types (w : W) (l : list fs_event) (es : list file_entry).

Local Abbreviation fate_of := (fate a paths flags save_path new_save_path).

(** The rollback moves back the processed files, last first, but for
    those with an absolute path and those that were copied. *)
Lemma rollback_moved_back processed :
  ∀ later rest w l,
    entries f = processed ++ later →
    ∃ w',
      rollback (traced_io io) paths f save_path new_save_path
        ((copied_flag ∘ fate_of <$> processed) ++ rest) (length processed) (w, l)
      = Ok (w', l ++ moved_back a paths flags save_path new_save_path processed).
Proof using Hf.
  induction processed as [|fe processed IH] using rev_ind;
    intros later rest w l Hes.
  - exists w. cbn. by rewrite app_nil_r.
  - rewrite length_app. cbn [length]. rewrite Nat.add_1_r. cbn [rollback].
    rewrite <- app_assoc in Hes. cbn [app] in Hes.
    assert (entries f !! length processed = Some fe) as ->
      by (by rewrite Hes, list_lookup_middle).
    assert ((copied_flag ∘ fate_of <$> processed ++ [fe]) ++ rest
            = (copied_flag ∘ fate_of <$> processed)
                ++ copied_flag (fate_of fe) :: rest) as ->
      by (by rewrite fmap_app, <- app_assoc).
    rewrite list_lookup_middle by (by rewrite length_fmap).
    assert (moved_back a paths flags save_path new_save_path (processed ++ [fe])
            = match fate_of fe with
              | fate_absolute | fate_copied => []
              | _ => [ev_move_file
                        (combine_path paths new_save_path (fe_path fe))
                        (combine_path paths save_path (fe_path fe))
                        (move_ans a
                           (combine_path paths new_save_path (fe_path fe))
                           (combine_path paths save_path (fe_path fe)))]
              end ++ moved_back a paths flags save_path new_save_path processed)
      as ->.
    { unfold moved_back. by rewrite reverse_snoc, bind_cons. }
    specialize (IH (fe :: later) (copied_flag (fate_of fe) :: rest)).
    destruct (fe_absolute fe) eqn:Habs.
    { assert (fate_of fe = fate_absolute) as Hfate
        by (unfold fate; by rewrite Habs).
      rewrite Hfate in *. by apply IH. }
    assert (fate_of fe ≠ fate_absolute) as Hna.
    { unfold fate. rewrite Habs.
      by repeat (destruct (_ && _) || case_bool_decide). }
    destruct (copied_flag (fate_of fe)) eqn:Hflag.
    { apply bool_decide_eq_true in Hflag. rewrite Hflag. by apply IH. }
    apply bool_decide_eq_false in Hflag.
    rewrite traced_move_file, (follows_move io a Hf).
    edestruct IH as [w' Hrun]; [done|]. exists w'. rewrite Hrun.
    rewrite <- app_assoc. do 3 f_equal.
    by destruct (fate_of fe).
Qed.

(** The cleanup removes the source of the copied files and of no other. *)
Lemma remove_copied_removed es :
  ∀ pre rest subdirs w l,
    ∃ w',
      remove_copied (traced_io io) paths save_path
        (pre ++ (copied_flag ∘ fate_of <$> es) ++ rest) es (length pre)
        subdirs (w, l)
      = Ok (collect_subdirs paths es subdirs,
            (w', l ++ removed_sources a paths flags save_path new_save_path es)).
Proof using Hf.
  induction es as [|fe es IH]; intros pre rest subdirs w l.
  - exists w. cbn. by rewrite app_nil_r.
  - cbn [remove_copied collect_subdirs]. unfold removed_sources.
    rewrite bind_cons, fmap_cons. cbn [app].
    rewrite list_lookup_middle by done.
    change ((copied_flag ∘ fate_of) fe) with (copied_flag (fate_of fe)).
    assert (pre ++ copied_flag (fate_of fe) :: (copied_flag ∘ fate_of <$> es) ++ rest
            = (pre ++ [copied_flag (fate_of fe)])
                ++ (copied_flag ∘ fate_of <$> es) ++ rest) as ->
      by (by rewrite <- app_assoc).
    replace (S (length pre)) with (length (pre ++ [copied_flag (fate_of fe)]))
      by (rewrite length_app; simpl; lia).
    destruct (fe_absolute fe) eqn:Habs.
    { assert (fate_of fe = fate_absolute) as ->
        by (unfold fate; by rewrite Habs).
      apply IH. }
    destruct (copied_flag (fate_of fe)) eqn:Hflag.
    + apply bool_decide_eq_true in Hflag. rewrite Hflag.
      rewrite traced_remove, (follows_remove io a Hf).
      edestruct IH as [w' ->]. exists w'. by rewrite <- app_assoc.
    + apply bool_decide_eq_false in Hflag.
      edestruct IH as [w' ->]. exists w'. do 3 f_equal.
      by destruct (fate_of fe).
Qed.
End cleanup.

(** *** Pruning the source directories *)

Section prune.
Context {W : Type} (io : disk_io W) (paths : path_ops).
Context (f : file_storage) (save_path : string).
Implicit Types (w : W) (l : list fs_event).

(** The loop that walks up from a directory ends when the directory lies
    below [save_path], no deeper than the turns it is given, and only
    removes directories on the way up. *)
Lemma remove_up_climbs fuel subdir err w l :
  climbs_to paths save_path fuel subdir = true →
  ∃ w' l',
    remove_up fuel (traced_io io) paths save_path subdir err (w, l)
      = Ok (w', l ++ l') ∧
    Forall (λ ev, ∃ k e,
              ev = ev_remove (Nat.iter k (parent_path paths) subdir) e) l'.
Proof.
  revert subdir err w l.
  induction fuel as [|fuel IH]; intros subdir err w l Hclimb;
    cbn [remove_up climbs_to] in *.
  - rewrite orb_false_r in Hclimb. apply bool_decide_eq_true in Hclimb.
    rewrite (bool_decide_false (subdir ≠ save_path)) by naive_solver.
    exists w, []. by rewrite app_nil_r.
  - destruct (bool_decide (subdir ≠ save_path) && bool_decide (err = 0)) eqn:Hgo.
    2:{ exists w, []. by rewrite app_nil_r. }
    apply andb_true_iff in Hgo as [Hne _]. apply bool_decide_eq_true in Hne.
    rewrite (bool_decide_false (subdir = save_path)) in Hclimb by done.
    rewrite traced_remove.
    destruct (IH (parent_path paths subdir) (fst (remove io subdir w))
                (snd (remove io subdir w))
                (l ++ [ev_remove subdir (fst (remove io subdir w))]) Hclimb)
      as (w' & l' & -> & Hl').
    exists w', (ev_remove subdir (fst (remove io subdir w)) :: l').
    rewrite <- app_assoc. split; [done|].
    constructor; [by exists 0%nat, (fst (remove io subdir w))|].
    eapply Forall_impl; [exact Hl'|].
    intros ev (k & e & ->). exists (S k), e. by rewrite Nat.iter_succ_r.
Qed.

Lemma remove_subdirs_climbs fuel subdirs w l :
  Forall (λ s, climbs_to paths save_path fuel (combine_path paths save_path s)
               = true ∧
               ∃ fe, fe ∈ entries f ∧ fe_absolute fe = false ∧
                     has_parent_path paths (fe_path fe) = true ∧
                     s = parent_path paths (fe_path fe)) subdirs →
  ∃ w' l',
    remove_subdirs fuel (traced_io io) paths save_path subdirs (w, l)
      = Ok (w', l ++ l') ∧
    Forall (is_dir_remove paths f save_path) l'.
Proof.
  intros Hsub. revert w l.
  induction Hsub as [|s subdirs [Hclimb (fe & Hin & Habs & Hparent & ->)] _ IH];
    intros w l; cbn [remove_subdirs].
  - exists w, []. by rewrite app_nil_r.
  - destruct (remove_up_climbs fuel _ 0 w l Hclimb) as (w1 & l1 & -> & Hl1).
    destruct (IH w1 (l ++ l1)) as (w' & l' & -> & Hl').
    exists w', (l1 ++ l'). rewrite app_assoc. split; [done|].
    apply Forall_app. split; [|done].
    eapply Forall_impl; [exact Hl1|].
    intros ev (k & e & ->). by exists fe, k, e.
Qed.

(** The directories collected from a layout whose directories lie below
    [save_path]. *)
Lemma dirs_below_collected fuel :
  dirs_below paths f save_path fuel = true →
  Forall (λ s, climbs_to paths save_path fuel (combine_path paths save_path s)
               = true ∧
               ∃ fe, fe ∈ entries f ∧ fe_absolute fe = false ∧
                     has_parent_path paths (fe_path fe) = true ∧
                     s = parent_path paths (fe_path fe))
         (collect_subdirs paths (entries f) []).
Proof.
  intros Hbelow. apply Forall_forall. intros s Hs.
  apply collect_subdirs_elem in Hs as [Hs|(fe & Hin & Habs & Hparent & ->)];
    [by apply elem_of_nil in Hs|].
  split; [|by exists fe].
  unfold dirs_below in Hbelow. rewrite forallb_forall in Hbelow.
  specialize (Hbelow fe (proj1 (list_elem_of_In _ _) Hin)).
  by rewrite Habs, Hparent in Hbelow.
Qed.
End prune.

Lemma mark_copied_fresh fates n :
  (length fates ≤ n)%nat →
  mark_copied fates 0 (replicate n false)
  = (copied_flag <$> fates) ++ replicate (n - length fates) false.
Proof. exact (mark_copied_replicate fates [] n). Qed.

(** *** The relocation as a whole *)

Section relocation.
Context {W : Type} (io : disk_io W) (a : answers).
Hypothesis Hf : follows io a.
Context (paths : path_ops) (f : file_storage) (flags : move_flags_t).
Context (save_path new_save_path : string).
Implicit Types (w : W) (l : list fs_event).

(** A pre-flight that passes makes the probes and, if the destination
    is missing, creates it. *)
Lemma preflight_passes w :
  preflight_ok a paths f new_save_path flags = true →
  ∃ w1 l1 w2,
    check_destination (traced_io io) paths f new_save_path flags (w, [])
      = (None, (w1, l1)) ∧
    ensure_destination (traced_io io) new_save_path (w1, l1)
      = (None, (w2, preflight_events a paths f new_save_path flags)).
Proof using Hf.
  unfold preflight_ok, preflight_events, check_destination, ensure_destination.
  intros [Hcheck Hensure]%andb_true_iff.
  assert (∃ w1 l1,
    (if bool_decide (flags = fail_if_exist)
     then let '(err, w0) := stat_file (traced_io io) new_save_path (w, []) in
          if bool_decide (err ≠ no_such_file_or_directory)
          then stat_files (traced_io io) paths new_save_path (entries f) 0 w0
          else (None, w0)
     else (None, (w, []))) = (None, (w1, l1)) ∧
    l1 = (if bool_decide (flags = fail_if_exist) then
            ev_stat_file new_save_path (stat_ans a new_save_path) ::
            (if bool_decide (stat_ans a new_save_path ≠ no_such_file_or_directory)
             then probe_events paths new_save_path (stat_ans a) (entries f)
             else [])
          else [])) as (w1 & l1 & -> & Hl1).
  { destruct (decide (flags = fail_if_exist)) as [Hflags|Hflags].
    2:{ rewrite !(bool_decide_false (flags = fail_if_exist)) by done.
        by eexists _, _. }
    rewrite !(bool_decide_true (flags = fail_if_exist)) by done.
    rewrite (bool_decide_false (flags ≠ fail_if_exist)) in Hcheck
      by naive_solver.
    rewrite traced_stat_file, (follows_stat io a Hf).
    destruct (decide (stat_ans a new_save_path = no_such_file_or_directory))
      as [Hroot|Hroot].
    { rewrite !(bool_decide_false (stat_ans a new_save_path ≠ _))
        by naive_solver.
      by eexists _, _. }
    rewrite !(bool_decide_true (stat_ans a new_save_path ≠ _)) by done.
    rewrite (bool_decide_false (stat_ans a new_save_path = _)) in Hcheck by done.
    cbn [orb] in Hcheck. rewrite forallb_forall in Hcheck.
    edestruct (stat_files_none io paths new_save_path (stat_ans a) (entries f) 0)
      as [w' ->]; [apply (follows_stat io a Hf)| |by eexists _, _].
    apply Forall_forall. intros fe Hfe%list_elem_of_In.
    specialize (Hcheck fe Hfe).
    apply orb_true_iff in Hcheck as [?|Hmiss]; [by left|].
    right. by apply bool_decide_eq_true in Hmiss. }
  exists w1, l1. rewrite <- Hl1.
  rewrite traced_stat_file, (follows_stat io a Hf).
  destruct (decide (stat_ans a new_save_path = no_such_file_or_directory))
    as [Hroot|Hroot].
  - rewrite !(bool_decide_true (stat_ans a new_save_path = _)) by done.
    rewrite (bool_decide_true (stat_ans a new_save_path = _)) in Hensure by done.
    apply bool_decide_eq_true in Hensure.
    rewrite traced_create_directories, (follows_mkdir io a Hf), Hensure.
    rewrite (bool_decide_false (0 ≠ 0)) by naive_solver.
    eexists. split; [done|]. by rewrite <- app_assoc.
  - rewrite !(bool_decide_false (stat_ans a new_save_path = _)) by done.
    rewrite (bool_decide_false (stat_ans a new_save_path = _)) in Hensure by done.
    apply bool_decide_eq_true in Hensure. rewrite Hensure.
    rewrite (bool_decide_false (0 ≠ 0)) by naive_solver.
    by eexists.
Qed.
End relocation.

(** C5: when the pre-flight has passed and the relocation fails, at a file
    whose move fails with an error that no copy makes up for, or at the
    partial-piece store, after the files [processed] went through,
    [move_storage] returns the fatal-disk-error status with the original
    save path, the error carrier naming the failure. Before it returns,
    and after the calls of the relocation, it moves the processed files
    back from the destination to the source, the last one first, leaving
    out the files with an absolute path and the files that were copied;
    whatever these moves answer, the result is the same. *)
Theorem move_storage_rollback {W} (io : disk_io W) (a : answers)
    (paths : path_ops) (f : file_storage) (save_path destination_save_path : string)
    (pf : bool) (flags : move_flags_t) (ec0 : storage_error) (w : W) (fuel : nat)
    (processed : list file_entry) (e : error_code) (ec' : storage_error) :
  follows io a →
  preflight_ok a paths f (complete paths destination_save_path) flags = true →
  Forall (λ fe, is_failed (fate a paths flags save_path
                             (complete paths destination_save_path) fe) = false)
         processed →
  relocation_fails a paths flags save_path (complete paths destination_save_path)
    f pf processed e ec' →
  ∃ w',
    move_storage (traced_io io) paths f save_path destination_save_path pf
      flags ec0 (w, []) fuel
    = Ok (fatal_disk_error, save_path, ec',
          (w', preflight_events a paths f (complete paths destination_save_path) flags
               ++ (processed ≫= fate_events a paths flags save_path
                                  (complete paths destination_save_path))
               ++ failure_events a paths flags save_path
                    (complete paths destination_save_path) f processed
               ++ moved_back a paths flags save_path
                    (complete paths destination_save_path) processed)).
Proof.
  intros Hf Hpre Hok Hfail. unfold move_storage.
  set (new_save_path := complete paths destination_save_path) in *.
  destruct (preflight_passes io a Hf paths f flags new_save_path w Hpre)
    as (w1 & l1 & w2 & -> & ->).
  set (l2 := preflight_events a paths f new_save_path flags).
  destruct Hfail as [(fe & post & Hes & Hfate & ->)
                    |(-> & -> & <- & He & ->)].
  - rewrite Hes.
    destruct (move_files_fail io a Hf paths flags save_path new_save_path
                processed fe post e 0 (replicate (num_files f) false)
                no_error ec0 w2 l2 Hok Hfate) as [w3 ->].
    pose proof (fate_failed_nonzero a paths flags save_path new_save_path fe e Hfate)
      as He.
    cbn [ml_e ml_ec ml_w ml_copied_files ml_i]. unfold move_part_file.
    rewrite (bool_decide_false (e = 0)) by done. cbn [andb].
    rewrite (bool_decide_true (e ≠ 0)) by done.
    unfold num_files. rewrite Hes, length_app. cbn [length].
    rewrite mark_copied_fresh by (rewrite length_fmap; lia).
    rewrite <- list_fmap_compose. cbn [Nat.add].
    destruct (rollback_moved_back io a Hf paths flags f save_path new_save_path
                processed (fe :: post)
                (replicate (length processed + S (length post)
                            - length (fate a paths flags save_path new_save_path
                                        <$> processed)) false)
                w3 (l2 ++ (processed ≫= fate_events a paths flags save_path
                                          new_save_path)
                       ++ fate_events a paths flags save_path new_save_path fe)
                Hes) as [w' ->].
    exists w'. unfold failure_events.
    rewrite Hes, drop_app_length. by rewrite <- !app_assoc.
  - destruct (move_files_ok io a Hf paths flags save_path new_save_path
                (entries f) 0 (replicate (num_files f) false)
                no_error ec0 w2 l2 Hok) as [w3 ->].
    cbn [ml_e ml_ec ml_w ml_copied_files ml_i]. unfold move_part_file.
    rewrite (bool_decide_true (0 = 0)) by done. cbn [andb].
    rewrite traced_move_partfile, (follows_partfile io a Hf).
    rewrite !(bool_decide_true (partfile_ans a new_save_path ≠ 0)) by done.
    unfold num_files.
    rewrite mark_copied_fresh by (by rewrite length_fmap).
    rewrite <- list_fmap_compose. cbn [Nat.add].
    destruct (rollback_moved_back io a Hf paths flags f save_path new_save_path
                (entries f) []
                (replicate (length (entries f)
                            - length (fate a paths flags save_path new_save_path
                                        <$> entries f)) false)
                (snd (move_partfile io new_save_path w3))
                ((l2 ++ (entries f ≫= fate_events a paths flags save_path
                                         new_save_path))
                   ++ [ev_move_partfile new_save_path
                         (partfile_ans a new_save_path)]))
      as [w' ->]; [by rewrite app_nil_r|].
    exists w'. unfold failure_events.
    rewrite drop_all. by rewrite <- !app_assoc.
Qed.

(** The failure on file 2 of 4: files 0 and 1 are moved back, 1 first. *)
Lemma move_storage_rollback_witness :
  ∃ w',
    move_storage (traced_io (script_io (move_fails permission_denied)))
      slash_paths four_files "old" "new" true always_replace_files
      no_storage_error (tt, []) 2
    = Ok (fatal_disk_error, "old"%string,
          mk_storage_error permission_denied 2 op_rename,
          (w', [ev_stat_file "new" no_such_file_or_directory;
                ev_create_directories "new" 0;
                ev_move_file "old/a" "new/a" 0;
                ev_move_file "old/d/b" "new/d/b" 0;
                ev_move_file "old/d/c" "new/d/c" permission_denied;
                ev_move_file "new/d/b" "old/d/b" 0;
                ev_move_file "new/a" "old/a" 0])).
Proof.
  apply (move_storage_rollback (script_io (move_fails permission_denied))
           (move_fails permission_denied) slash_paths four_files "old" "new"
           true always_replace_files no_storage_error tt 2
           (take 2 (entries four_files)) permission_denied
           (mk_storage_error permission_denied 2 op_rename)).
  - apply script_io_follows.
  - reflexivity.
  - repeat constructor.
  - left. exists (mk_file_entry "d/c" 5 5 false), (drop 3 (entries four_files)).
    repeat split.
Defined.

(** A relocation in which no file fails, nor the partial-piece store:
    the status is "no error", or "need full check" when a file was
    skipped; the calls are those of the pre-flight, of the files in
    order, of the partial-piece store, the removal of the sources of the
    copied files, and the removal of directories of the source tree. *)
Lemma move_storage_success {W} (io : disk_io W) (a : answers)
    (paths : path_ops) (f : file_storage) (save_path destination_save_path : string)
    (pf : bool) (flags : move_flags_t) (ec0 : storage_error) (w : W) (fuel : nat) :
  follows io a →
  preflight_ok a paths f (complete paths destination_save_path) flags = true →
  Forall (λ fe, is_failed (fate a paths flags save_path
                             (complete paths destination_save_path) fe) = false)
         (entries f) →
  (pf = true → partfile_ans a (complete paths destination_save_path) = 0) →
  dirs_below paths f save_path fuel = true →
  ∃ w' prune,
    move_storage (traced_io io) paths f save_path destination_save_path pf
      flags ec0 (w, []) fuel
    = Ok (status_after (fate a paths flags save_path
                          (complete paths destination_save_path) <$> entries f),
          complete paths destination_save_path, ec0,
          (w', preflight_events a paths f (complete paths destination_save_path) flags
               ++ (entries f ≫= fate_events a paths flags save_path
                                  (complete paths destination_save_path))
               ++ partfile_events a (complete paths destination_save_path) pf
               ++ removed_sources a paths flags save_path
                    (complete paths destination_save_path) (entries f)
               ++ prune)) ∧
    Forall (is_dir_remove paths f save_path) prune.
Proof.
  intros Hf Hpre Hok Hpart Hbelow. unfold move_storage.
  set (new_save_path := complete paths destination_save_path) in *.
  destruct (preflight_passes io a Hf paths f flags new_save_path w Hpre)
    as (w1 & l1 & w2 & -> & ->).
  set (l2 := preflight_events a paths f new_save_path flags).
  destruct (move_files_ok io a Hf paths flags save_path new_save_path
              (entries f) 0 (replicate (num_files f) false)
              no_error ec0 w2 l2 Hok) as [w3 ->].
  cbn [ml_e ml_ec ml_w ml_copied_files ml_i ml_ret].
  assert (∃ w4,
    move_part_file (traced_io io) new_save_path pf 0 ec0
      (w3, l2 ++ (entries f ≫= fate_events a paths flags save_path new_save_path))
    = (0, ec0, (w4, l2 ++ (entries f ≫= fate_events a paths flags save_path
                                        new_save_path)
                       ++ partfile_events a new_save_path pf))) as [w4 ->].
  { unfold move_part_file, partfile_events.
    rewrite (bool_decide_true (0 = 0)) by done. cbn [andb].
    destruct pf.
    - rewrite traced_move_partfile, (follows_partfile io a Hf), Hpart by done.
      rewrite (bool_decide_false (0 ≠ 0)) by naive_solver.
      eexists. by rewrite <- app_assoc.
    - exists w3. by rewrite app_nil_r. }
  rewrite (bool_decide_false (0 ≠ 0)) by naive_solver.
  unfold num_files. rewrite mark_copied_fresh by (by rewrite length_fmap).
  rewrite <- list_fmap_compose.
  destruct (remove_copied_removed io a Hf paths flags save_path new_save_path
              (entries f) []
              (replicate (length (entries f)
                          - length (fate a paths flags save_path new_save_path
                                      <$> entries f)) false)
              [] w4
              (l2 ++ (entries f ≫= fate_events a paths flags save_path
                                     new_save_path)
                  ++ partfile_events a new_save_path pf)) as [w5 Hcommit].
  cbn [app length] in Hcommit. rewrite Hcommit. clear Hcommit.
  destruct (remove_subdirs_climbs io paths f save_path fuel
              (collect_subdirs paths (entries f) []) w5
              ((l2 ++ (entries f ≫= fate_events a paths flags save_path
                                      new_save_path)
                   ++ partfile_events a new_save_path pf)
                 ++ removed_sources a paths flags save_path new_save_path
                      (entries f)))
    as (w' & prune & -> & Hprune); [by apply dirs_below_collected|].
  exists w', prune. split; [|done].
  rewrite <- !app_assoc. unfold status_after, after_skip.
  by rewrite (bool_decide_true (no_error = no_error)) by done.
Qed.

(** C8: under the dont-replace policy, when the pre-flight has passed and
    no file nor the partial-piece store fails, [move_storage] returns the
    resolved new save path with the status "need full check" if the
    destination of some file with a non-absolute path exists, and "no
    error" otherwise. The calls are those of the pre-flight, then those of
    the files in order, then the partial-piece store, the removal of the
    sources of the copied files, and the pruning of source directories. A
    file with a non-absolute path whose destination exists is only probed
    and its source is not removed; any other one is probed and moved. *)
Theorem move_storage_dont_replace {W} (io : disk_io W) (a : answers)
    (paths : path_ops) (f : file_storage) (save_path destination_save_path : string)
    (pf : bool) (ec0 : storage_error) (w : W) (fuel : nat) :
  follows io a →
  preflight_ok a paths f (complete paths destination_save_path) dont_replace
    = true →
  Forall (λ fe, is_failed (fate a paths dont_replace save_path
                             (complete paths destination_save_path) fe) = false)
         (entries f) →
  (pf = true → partfile_ans a (complete paths destination_save_path) = 0) →
  dirs_below paths f save_path fuel = true →
  ∃ w' prune,
    move_storage (traced_io io) paths f save_path destination_save_path pf
      dont_replace ec0 (w, []) fuel
    = Ok (status_after (fate a paths dont_replace save_path
                          (complete paths destination_save_path) <$> entries f),
          complete paths destination_save_path, ec0,
          (w', preflight_events a paths f (complete paths destination_save_path)
                 dont_replace
               ++ (entries f ≫= fate_events a paths dont_replace save_path
                                  (complete paths destination_save_path))
               ++ partfile_events a (complete paths destination_save_path) pf
               ++ removed_sources a paths dont_replace save_path
                    (complete paths destination_save_path) (entries f)
               ++ prune)) ∧
    Forall (is_dir_remove paths f save_path) prune ∧
    (Exists (λ fe, fe_absolute fe = false ∧
                   exists_ans a (combine_path paths
                                   (complete paths destination_save_path)
                                   (fe_path fe)) = true) (entries f) →
     status_after (fate a paths dont_replace save_path
                     (complete paths destination_save_path) <$> entries f)
     = need_full_check) ∧
    ∀ fe, fe ∈ entries f → fe_absolute fe = false →
      let old_path := combine_path paths save_path (fe_path fe) in
      let new_path := combine_path paths (complete paths destination_save_path)
                        (fe_path fe) in
      if exists_ans a new_path then
        fate_events a paths dont_replace save_path
          (complete paths destination_save_path) fe
        = [ev_exists new_path true] ∧
        removed_sources a paths dont_replace save_path
          (complete paths destination_save_path) [fe] = []
      else
        ∃ rest,
          fate_events a paths dont_replace save_path
            (complete paths destination_save_path) fe
          = ev_exists new_path false
              :: ev_move_file old_path new_path (move_ans a old_path new_path)
              :: rest.
Proof.
  intros Hf Hpre Hok Hpart Hbelow.
  destruct (move_storage_success io a paths f save_path destination_save_path
              pf dont_replace ec0 w fuel Hf Hpre Hok Hpart Hbelow)
    as (w' & prune & Hrun & Hprune).
  set (new_save_path := complete paths destination_save_path) in *.
  exists w', prune. split; [done|]. split; [done|]. split.
  - intros (fe & Hin & Habs & Hex)%Exists_exists.
    unfold status_after. rewrite bool_decide_true; [done|].
    apply list_elem_of_fmap. exists fe. split; [|done].
    unfold fate. by rewrite Habs, Hex, bool_decide_true.
  - intros fe Hin Habs old_path new_path.
    destruct (exists_ans a new_path) eqn:Hex.
    + assert (fate a paths dont_replace save_path new_save_path fe = fate_skipped)
        as Hfate.
      { unfold fate. fold new_path. by rewrite Habs, Hex, bool_decide_true. }
      unfold removed_sources, fate_events. rewrite bind_cons, Hfate.
      fold new_path. by rewrite Hex, bool_decide_true.
    + unfold fate_events, fate. fold old_path new_path.
      rewrite Habs, Hex, !(bool_decide_true (dont_replace = _)) by done.
      cbn [andb]. repeat case_bool_decide; cbn [app]; by eexists.
Qed.

(** Four files, the destination of ["d/b"] is there: it stays where it
    is and the other three are moved. *)
Lemma move_storage_dont_replace_witness :
  ∃ w' prune,
    move_storage (traced_io (script_io one_file_present)) slash_paths
      four_files "old" "new" true dont_replace no_storage_error (tt, []) 2
    = Ok (need_full_check, "new"%string, no_storage_error,
          (w', [ev_stat_file "new" 0]
               ++ [ev_exists "new/a" false; ev_move_file "old/a" "new/a" 0;
                   ev_exists "new/d/b" true;
                   ev_exists "new/d/c" false; ev_move_file "old/d/c" "new/d/c" 0;
                   ev_exists "new/e/x/f" false;
                   ev_move_file "old/e/x/f" "new/e/x/f" 0]
               ++ [ev_move_partfile "new" 0]
               ++ []
               ++ prune)) ∧
    Forall (is_dir_remove slash_paths four_files "old") prune.
Proof.
  destruct (move_storage_dont_replace (script_io one_file_present)
              one_file_present slash_paths four_files "old" "new" true
              no_storage_error tt 2) as (w' & prune & Hrun & Hprune & _).
  - apply script_io_follows.
  - reflexivity.
  - repeat constructor.
  - reflexivity.
  - reflexivity.
  - exists w', prune. split; [exact Hrun|exact Hprune].
Defined.

(** *** The copy fallback *)

Section copy_fallback.
Context (a : answers) (paths : path_ops) (flags : move_flags_t).
Context (save_path new_save_path : string).
Implicit Types (es : list file_entry) (fe : file_entry).

Local Abbreviation fate_of := (fate a paths flags save_path new_save_path).
Local Abbreviation events_of := (fate_events a paths flags save_path new_save_path).

Lemma goes_clean_not_failed fe :
  goes_clean (fate_of fe) = true → is_failed (fate_of fe) = false.
Proof. by destruct (fate_of fe). Qed.

Lemma copied_flag_clean es :
  Forall (λ fe, goes_clean (fate_of fe) = true) es →
  copied_flag ∘ fate_of <$> es = replicate (length es) false.
Proof.
  induction 1 as [|fe es Hfe _ IH]; [done|].
  rewrite fmap_cons, IH. cbn. f_equal.
  unfold copied_flag. by destruct (fate_of fe).
Qed.

Lemma removed_sources_clean es :
  Forall (λ fe, goes_clean (fate_of fe) = true) es →
  removed_sources a paths flags save_path new_save_path es = [].
Proof.
  unfold removed_sources. induction 1 as [|fe es Hfe _ IH]; [done|].
  rewrite bind_cons, IH. by destruct (fate_of fe).
Qed.

Lemma fate_events_clean es :
  Forall (λ fe, goes_clean (fate_of fe) = true) es →
  Forall no_copy_no_remove (es ≫= events_of).
Proof.
  induction 1 as [|fe es Hfe _ IH]; [constructor|].
  rewrite bind_cons. apply Forall_app. split; [|done].
  unfold fate_events. destruct (fate_of fe); try done.
  all: case_bool_decide; by repeat constructor.
Qed.

Lemma preflight_events_quiet f :
  Forall no_copy_no_remove (preflight_events a paths f new_save_path flags).
Proof.
  assert (Forall no_copy_no_remove
            (probe_events paths new_save_path (stat_ans a) (entries f)))
    as Hprobes.
  { unfold probe_events.
    induction (filter _ (entries f)) as [|fe es IH]; [constructor|].
    rewrite bind_cons. by repeat constructor. }
  unfold preflight_events.
  repeat case_bool_decide; repeat (apply Forall_app; split);
    repeat (constructor; [done|]); try done; constructor.
Qed.

(** The fate of a file that is not skipped, whose move fails for a
    reason that lets the copy be tried, and whose copy succeeds. *)
Lemma fate_copied_intro fe m :
  fe_absolute fe = false →
  (flags = dont_replace →
   exists_ans a (combine_path paths new_save_path (fe_path fe)) = false) →
  move_ans a (combine_path paths save_path (fe_path fe))
             (combine_path paths new_save_path (fe_path fe)) = m →
  m ≠ 0 → m ≠ no_such_file_or_directory →
  m ≠ invalid_argument → m ≠ permission_denied →
  copy_ans a (combine_path paths save_path (fe_path fe))
             (combine_path paths new_save_path (fe_path fe)) = 0 →
  fate_of fe = fate_copied ∧
  events_of fe
  = probe_of a flags (combine_path paths new_save_path (fe_path fe))
    ++ [ev_move_file (combine_path paths save_path (fe_path fe))
          (combine_path paths new_save_path (fe_path fe)) m;
        ev_copy_file (combine_path paths save_path (fe_path fe))
          (combine_path paths new_save_path (fe_path fe)) 0].
Proof.
  intros Habs Hskip Hm Hm0 Hm1 Hm2 Hm3 Hc.
  assert (fate_of fe = fate_copied) as Hfate.
  { unfold fate. rewrite Habs, Hm, Hc.
    assert (bool_decide (flags = dont_replace)
            && exists_ans a (combine_path paths new_save_path (fe_path fe))
            = false) as ->.
    { case_bool_decide; [by rewrite Hskip|done]. }
    rewrite (bool_decide_false (m = 0 ∨ _)) by (by intros [?|?]).
    rewrite (bool_decide_false (m = invalid_argument ∨ _)) by (by intros [?|?]).
    by rewrite bool_decide_true. }
  split; [done|]. unfold fate_events, probe_of. rewrite Hfate, Hm, Hc.
  by rewrite (bool_decide_false (m = invalid_argument ∨ _)) by (by intros [?|?]).
Qed.
End copy_fallback.

(** C7, as the code has it: when the move of one file, which has a
    non-absolute path and is not skipped, fails with an error code other
    than "no such file or directory", "invalid argument" and "permission
    denied", its copy succeeds, every other file goes through without a
    copy, and the pre-flight and the partial-piece store succeed:
    [move_storage] copies that file to the destination, the copied-files
    set holds exactly the index of that file, the relocation succeeds, and
    the one file removed in the commit cleanup is the source of that file,
    the removals after it being those of source directories. *)
Theorem move_storage_copy_fallback {W} (io : disk_io W) (a : answers)
    (paths : path_ops) (f : file_storage) (save_path destination_save_path : string)
    (pf : bool) (flags : move_flags_t) (ec0 : storage_error) (w : W) (fuel : nat)
    (pre post : list file_entry) (fe : file_entry) (m : error_code) :
  let new_save_path := complete paths destination_save_path in
  let old_path := combine_path paths save_path (fe_path fe) in
  let new_path := combine_path paths new_save_path (fe_path fe) in
  follows io a →
  preflight_ok a paths f new_save_path flags = true →
  entries f = pre ++ fe :: post →
  fe_absolute fe = false →
  (flags = dont_replace → exists_ans a new_path = false) →
  move_ans a old_path new_path = m →
  m ≠ 0 → m ≠ no_such_file_or_directory →
  m ≠ invalid_argument → m ≠ permission_denied →
  copy_ans a old_path new_path = 0 →
  Forall (λ fe', goes_clean (fate a paths flags save_path new_save_path fe') = true)
         (pre ++ post) →
  (pf = true → partfile_ans a new_save_path = 0) →
  dirs_below paths f save_path fuel = true →
  (∀ w l,
     ml_copied_files
       (move_files (traced_io io) paths flags save_path new_save_path
          (entries f) 0 0 (replicate (num_files f) false) no_error ec0 (w, l))
     = <[length pre := true]> (replicate (num_files f) false)) ∧
  ∃ w' prune,
    move_storage (traced_io io) paths f save_path destination_save_path pf
      flags ec0 (w, []) fuel
    = Ok (status_after (fate a paths flags save_path new_save_path <$> entries f),
          new_save_path, ec0,
          (w', preflight_events a paths f new_save_path flags
               ++ (pre ≫= fate_events a paths flags save_path new_save_path)
               ++ (probe_of a flags new_path
                   ++ [ev_move_file old_path new_path m;
                       ev_copy_file old_path new_path 0])
               ++ (post ≫= fate_events a paths flags save_path new_save_path)
               ++ partfile_events a new_save_path pf
               ++ [ev_remove old_path (remove_ans a old_path)]
               ++ prune)) ∧
    status_after (fate a paths flags save_path new_save_path <$> entries f)
      ≠ fatal_disk_error ∧
    Forall no_copy_no_remove
      (preflight_events a paths f new_save_path flags
       ++ ((pre ++ post) ≫= fate_events a paths flags save_path new_save_path)
       ++ probe_of a flags new_path
       ++ partfile_events a new_save_path pf) ∧
    Forall (is_dir_remove paths f save_path) prune.
Proof.
  intros new_save_path old_path new_path Hf Hpre Hes Habs Hskip Hm Hm0 Hm1 Hm2
    Hm3 Hc Hclean Hpart Hbelow.
  destruct (fate_copied_intro a paths flags save_path new_save_path fe m
              Habs Hskip Hm Hm0 Hm1 Hm2 Hm3 Hc) as [Hfate Hevents].
  fold old_path new_path in Hevents.
  pose proof (proj1 (Forall_app _ _ _) Hclean) as [Hcpre Hcpost].
  assert (Forall (λ fe', is_failed (fate a paths flags save_path new_save_path fe')
                         = false) (entries f)) as Hok.
  { rewrite Hes. apply Forall_app. split; [|constructor].
    - eapply Forall_impl; [exact Hcpre|]. apply goes_clean_not_failed.
    - by rewrite Hfate.
    - eapply Forall_impl; [exact Hcpost|]. apply goes_clean_not_failed. }
  split.
  - intros w0 l0.
    destruct (move_files_ok io a Hf paths flags save_path new_save_path
                (entries f) 0 (replicate (num_files f) false) no_error ec0
                w0 l0 Hok) as [w1 ->].
    cbn [ml_copied_files]. unfold num_files.
    rewrite mark_copied_fresh by (by rewrite length_fmap).
    rewrite <- list_fmap_compose, length_fmap, Nat.sub_diag, app_nil_r.
    rewrite Hes, fmap_app, fmap_cons, !copied_flag_clean by done.
    rewrite length_app. cbn [length].
    rewrite replicate_add. cbn [replicate].
    rewrite insert_app_r_alt, length_replicate, Nat.sub_diag
      by (rewrite length_replicate; lia).
    cbn. do 2 f_equal. unfold compose, copied_flag.
    by rewrite Hfate, bool_decide_true.
  - destruct (move_storage_success io a paths f save_path destination_save_path
                pf flags ec0 w fuel Hf Hpre Hok Hpart Hbelow)
      as (w' & prune & Hrun & Hprune).
    fold new_save_path in Hrun.
    exists w', prune. split; [|split; [|split; [|done]]].
    + rewrite Hrun. do 3 f_equal.
      rewrite Hes, bind_app, bind_cons, Hevents.
      unfold removed_sources at 1. rewrite bind_app, bind_cons, Hfate.
      fold (removed_sources a paths flags save_path new_save_path pre).
      fold (removed_sources a paths flags save_path new_save_path post).
      rewrite !removed_sources_clean by done.
      fold old_path. cbn [app]. by rewrite <- !app_assoc.
    + unfold status_after. by case_bool_decide.
    + apply Forall_app; split; [apply preflight_events_quiet|].
      apply Forall_app; split; [by apply fate_events_clean|].
      apply Forall_app; split.
      * unfold probe_of. case_bool_decide; by repeat constructor.
      * unfold partfile_events. destruct pf; by repeat constructor.
Qed.

(** The move of ["d/c"] crosses volumes ([EXDEV]): it is copied, and its
    source is removed after the relocation. *)
Lemma move_storage_copy_fallback_witness :
  ∃ w' prune,
    move_storage (traced_io (script_io (move_fails EXDEV))) slash_paths
      four_files "old" "new" true always_replace_files no_storage_error
      (tt, []) 2
    = Ok (no_error, "new"%string, no_storage_error,
          (w', [ev_stat_file "new" no_such_file_or_directory;
                ev_create_directories "new" 0;
                ev_move_file "old/a" "new/a" 0;
                ev_move_file "old/d/b" "new/d/b" 0;
                ev_move_file "old/d/c" "new/d/c" EXDEV;
                ev_copy_file "old/d/c" "new/d/c" 0;
                ev_move_file "old/e/x/f" "new/e/x/f" 0;
                ev_move_partfile "new" 0;
                ev_remove "old/d/c" 0] ++ prune)) ∧
    Forall (is_dir_remove slash_paths four_files "old") prune.
Proof.
  destruct (move_storage_copy_fallback (script_io (move_fails EXDEV))
              (move_fails EXDEV) slash_paths four_files "old" "new" true
              always_replace_files no_storage_error tt 2
              (take 2 (entries four_files)) (drop 3 (entries four_files))
              (mk_file_entry "d/c" 5 5 false) EXDEV)
    as (_ & w' & prune & Hrun & _ & _ & Hprune).
  - apply script_io_follows.
  - reflexivity.
  - reflexivity.
  - reflexivity.
  - discriminate.
  - reflexivity.
  - discriminate.
  - discriminate.
  - discriminate.
  - discriminate.
  - reflexivity.
  - repeat constructor.
  - reflexivity.
  - reflexivity.
  - exists w', prune. split; [exact Hrun|exact Hprune].
Defined.

(** C7 as stated fails: when the move of ["d/c"] fails with "invalid
    argument", no copy is tried; the relocation is rolled back and the
    status is the fatal disk error. *)
Lemma move_storage_copy_fallback_counterexample :
  move_storage (traced_io (script_io (move_fails invalid_argument))) slash_paths
    four_files "old" "new" true always_replace_files no_storage_error
    (tt, []) 2
  = Ok (fatal_disk_error, "old"%string,
        mk_storage_error invalid_argument 2 op_rename,
        (tt, [ev_stat_file "new" no_such_file_or_directory;
              ev_create_directories "new" 0;
              ev_move_file "old/a" "new/a" 0;
              ev_move_file "old/d/b" "new/d/b" 0;
              ev_move_file "old/d/c" "new/d/c" invalid_argument;
              ev_move_file "new/d/b" "old/d/b" 0;
              ev_move_file "new/a" "old/a" 0])) ∧
  ¬ (∃ st path ec' w' log e,
       move_storage (traced_io (script_io (move_fails invalid_argument)))
         slash_paths four_files "old" "new" true always_replace_files
         no_storage_error (tt, []) 2
       = Ok (st, path, ec', (w', log)) ∧
       ev_copy_file "old/d/c" "new/d/c" e ∈ log).
Proof.
  split; [by vm_compute|].
  intros (st & path & ec' & w' & log & e & Hrun & Hcopy).
  vm_compute in Hrun. simplify_eq.
  repeat (apply elem_of_cons in Hcopy as [Hcopy|Hcopy]; [discriminate|]).
  by apply elem_of_nil in Hcopy.
Qed.

(** * Further properties of the code *)

(** ** The buffer helpers at their bounds *)

Lemma count_bufs_from_copy_bufs_from rest i size bytes target :
  (i + length rest ≤ length target)%nat →
  count_bufs_from rest size (S i) bytes
  = fst <$> copy_bufs_from rest i size bytes target.
Proof.
  revert i size target. induction rest as [|b rest IH]; intros i size target Hlen;
    simpl in *; [done|].
  rewrite decide_True by lia.
  case_bool_decide; [done|].
  apply IH. rewrite length_insert. lia.
Qed.

Lemma count_bufs_is_copy_bufs_count_aux bufs target bytes :
  bytes ≠ 0 → (length bufs ≤ length target)%nat →
  count_bufs bufs bytes = fst <$> copy_bufs bufs bytes target.
Proof.
  intros Hbytes Hlen. unfold count_bufs, copy_bufs.
  rewrite bool_decide_false by done.
  by apply count_bufs_from_copy_bufs_from.
Qed.

(** X1: for a byte count other than 0 and a target with room for the
    list, [count_bufs] is the count that [copy_bufs] returns, and both run
    off the list on the same inputs. *)
Theorem count_bufs_is_copy_bufs_count (bufs target : list iovec_t) (bytes : Z) :
  bytes ≠ 0 → (length bufs ≤ length target)%nat →
  count_bufs bufs bytes = fst <$> copy_bufs bufs bytes target.
Proof. apply count_bufs_is_copy_bufs_count_aux. Qed.

Lemma count_bufs_is_copy_bufs_count_witness :
  count_bufs [mk_iovec 100 4; mk_iovec 200 6] 7
  = fst <$> copy_bufs [mk_iovec 100 4; mk_iovec 200 6] 7
              [mk_iovec 0 0; mk_iovec 0 0].
Proof.
  apply (count_bufs_is_copy_bufs_count [mk_iovec 100 4; mk_iovec 200 6]
           [mk_iovec 0 0; mk_iovec 0 0] 7).
  - lia.
  - simpl. lia.
Defined.

(** X2: asked for no byte at all, [count_bufs] counts no element, while
    [copy_bufs] still writes one element, of length 0 at the base of the
    first buffer, and returns 1. *)
Theorem copy_bufs_zero_bytes (b : iovec_t) (bufs target : list iovec_t) :
  0 ≤ iov_len b ≤ INT_MAX → target ≠ [] →
  copy_bufs (b :: bufs) 0 target
    = Some (1%nat, <[0%nat := mk_iovec (iov_base b) 0]> target) ∧
  count_bufs (b :: bufs) 0 = Some 0%nat.
Proof.
  intros Hb Htarget. split; [|done]. unfold copy_bufs. simpl.
  destruct target as [|t target]; [done|]. rewrite decide_True by (simpl; lia).
  rewrite Z.add_0_l, !(to_int_id (iov_len b)) by (unfold INT_MIN; lia).
  rewrite bool_decide_true by lia. simpl.
  rewrite Z.sub_0_r, (to_int_id (iov_len b)) by (unfold INT_MIN; lia).
  rewrite Z.sub_diag. by rewrite to_size_t_id by (unfold INT_MAX; lia).
Qed.

Lemma copy_bufs_zero_bytes_witness :
  copy_bufs (mk_iovec 100 4 :: [mk_iovec 200 6]) 0 [mk_iovec 1 1; mk_iovec 2 2]
    = Some (1%nat, <[0%nat := mk_iovec (iov_base (mk_iovec 100 4)) 0]>
                     [mk_iovec 1 1; mk_iovec 2 2]) ∧
  count_bufs (mk_iovec 100 4 :: [mk_iovec 200 6]) 0 = Some 0%nat.
Proof.
  apply (copy_bufs_zero_bytes (mk_iovec 100 4) [mk_iovec 200 6]
           [mk_iovec 1 1; mk_iovec 2 2]).
  - simpl. unfold INT_MAX. lia.
  - discriminate.
Defined.

Lemma copy_bufs_from_some rest i size bytes target :
  is_Some (copy_bufs_from rest i size bytes target) ↔
  ∃ k, count_bufs_from rest size (S i) bytes = Some k ∧ (k ≤ length target)%nat.
Proof.
  revert i size target. induction rest as [|b rest IH]; intros i size target;
    simpl.
  - split; [by intros [? ?]|by intros (? & ? & ?)].
  - destruct (decide (i < length target)%nat) as [Hi|Hi].
    + case_bool_decide.
      * split; [intros _; exists (S i); split; [done|lia]|by eexists].
      * rewrite IH, length_insert. done.
    + split; [by intros [? ?]|]. intros (k & Hk & Hle).
      exfalso. clear IH.
      assert (∀ rest size c, count_bufs_from rest size c bytes = Some k → (c ≤ k)%nat)
        as Hmono.
      { clear. intros rest. induction rest as [|b rest IH]; intros size c; simpl;
          [done|].
        case_bool_decide; [intros [= ->]; lia|].
        intros Hk%IH. lia. }
      case_bool_decide; [simplify_eq; lia|]. apply Hmono in Hk. lia.
Qed.

(** X3: [copy_bufs] stays within its spans exactly when the elements that
    [count_bufs] counts exist and fit in the target. *)
Theorem copy_bufs_in_bounds (bufs target : list iovec_t) (bytes : Z) :
  bytes ≠ 0 →
  (is_Some (copy_bufs bufs bytes target) ↔
   ∃ k, count_bufs bufs bytes = Some k ∧ (k ≤ length target)%nat).
Proof.
  intros Hbytes. unfold copy_bufs, count_bufs.
  rewrite bool_decide_false by done. apply copy_bufs_from_some.
Qed.

Lemma copy_bufs_in_bounds_witness :
  is_Some (copy_bufs [mk_iovec 100 4; mk_iovec 200 6] 7 [mk_iovec 0 0]) ↔
  ∃ k, count_bufs [mk_iovec 100 4; mk_iovec 200 6] 7 = Some k
       ∧ (k ≤ length [mk_iovec 0 0])%nat.
Proof.
  apply (copy_bufs_in_bounds [mk_iovec 100 4; mk_iovec 200 6] [mk_iovec 0 0] 7).
  lia.
Defined.

Lemma buffers_run_off_from bufs size bytes i target :
  Forall (λ b, 0 ≤ iov_len b) bufs → 0 ≤ size →
  size + total_length bufs ≤ INT_MAX → size + total_length bufs < bytes →
  copy_bufs_from bufs i size bytes target = None ∧
  advance_bufs_from bufs size bytes = None ∧
  count_bufs_from bufs size (S i) bytes = None.
Proof.
  intros Hbufs. revert size i target.
  induction Hbufs as [|b bufs Hb Hbufs IH]; intros size i target Hsize Hmax Hlt;
    simpl in *; [done|].
  pose proof (total_length_nonneg _ Hbufs).
  rewrite (to_int_id (iov_len b)) by (unfold INT_MIN; lia).
  rewrite (to_int_id (size + iov_len b)) by (unfold INT_MIN; lia).
  rewrite bool_decide_false by lia.
  destruct (IH (size + iov_len b) (S i) (<[i:=b]> target)) as (-> & -> & ->);
    try lia.
  by destruct (decide _).
Qed.

(** X4: asked for more bytes than the list holds, [copy_bufs],
    [advance_bufs] and [count_bufs] all run off the end of the list. *)
Theorem buffers_run_off (bufs target : list iovec_t) (bytes : Z) :
  int_sized bufs → total_length bufs < bytes →
  copy_bufs bufs bytes target = None ∧
  advance_bufs bufs bytes = None ∧
  count_bufs bufs bytes = None.
Proof.
  intros [Hnn Hmax] Hlt. pose proof (total_length_nonneg _ Hnn).
  unfold copy_bufs, advance_bufs, count_bufs.
  rewrite bool_decide_false by lia.
  by apply buffers_run_off_from.
Qed.

Lemma buffers_run_off_witness :
  copy_bufs [mk_iovec 100 4; mk_iovec 200 6] 11 [mk_iovec 0 0; mk_iovec 0 0] = None ∧
  advance_bufs [mk_iovec 100 4; mk_iovec 200 6] 11 = None ∧
  count_bufs [mk_iovec 100 4; mk_iovec 200 6] 11 = None.
Proof.
  apply (buffers_run_off [mk_iovec 100 4; mk_iovec 200 6]
           [mk_iovec 0 0; mk_iovec 0 0] 11).
  - split; [repeat constructor; simpl; lia | simpl; unfold INT_MAX; lia].
  - simpl. lia.
Defined.

Lemma drop_bytes_add l n m :
  Forall (λ b, 0 ≤ iov_len b) l → 0 ≤ n → 0 ≤ m → n + m ≤ total_length l →
  drop_bytes (drop_bytes l n) m = drop_bytes l (n + m).
Proof.
  intros Hl. revert n m.
  induction Hl as [|b l Hb Hl IH]; intros n m Hn Hm Hle; simpl in *; [done|].
  pose proof (total_length_nonneg _ Hl).
  destruct (decide (n ≤ iov_len b)) as [Hnb|Hnb].
  - rewrite (bool_decide_true (n ≤ iov_len b)) by done. simpl.
    destruct (decide (m ≤ iov_len b - n)) as [Hmb|Hmb].
    + rewrite (bool_decide_true (m ≤ iov_len b - n)) by done.
      rewrite (bool_decide_true (n + m ≤ iov_len b)) by lia.
      f_equal. f_equal; lia.
    + rewrite (bool_decide_false (m ≤ iov_len b - n)) by done.
      rewrite (bool_decide_false (n + m ≤ iov_len b)) by lia.
      f_equal. lia.
  - rewrite (bool_decide_false (n ≤ iov_len b)) by done.
    rewrite (bool_decide_false (n + m ≤ iov_len b)) by lia.
    rewrite IH by lia. f_equal. lia.
Qed.

Lemma drop_bytes_nonempty l n :
  l ≠ [] → Forall (λ b, 0 ≤ iov_len b) l → n ≤ total_length l →
  drop_bytes l n ≠ [].
Proof.
  intros Hne Hl. revert n Hne.
  induction Hl as [|b l Hb Hl IH]; intros n Hne Hn; simpl in *; [done|].
  case_bool_decide; [done|].
  apply IH; [|lia]. intros ->. simpl in *. lia.
Qed.

(** X5: advancing a cursor by [n] bytes and then by [m] bytes is
    advancing it by [n + m] bytes: the same list of buffers comes out. *)
Theorem advance_bufs_twice (bufs : list iovec_t) (n m : Z) :
  int_sized bufs → bufs ≠ [] → 0 ≤ n → 0 ≤ m → n + m ≤ total_length bufs →
  ∃ cursor,
    advance_bufs bufs n = Some cursor ∧
    advance_bufs cursor m = advance_bufs bufs (n + m) ∧
    is_Some (advance_bufs bufs (n + m)).
Proof.
  intros Hsized Hne Hn Hm Hle. pose proof Hsized as [Hnn Hmax].
  exists (drop_bytes bufs n).
  pose proof (advance_bufs_drop bufs [] n Hsized Hne) as Hadv.
  rewrite !app_nil_r in Hadv. rewrite Hadv by lia. split; [done|].
  pose proof (advance_bufs_drop bufs [] (n + m) Hsized Hne) as Hboth.
  rewrite !app_nil_r in Hboth. rewrite Hboth by lia.
  split; [|by eexists].
  assert (int_sized (drop_bytes bufs n)) as Hsized1.
  { split; [apply drop_bytes_nonneg; [done|lia]|].
    rewrite drop_bytes_total by (first [done|lia]). lia. }
  pose proof (advance_bufs_drop (drop_bytes bufs n) [] m Hsized1) as Hsecond.
  rewrite !app_nil_r in Hsecond. rewrite Hsecond.
  - by rewrite drop_bytes_add by (first [done|lia]).
  - apply drop_bytes_nonempty; [done|done|lia].
  - rewrite drop_bytes_total by (first [done|lia]). lia.
Qed.

Lemma advance_bufs_twice_witness :
  ∃ cursor,
    advance_bufs [mk_iovec 100 4; mk_iovec 200 6] 4 = Some cursor ∧
    advance_bufs cursor 3 = advance_bufs [mk_iovec 100 4; mk_iovec 200 6] (4 + 3) ∧
    is_Some (advance_bufs [mk_iovec 100 4; mk_iovec 200 6] (4 + 3)).
Proof.
  apply (advance_bufs_twice [mk_iovec 100 4; mk_iovec 200 6] 4 3).
  - split; [repeat constructor; simpl; lia | simpl; unfold INT_MAX; lia].
  - discriminate.
  - lia.
  - lia.
  - simpl. lia.
Defined.

(** ** The assertion on the first copy of [readwritev] *)

Lemma total_length_zero l :
  Forall (λ b, 0 ≤ iov_len b) l → total_length l = 0 →
  Forall (λ b, iov_len b = 0) l.
Proof.
  induction 1 as [|b l Hb Hl IH]; intros Htot; simpl in *; [constructor|].
  pose proof (total_length_nonneg _ Hl).
  constructor; [lia|]. apply IH. lia.
Qed.

(** The slice of all the bytes of a list has as many elements as the list
    exactly when the last buffer of the list is not empty. *)
Lemma take_bytes_all_length l :
  Forall (λ b, 0 ≤ iov_len b) l → 0 < total_length l →
  (length (take_bytes l (total_length l)) = length l
   ↔ ∃ b, last l = Some b ∧ 0 < iov_len b).
Proof.
  induction 1 as [|b l Hb Hl IH]; intros Htot; simpl in *; [lia|].
  pose proof (total_length_nonneg _ Hl) as Hl0.
  case_bool_decide as Hstop.
  - assert (total_length l = 0) as Hzero by lia.
    destruct l as [|c l]; simpl.
    + split; [intros _; exists b; split; [done|lia]|done].
    + split; [done|]. intros (b' & Hlast & Hpos). exfalso.
      apply last_Some_elem_of in Hlast.
      pose proof (total_length_zero _ Hl Hzero) as Hzeros.
      rewrite Forall_forall in Hzeros. specialize (Hzeros _ Hlast). lia.
  - replace (iov_len b + total_length l - iov_len b) with (total_length l) by lia.
    simpl. destruct l as [|c l]; [simpl in *; lia|].
    change (last (b :: c :: l)) with (last (c :: l)). rewrite <- IH by lia.
    split; [by intros [= ?]|by intros ->].
Qed.

Lemma count_bufs_take live tail bytes :
  int_sized live → 0 < bytes ≤ total_length live →
  count_bufs (live ++ tail) bytes = Some (length (take_bytes live bytes)).
Proof.
  intros Hsized Hbytes.
  rewrite (count_bufs_is_copy_bufs_count_aux (live ++ tail) (live ++ tail))
    by (first [lia|done]).
  by rewrite copy_bufs_take by (first [done|rewrite length_app; lia]).
Qed.

(** X6: the assertion on the first copy, that [count_bufs] of the copy
    for the whole request is the number of buffers given, holds exactly
    for the buffer lists whose last buffer is not empty. *)
Theorem first_copy_counts_all_buffers (bufs : list iovec_t) (uninit : iovec_t) :
  int_sized bufs → 0 < total_length bufs →
  ∃ cnt current_buf,
    copy_bufs bufs (bufs_size bufs) (replicate (length bufs) uninit)
      = Some (cnt, current_buf) ∧
    (count_bufs current_buf (bufs_size bufs) = Some (length bufs)
     ↔ ∃ b, last bufs = Some b ∧ 0 < iov_len b).
Proof.
  intros Hsized Hpos. pose proof Hsized as [Hnn Hmax].
  rewrite bufs_size_id by done.
  set (tk := take_bytes bufs (total_length bufs)).
  exists (length tk), (tk ++ drop (length tk) (replicate (length bufs) uninit)).
  split.
  { replace (copy_bufs bufs) with (copy_bufs (bufs ++ []))
      by (by rewrite app_nil_r).
    by rewrite copy_bufs_take by (first [done|rewrite ?length_replicate; lia]). }
  assert (total_length tk = total_length bufs) as Htk
    by (apply take_bytes_total; [done|lia]).
  assert (int_sized tk) as Hsized'
    by (apply take_bytes_int_sized; [done|lia]).
  rewrite count_bufs_take by (first [done|lia]).
  rewrite <- Htk.
  assert (length (take_bytes tk (total_length tk)) = length tk) as ->.
  { apply take_bytes_all_length; [apply Hsized'|lia|].
    destruct (take_bytes_shape bufs (total_length bufs) Hnn)
      as (k & b & m & _ & Hm & Hshape); [lia|].
    exists (mk_iovec (iov_base b) m). subst tk. rewrite Hshape.
    split; [by rewrite last_snoc|simpl; lia]. }
  rewrite <- (take_bytes_all_length bufs) by (first [done|lia]).
  unfold tk. split; [by intros [= ?]|by intros ->].
Qed.

Lemma first_copy_counts_all_buffers_witness :
  ∃ cnt current_buf,
    copy_bufs [mk_iovec 100 4; mk_iovec 200 0]
      (bufs_size [mk_iovec 100 4; mk_iovec 200 0])
      (replicate (length [mk_iovec 100 4; mk_iovec 200 0]) (mk_iovec 7 7))
      = Some (cnt, current_buf) ∧
    (count_bufs current_buf (bufs_size [mk_iovec 100 4; mk_iovec 200 0])
       = Some (length [mk_iovec 100 4; mk_iovec 200 0])
     ↔ ∃ b, last [mk_iovec 100 4; mk_iovec 200 0] = Some b ∧ 0 < iov_len b).
Proof.
  apply (first_copy_counts_all_buffers [mk_iovec 100 4; mk_iovec 200 0]
           (mk_iovec 7 7)).
  - split; [repeat constructor; simpl; lia | simpl; unfold INT_MAX; lia].
  - simpl. lia.
Defined.

(** ** More on the vectored I/O engine *)

(** The ends of the files of a layout do not decrease with the index. *)
Lemma wf_entries_ends_monotone base es i j e e' :
  wf_entries base es = true → es !! j = Some e' → es !! i = Some e →
  (j ≤ i)%nat → fe_offset e' + fe_size e' ≤ fe_offset e + fe_size e.
Proof.
  revert base i j. induction es as [|e0 es IH]; intros base i j Hwf Hj Hi Hle;
    [done|].
  apply wf_entries_cons in Hwf as (Hoff & Hsz & Hwf).
  destruct j as [|j], i as [|i]; simplify_eq/=; try lia.
  - destruct (wf_entries_within _ _ _ _ Hwf Hi) as [? _].
    destruct (wf_entries_lookup _ _ _ _ Hwf Hi) as [? _]. lia.
  - eapply IH; [done..|lia].
Qed.

Section call_order.
Context (files : file_storage).
Hypothesis Hwf : wf_layout files = true.

Lemma call_chain_ends p live log p' live' :
  call_chain files p live log p' live' →
  Forall (λ c, ∃ e, entries files !! call_file c = Some e
                    ∧ p < fe_offset e + fe_size e) log.
Proof using Type.
  induction 1 as [|p live c log p' live' e n He Hin Hoff Hn Hpos Hbufs Hret _ IH];
    constructor.
  - exists e. split; [done|lia].
  - eapply Forall_impl; [exact IH|].
    intros c' (e' & ? & ?). exists e'. split; [done|lia].
Qed.

Lemma call_chain_live p live log p' live' :
  call_chain files p live log p' live' → log ≠ [] → 0 < total_length live.
Proof using Type. destruct 1; [done|lia]. Qed.

(** In a chain of full transfers the file index grows with every call. *)
Lemma call_chain_increasing p live log p' live' :
  call_chain files p live log p' live' →
  Forall (λ b, 0 ≤ iov_len b) live →
  ∀ i j ci cj, log !! i = Some ci → log !! j = Some cj → (i < j)%nat →
    (call_file ci < call_file cj)%nat.
Proof using Hwf.
  induction 1 as [|p live c log p' live' e n He Hin Hoff Hn Hpos Hbufs Hret Hrest IH];
    intros Hnn i j ci cj Hi Hj Hlt; [done|].
  destruct j as [|j]; [lia|]. simpl in Hj.
  destruct i as [|i]; simpl in Hi.
  - injection Hi as <-.
    assert (0 < total_length (drop_bytes live n)) as Hleft.
    { eapply call_chain_live; [exact Hrest|]. by intros ->. }
    rewrite drop_bytes_total in Hleft by (first [done|lia]).
    pose proof (call_chain_ends _ _ _ _ _ Hrest) as Hends.
    rewrite Forall_lookup in Hends.
    destruct (Hends _ _ Hj) as (e' & He' & Hend').
    destruct (decide (call_file c < call_file cj)%nat) as [|Hge]; [done|].
    pose proof (wf_entries_ends_monotone 0 _ (call_file c) (call_file cj) e e'
                  Hwf He' He ltac:(lia)).
    lia.
  - eapply (IH ltac:(apply drop_bytes_nonneg; [done|lia]) i j); [done..|lia].
Qed.
End call_order.

(** X7: with a file-op that transfers every request in full, the calls
    of [readwritev] go to files of growing index: no file is asked twice,
    whether or not the request fits in the layout. *)
Theorem readwritev_one_call_per_file {S} (op : fileop S) (uninit : iovec_t)
    (files : file_storage) (bufs : list iovec_t) (piece offset : Z)
    (ec : storage_error) (s : S) (fuel : nat) :
  wf_layout files = true →
  full_echo op → is_error ec = false →
  bufs ≠ [] → int_sized bufs →
  0 ≤ piece * piece_length files + offset < total_size files →
  (Z.to_nat (total_length bufs) ≤ fuel)%nat →
  ∃ ec' s' log,
    readwritev (traced op) uninit files bufs piece offset ec (s, []) fuel
      = Ok (total_length bufs, ec', (s', log)) ∧
    ∀ i j ci cj, log !! i = Some ci → log !! j = Some cj → (i < j)%nat →
      (call_file ci < call_file cj)%nat.
Proof.
  intros Hwf Hecho Hec Hne Hsized Hoff Hfuel.
  pose proof Hsized as [Hnn Hmax].
  pose proof (total_length_nonneg _ Hnn) as Htot.
  destruct (decide (total_length bufs = 0)) as [Hzero|Hpos].
  - exists ec, s, []. rewrite readwritev_zero by done.
    rewrite Hzero. split; [done|]. by intros i j ci cj Hi.
  - destruct (readwritev_echo_run op uninit files bufs piece offset ec s fuel)
      as (ec' & s' & log & p' & live' & Hrun & _ & Hchain & _);
      try done; try lia.
    exists ec', s', log. split; [done|].
    eapply call_chain_increasing; [done|exact Hchain|].
    apply take_bytes_nonneg; [done|lia].
Qed.

Lemma readwritev_one_call_per_file_witness :
  ∃ ec' s' log,
    readwritev (traced echo_op) (mk_iovec 0 0) example_layout
      [mk_iovec 100 2; mk_iovec 200 5] 0 1 no_storage_error (tt, []) 7
      = Ok (total_length [mk_iovec 100 2; mk_iovec 200 5], ec', (s', log)) ∧
    ∀ i j ci cj, log !! i = Some ci → log !! j = Some cj → (i < j)%nat →
      (call_file ci < call_file cj)%nat.
Proof.
  apply (readwritev_one_call_per_file echo_op (mk_iovec 0 0) example_layout
           [mk_iovec 100 2; mk_iovec 200 5] 0 1 no_storage_error tt 7).
  - reflexivity.
  - intros j fo bufs e s He. by exists e, s.
  - reflexivity.
  - discriminate.
  - split; [repeat constructor; simpl; lia | simpl; unfold INT_MAX; lia].
  - vm_compute. split; [discriminate|reflexivity].
  - simpl. lia.
Defined.

(** X8: the test after a call is on the error carrier, whoever set it:
    when the carrier handed to [readwritev] already holds an error and the
    file-op leaves the carrier as it finds it, [readwritev] returns [-1]
    after its first call, whatever that call transferred. *)
Theorem readwritev_stale_error {S} (op : fileop S) (uninit : iovec_t)
    (files : file_storage) (bufs : list iovec_t) (piece offset : Z)
    (ec0 : storage_error) (s : S) (fuel : nat) :
  wf_layout files = true →
  (∀ j fo b e s, snd (fst (op j fo b e s)) = e) →
  is_error ec0 = true →
  bufs ≠ [] → int_sized bufs →
  0 ≤ piece * piece_length files + offset < total_size files →
  0 < total_length bufs → (0 < fuel)%nat →
  ∃ s' c,
    readwritev (traced op) uninit files bufs piece offset ec0 (s, []) fuel
      = Ok (-1, ec0, (s', [c])).
Proof.
  intros Hwf Hkeep Hec Hne Hsized Hoff Hpos Hfuel.
  destruct (readwritev_start (traced op) uninit files bufs piece offset ec0
              (s, []) fuel) as (st & -> & Hinv & Hbl & Hec0 & Hop); try done.
  destruct fuel as [|fuel]; [lia|]. simpl.
  rewrite bool_decide_true by lia.
  destruct (rw_iteration_spec (traced op) files Hwf _ _ _ st Hinv)
    as [[Hpast _]|(j & e & tmp' & Hj & Hin & Htmp' & ->)]; [lia|lia|].
  unfold traced at 1. rewrite Hec0, Hop. simpl.
  match goal with
  | |- context [op ?j ?fo ?b ec0 s] =>
      pose proof (Hkeep j fo b ec0 s) as Hsame;
      destruct (op j fo b ec0 s) as [[r ec'] s'] eqn:Hcall
  end.
  simpl in Hsame. subst ec'. unfold rw_after_call. rewrite Hec.
  by eexists _, _.
Qed.

Lemma readwritev_stale_error_witness :
  ∃ s' c,
    readwritev (traced echo_op) (mk_iovec 0 0) example_layout
      [mk_iovec 100 2; mk_iovec 200 5] 0 1 (mk_storage_error 5 0 op_read)
      (tt, []) 7
      = Ok (-1, mk_storage_error 5 0 op_read, (s', [c])).
Proof.
  apply (readwritev_stale_error echo_op (mk_iovec 0 0) example_layout
           [mk_iovec 100 2; mk_iovec 200 5] 0 1 (mk_storage_error 5 0 op_read)
           tt 7).
  - reflexivity.
  - reflexivity.
  - reflexivity.
  - discriminate.
  - split; [repeat constructor; simpl; lia | simpl; unfold INT_MAX; lia].
  - vm_compute. split; [discriminate|reflexivity].
  - simpl. lia.
  - lia.
Defined.

Section bounded_positions.
Context {S : Type} (op : fileop S) (files : file_storage).
Hypothesis Hwf : wf_layout files = true.
Hypothesis Hbounded : bounded_transfer op.

(** With any file-op that keeps its contract, every call is issued at
    the global offset the bytes transferred so far lead to, and the value
    returned, when it is not [-1], is what the calls transferred or, at the
    end of the layout, the requested size. *)
Lemma rw_loop_bounded_positions size start fuel :
  ∀ live (st : rw_state (S * list file_op_call)),
    rw_inv files size start live st →
    (Z.to_nat (rw_bytes_left st) ≤ fuel)%nat →
    ∃ r ec' s' log,
      rw_loop fuel (traced op) files size st
        = Ok (r, ec', (s', snd (rw_op st) ++ log)) ∧
      (∀ pre c post, log = pre ++ c :: post →
         ∃ e, entries files !! call_file c = Some e ∧
              fe_offset e + call_offset c
                = start + (size - rw_bytes_left st) + sum_ret pre ∧
              0 ≤ call_offset c ∧
              call_offset c + total_length (call_bufs c) ≤ fe_size e ∧
              0 < total_length (call_bufs c) ∧
              0 ≤ sum_ret pre ∧
              sum_ret pre + total_length (call_bufs c) ≤ rw_bytes_left st) ∧
      (r = -1 ∨
       (0 ≤ sum_ret log ≤ rw_bytes_left st ∧
        (r = size - rw_bytes_left st + sum_ret log ∨
         (r = size ∧
          total_size files ≤ start + (size - rw_bytes_left st) + sum_ret log)))).
Proof using Hwf Hbounded.
  induction fuel as [|fuel IH]; intros live st Hinv Hfuel.
  - pose proof (inv_bounds _ _ _ _ _ Hinv) as [? ?].
    exists size, (rw_ec st), (fst (rw_op st)), [].
    rewrite rw_loop_done by lia. rewrite !app_nil_r. destruct (rw_op st).
    split; [done|]. split; [intros pre c post Hlog; by destruct pre|].
    right. simpl. split; [lia|]. left. lia.
  - pose proof (inv_bounds _ _ _ _ _ Hinv) as [? ?].
    simpl. case_bool_decide as Hbl.
    2:{ exists size, (rw_ec st), (fst (rw_op st)), [].
        rewrite !app_nil_r. destruct (rw_op st).
        split; [done|]. split; [intros pre c post Hlog; by destruct pre|].
        right. simpl. split; [lia|]. left. lia. }
    pose proof (rw_inv_int_sized _ _ _ _ _ Hinv) as Hsized.
    pose proof (inv_total _ _ _ _ _ Hinv) as Htot.
    destruct (rw_iteration_spec (traced op) files Hwf size start live st Hinv)
      as [[Hpast ->]|(j & e & tmp' & Hj & Hin & Htmp' & ->)]; [lia|..].
    { exists size, (rw_ec st), (fst (rw_op st)), [].
      rewrite !app_nil_r. destruct (rw_op st).
      split; [done|]. split; [intros pre c post Hlog; by destruct pre|].
      right. simpl. split; [lia|]. right. split; [done|lia]. }
    set (n := Z.min (rw_bytes_left st)
                (fe_offset e + fe_size e - (start + (size - rw_bytes_left st)))).
    assert (0 < n ≤ total_length live) as Hn by lia.
    assert (total_length (take_bytes live n) = n) as Hreq
      by (apply take_bytes_total; [apply Hsized|lia]).
    unfold traced at 1.
    destruct (op j (start + (size - rw_bytes_left st) - fe_offset e)
                (take_bytes live n) (rw_ec st) (fst (rw_op st)))
      as [[r ec'] s'] eqn:Hop.
    set (c := mk_call j (start + (size - rw_bytes_left st) - fe_offset e)
                (take_bytes live n) r ec').
    assert (∀ pre c' post, [c] = pre ++ c' :: post →
              ∃ e, entries files !! call_file c' = Some e ∧
                fe_offset e + call_offset c'
                  = start + (size - rw_bytes_left st) + sum_ret pre ∧
                0 ≤ call_offset c' ∧
                call_offset c' + total_length (call_bufs c') ≤ fe_size e ∧
                0 < total_length (call_bufs c') ∧
                0 ≤ sum_ret pre ∧
                sum_ret pre + total_length (call_bufs c') ≤ rw_bytes_left st)
      as Hfirst.
    { intros pre c' post Hlog.
      destruct pre as [|c1 pre]; [|by destruct pre].
      injection Hlog as <- _. exists e. simpl. rewrite Hreq.
      repeat split; first [done|lia]. }
    destruct (is_error ec') eqn:Hec'.
    { exists (-1), ec', s', [c]. unfold rw_after_call. rewrite Hec'.
      split; [done|]. split; [done|by left]. }
    assert (int_sized (take_bytes live n)) as Hsized'
      by (apply take_bytes_int_sized; [done|lia]).
    pose proof (Hbounded _ _ _ _ _ _ _ _ Hsized' Hop Hec') as Hr.
    rewrite Hreq in Hr.
    destruct (rw_after_call_ok files size start live st j e tmp' r ec'
                (s', snd (rw_op st) ++ [c]) Hinv)
      as (st' & -> & Hinv' & Hbl' & Hec'' & Hop'); try done; try lia.
    case_bool_decide as Hr0.
    { exists (size - rw_bytes_left st), (set_file (Z.of_nat j) ec'), s', [c].
      split; [done|]. split; [done|].
      right. simpl. split; [lia|]. left. lia. }
    destruct (IH _ st' Hinv')
      as (r' & ec'' & s'' & log & -> & Hcalls & Hres); [lia|].
    exists r', ec'', s'', (c :: log).
    rewrite Hop'. simpl. rewrite <- app_assoc. simpl.
    split; [done|]. split.
    + intros pre c' post Hlog. destruct pre as [|c1 pre].
      * apply (Hfirst [] c' []). simpl in Hlog. by injection Hlog as -> _.
      * simpl in Hlog. injection Hlog as <- Hlog.
        destruct (Hcalls pre c' post Hlog) as (e' & ? & ? & ? & ? & ? & ? & ?).
        exists e'. simpl. repeat split; first [done|lia].
    + destruct Hres as [?|[? [?|[? ?]]]]; [by left|right..].
      * split; [lia|]. left. lia.
      * split; [lia|]. right. split; [done|lia].
Qed.
End bounded_positions.



Lemma traced_bounded {S} (op : fileop S) :
  bounded_transfer op → bounded_transfer (traced op).
Proof.
  intros Hop j fo bufs e [s log] r e' s' Hsized. unfold traced. simpl.
  destruct (op j fo bufs e s) as [[r0 e0] s0] eqn:Hcall.
  intros [= <- <- _] He. by eapply Hop.
Qed.

Section same_run.
Context {S : Type} (op : fileop S) (files : file_storage).
Hypothesis Hwf : wf_layout files = true.
Hypothesis Hbounded : bounded_transfer op.

(** Two states of the loop that agree on what is left of the request,
    on the position, the error carrier and the file-op, and may differ in
    what lies behind the live part of the cursor and in the scratch array,
    give the same result. *)
Lemma rw_loop_same size start fuel :
  ∀ live (st1 st2 : rw_state S),
    rw_inv files size start live st1 → rw_inv files size start live st2 →
    rw_bytes_left st1 = rw_bytes_left st2 →
    rw_ec st1 = rw_ec st2 → rw_op st1 = rw_op st2 →
    rw_loop fuel op files size st1 = rw_loop fuel op files size st2.
Proof using Hwf Hbounded.
  induction fuel as [|fuel IH]; intros live st1 st2 Hinv1 Hinv2 Hbl Hec Hop;
    simpl; rewrite Hbl, Hec, Hop; [done|].
  case_bool_decide as Hpos; [|done].
  pose proof (rw_inv_int_sized _ _ _ _ _ Hinv1) as Hsized.
  pose proof (inv_total _ _ _ _ _ Hinv1) as Htot.
  pose proof (inv_bounds _ _ _ _ _ Hinv1) as [? ?].
  destruct (rw_iteration_spec op files Hwf size start live st1 Hinv1)
    as [[Hpast1 ->]|(j1 & e1 & tmp1 & Hj1 & Hin1 & Htmp1 & ->)]; [lia| |];
  destruct (rw_iteration_spec op files Hwf size start live st2 Hinv2)
    as [[Hpast2 ->]|(j2 & e2 & tmp2 & Hj2 & Hin2 & Htmp2 & ->)]; try lia.
  - by rewrite Hec, Hop.
  - destruct (wf_entries_within _ _ _ _ Hwf Hj2) as [_ ?].
    unfold total_size in Hpast1. lia.
  - destruct (wf_entries_within _ _ _ _ Hwf Hj1) as [_ ?].
    unfold total_size in Hpast2. lia.
  - rewrite <- Hbl in *.
    pose proof (find_file_unique 0 _ 0 _ _ _ Hwf Hj1 Hin1) as Hfind.
    rewrite (find_file_unique 0 _ 0 _ _ _ Hwf Hj2 Hin2) in Hfind.
    assert (j2 = j1) as -> by (simplify_eq/=; lia).
    assert (e2 = e1) as -> by congruence.
    rewrite <- Hec, <- Hop.
    set (n := Z.min (rw_bytes_left st1)
                (fe_offset e1 + fe_size e1 - (start + (size - rw_bytes_left st1)))).
    assert (0 < n ≤ total_length live) as Hn by lia.
    destruct (op j1 (start + (size - rw_bytes_left st1) - fe_offset e1)
                (take_bytes live n) (rw_ec st1) (rw_op st1))
      as [[r ec'] s'] eqn:Hcall.
    destruct (is_error ec') eqn:Hec'.
    { unfold rw_after_call. by rewrite Hec'. }
    assert (int_sized (take_bytes live n)) as Hsized'
      by (apply take_bytes_int_sized; [done|lia]).
    pose proof (Hbounded _ _ _ _ _ _ _ _ Hsized' Hcall Hec') as Hr.
    rewrite take_bytes_total in Hr by (first [apply Hsized|lia]).
    destruct (rw_after_call_ok files size start live st1 j1 e1 tmp1 r ec' s' Hinv1)
      as (st1' & -> & Hinv1' & Hbl1 & Hec1 & Hop1); try done; try lia.
    destruct (rw_after_call_ok files size start live st2 j1 e1 tmp2 r ec' s' Hinv2)
      as (st2' & Hafter & Hinv2' & Hbl2 & Hec2 & Hop2); try done; try lia.
    rewrite <- Hbl in Hafter. rewrite Hafter.
    case_bool_decide; [done|].
    apply (IH (drop_bytes live r)); try done; congruence.
Qed.
End same_run.

Lemma readwritev_on_replicate {S} (op : fileop S) uninit files bufs piece offset
    ec s fuel :
  readwritev op uninit files bufs piece offset ec s fuel
  = readwritev_on op (replicate (length bufs) uninit)
      (replicate (length bufs) uninit) files bufs piece offset ec s fuel.
Proof. done. Qed.

(** The loop variables at the first turn of the outer loop, whatever the
    two arrays hold. *)
Lemma readwritev_on_start {S} (op : fileop S) current_buf tmp_buf files bufs
    piece offset ec s fuel :
  wf_layout files = true → bufs ≠ [] → int_sized bufs →
  length current_buf = length bufs → length tmp_buf = length bufs →
  0 ≤ piece * piece_length files + offset < total_size files →
  0 < total_length bufs →
  ∃ st, readwritev_on op current_buf tmp_buf files bufs piece offset ec s fuel
          = rw_loop fuel op files (total_length bufs) st ∧
        rw_inv files (total_length bufs) (piece * piece_length files + offset)
          (take_bytes bufs (total_length bufs)) st ∧
        rw_bytes_left st = total_length bufs ∧ rw_ec st = ec ∧ rw_op st = s.
Proof.
  intros Hwf Hne Hsized Hcur Htmp Hoff Hsize. pose proof Hsized as [Hnn Hmax].
  unfold readwritev_on. rewrite bufs_size_id by done.
  unfold file_index_at_offset, file_offset.
  destruct (find_file_exists 0 (entries files) 0
              (piece * piece_length files + offset) Hwf) as [j Hfind];
    [unfold total_size in Hoff; lia|].
  rewrite Hfind. apply find_file_Some in Hfind as (k & e & -> & Hk & Hin).
  simpl. rewrite Hk. simpl.
  replace (copy_bufs bufs) with (copy_bufs (bufs ++ []))
    by (by rewrite app_nil_r).
  rewrite copy_bufs_take by (first [done|lia]).
  eexists. split; [done|].
  pose proof (take_bytes_length bufs (total_length bufs) Hnn ltac:(lia)).
  split; [|done]. split; simpl.
  - by eexists.
  - apply take_bytes_nonneg; [done|lia].
  - apply take_bytes_total; [done|lia].
  - lia.
  - lia.
  - exists e. split; [done|]. lia.
Qed.

Lemma readwritev_on_zero {S} (op : fileop S) current_buf tmp_buf files bufs
    piece offset ec s fuel :
  wf_layout files = true → bufs ≠ [] → int_sized bufs →
  length current_buf = length bufs →
  0 ≤ piece * piece_length files + offset < total_size files →
  total_length bufs = 0 →
  readwritev_on op current_buf tmp_buf files bufs piece offset ec s fuel
  = Ok (0, ec, s).
Proof.
  intros Hwf Hne Hsized Hcur Hoff Hzero.
  unfold readwritev_on. rewrite bufs_size_id, Hzero by done.
  unfold file_index_at_offset, file_offset.
  destruct (find_file_exists 0 (entries files) 0
              (piece * piece_length files + offset) Hwf) as [j Hfind];
    [unfold total_size in Hoff; lia|].
  rewrite Hfind. apply find_file_Some in Hfind as (k & e & -> & Hk & Hin).
  simpl. rewrite Hk. simpl.
  destruct bufs as [|b bufs]; [done|].
  apply int_sized_cons in Hsized as [Hb _].
  destruct (copy_bufs_zero b bufs current_buf Hb) as [[cnt cb] ->];
    [by destruct current_buf|].
  by rewrite rw_loop_done by (simpl; lia).
Qed.

(** X10: the two arrays [readwritev] allocates on the stack hold, slot
    by slot, whatever was there before; with any file-op that keeps its
    contract, neither the value returned, nor the error carrier, nor any
    call to the file-op (file, offset, buffers) depends on what the slots
    held: two runs on arbitrary contents end alike, and alike the run of
    [readwritev] with one descriptor in every slot. *)
Theorem readwritev_ignores_uninit {S} (op : fileop S)
    (current_buf tmp_buf current_buf' tmp_buf' : list iovec_t) (uninit : iovec_t)
    (files : file_storage) (bufs : list iovec_t) (piece offset : Z)
    (ec0 : storage_error) (s : S) (fuel : nat) :
  wf_layout files = true →
  bounded_transfer op →
  bufs ≠ [] → int_sized bufs →
  length current_buf = length bufs → length tmp_buf = length bufs →
  length current_buf' = length bufs → length tmp_buf' = length bufs →
  0 ≤ piece * piece_length files + offset < total_size files →
  (Z.to_nat (total_length bufs) ≤ fuel)%nat →
  ∃ r,
    readwritev_on (traced op) current_buf tmp_buf files bufs piece offset ec0
      (s, []) fuel = Ok r ∧
    readwritev_on (traced op) current_buf' tmp_buf' files bufs piece offset ec0
      (s, []) fuel = Ok r ∧
    readwritev (traced op) uninit files bufs piece offset ec0 (s, []) fuel
      = Ok r.
Proof.
  intros Hwf Hbounded Hne Hsized Hcur Htmp Hcur' Htmp' Hoff Hfuel.
  assert (∀ cur1 tmp1 cur2 tmp2,
    length cur1 = length bufs → length tmp1 = length bufs →
    length cur2 = length bufs → length tmp2 = length bufs →
    ∃ r,
      readwritev_on (traced op) cur1 tmp1 files bufs piece offset ec0
        (s, []) fuel = Ok r ∧
      readwritev_on (traced op) cur2 tmp2 files bufs piece offset ec0
        (s, []) fuel = Ok r) as Hsame; last first.
  { destruct (Hsame current_buf tmp_buf current_buf' tmp_buf')
      as (r & Hrun & Hrun'); try done.
    destruct (Hsame current_buf tmp_buf (replicate (length bufs) uninit)
                (replicate (length bufs) uninit))
      as (r0 & Hrun0 & Hrun0'); try done; try apply length_replicate.
    exists r. rewrite readwritev_on_replicate. repeat split; try done.
    congruence. }
  clear current_buf tmp_buf current_buf' tmp_buf' Hcur Htmp Hcur' Htmp'.
  intros current_buf tmp_buf current_buf' tmp_buf' Hcur Htmp Hcur' Htmp'.
  pose proof Hsized as [Hnn Hmax].
  pose proof (total_length_nonneg _ Hnn) as Htot.
  destruct (decide (total_length bufs = 0)) as [Hzero|Hpos].
  { exists (0, ec0, (s, [])). by rewrite !readwritev_on_zero by done. }
  destruct (readwritev_on_start (traced op) current_buf tmp_buf files bufs piece
              offset ec0 (s, []) fuel) as (st & -> & Hinv & Hbl & Hec0 & Hop);
    try done; try lia.
  destruct (readwritev_on_start (traced op) current_buf' tmp_buf' files bufs
              piece offset ec0 (s, []) fuel)
    as (st' & -> & Hinv' & Hbl' & Hec0' & Hop'); try done; try lia.
  destruct (rw_loop_bounded_positions op files Hwf Hbounded (total_length bufs)
              (piece * piece_length files + offset) fuel _ st Hinv)
    as (r & ec' & s' & log & Hrun & _); [lia|].
  exists (r, ec', (s', snd (rw_op st) ++ log)). split; [done|].
  rewrite <- Hrun. symmetry.
  eapply (rw_loop_same (traced op) files Hwf (traced_bounded op Hbounded));
    [done|done|congruence..].
Qed.

Lemma readwritev_ignores_uninit_witness :
  ∃ r,
    readwritev_on (traced (truncated_op [3; 0; 2; 0]))
      [mk_iovec 1 2; mk_iovec 3 4] [mk_iovec 5 6; mk_iovec 7 8] example_layout
      [mk_iovec 100 2; mk_iovec 200 5] 0 1 no_storage_error (tt, []) 7
      = Ok r ∧
    readwritev_on (traced (truncated_op [3; 0; 2; 0]))
      [mk_iovec 9 9; mk_iovec 0 1000] [mk_iovec (-1) 0; mk_iovec 42 42]
      example_layout
      [mk_iovec 100 2; mk_iovec 200 5] 0 1 no_storage_error (tt, []) 7
      = Ok r ∧
    readwritev (traced (truncated_op [3; 0; 2; 0])) (mk_iovec 0 0) example_layout
      [mk_iovec 100 2; mk_iovec 200 5] 0 1 no_storage_error (tt, []) 7
      = Ok r.
Proof.
  apply (readwritev_ignores_uninit (truncated_op [3; 0; 2; 0])
           [mk_iovec 1 2; mk_iovec 3 4] [mk_iovec 5 6; mk_iovec 7 8]
           [mk_iovec 9 9; mk_iovec 0 1000] [mk_iovec (-1) 0; mk_iovec 42 42]
           (mk_iovec 0 0) example_layout [mk_iovec 100 2; mk_iovec 200 5]
           0 1 no_storage_error tt 7).
  - reflexivity.
  - apply truncated_op_bounded.
  - discriminate.
  - split; [repeat constructor; simpl; lia | simpl; unfold INT_MAX; lia].
  - reflexivity.
  - reflexivity.
  - reflexivity.
  - reflexivity.
  - vm_compute. split; [discriminate|reflexivity].
  - simpl. lia.
Defined.


(** ** More on the storage relocation engine *)

(** *** Whatever the disk does *)

Section any_disk.
Context {W : Type} (io : disk_io W) (paths : path_ops).
Implicit Types (w : W) (es : list file_entry).

Lemma stat_files_found new_save_path es i w j err w' :
  stat_files io paths new_save_path es i w = (Some (j, err), w') →
  (i ≤ j < i + length es)%nat ∧ err ≠ no_such_file_or_directory.
Proof.
  revert i w. induction es as [|fe es IH]; intros i w Hrun; simpl in *; [done|].
  destruct (fe_absolute fe).
  { apply IH in Hrun. lia. }
  destruct (stat_file io _ w) as [err0 w0].
  case_bool_decide.
  - simplify_eq. split; [lia|done].
  - apply IH in Hrun. lia.
Qed.

Lemma check_destination_found f new_save_path flags w j err w' :
  check_destination io paths f new_save_path flags w = (Some (j, err), w') →
  flags = fail_if_exist ∧ (j < num_files f)%nat ∧
  err ≠ no_such_file_or_directory.
Proof.
  unfold check_destination. case_bool_decide; [|done].
  destruct (stat_file io new_save_path w) as [err0 w0].
  case_bool_decide; [|done].
  intros [? ?]%stat_files_found. unfold num_files. repeat split; [done|lia|done].
Qed.

Lemma ensure_destination_failed new_save_path w err operation w' :
  ensure_destination io new_save_path w = (Some (err, operation), w') →
  err ≠ 0 ∧ (operation = op_mkdir ∨ operation = op_stat).
Proof.
  unfold ensure_destination.
  destruct (stat_file io new_save_path w) as [err0 w0].
  case_bool_decide.
  - destruct (create_directories io new_save_path w0) as [err1 w1].
    case_bool_decide; [|done]. intros [= <- <- _]. split; [done|by left].
  - case_bool_decide; [|done]. intros [= <- <- _]. split; [done|by right].
Qed.

Lemma move_files_result flags save_path new_save_path es :
  ∀ i copied ret ec1 w,
    let ml := move_files io paths flags save_path new_save_path es i 0
                copied ret ec1 w in
    (ml_ret ml = ret ∨
     (ret = no_error ∧ ml_ret ml = need_full_check ∧ flags = dont_replace)) ∧
    ((ml_e ml = 0 ∧ ml_ec ml = ec1) ∨
     (ml_e ml ≠ 0 ∧
      ml_ec ml = mk_storage_error (ml_e ml) (Z.of_nat (ml_i ml)) op_rename ∧
      (i ≤ ml_i ml < i + length es)%nat)).
Proof.
  induction es as [|fe es IH]; intros i copied ret ec1 w; cbn [move_files].
  - simpl. split; [by left|by left].
  - cbv zeta. destruct (fe_absolute fe).
    { destruct (IH (S i) copied ret ec1 w) as [Hret [He|(? & ? & ?)]].
      - split; [done|by left].
      - split; [done|]. right. cbn [length]. repeat split; first [done|lia]. }
    set (old_path := combine_path paths save_path (fe_path fe)).
    set (new_path := combine_path paths new_save_path (fe_path fe)).
    assert (∃ present w0,
      (if bool_decide (flags = dont_replace) then exists_ io new_path w
       else (false, w)) = (present, w0) ∧
      (present = true → flags = dont_replace)) as (present & w0 & -> & Hpresent).
    { case_bool_decide.
      - destruct (exists_ io new_path w) as [present w0]. by eexists _, _.
      - by eexists _, _. }
    assert (∀ copied' w',
      let ml := move_files io paths flags save_path new_save_path es (S i) 0
                  copied' ret ec1 w' in
      (ml_ret ml = ret ∨
       (ret = no_error ∧ ml_ret ml = need_full_check ∧ flags = dont_replace)) ∧
      ((ml_e ml = 0 ∧ ml_ec ml = ec1) ∨
       (ml_e ml ≠ 0 ∧
        ml_ec ml = mk_storage_error (ml_e ml) (Z.of_nat (ml_i ml)) op_rename ∧
        (i ≤ ml_i ml < i + length (fe :: es))%nat))) as Hnext.
    { intros copied' w'.
      destruct (IH (S i) copied' ret ec1 w') as [Hret [He|(? & ? & ?)]].
      - split; [done|by left].
      - split; [done|]. right. cbn [length]. repeat split; first [done|lia]. }
    destruct present.
    { specialize (Hpresent eq_refl).
      destruct (IH (S i) copied
                  (if bool_decide (ret = no_error) then need_full_check else ret)
                  ec1 w0) as [Hret He].
      split.
      - case_bool_decide; [|done]. right. destruct Hret as [->|(? & ? & ?)]; done.
      - destruct He as [?|(? & ? & ?)]; [by left|].
        right. cbn [length]. repeat split; first [done|lia]. }
    destruct (move_file io old_path new_path w0) as [m w1].
    destruct (decide (m = no_such_file_or_directory)) as [Hm|Hm].
    { rewrite (bool_decide_true (m = _)) by done. cbv beta iota.
      rewrite (bool_decide_false (0 ≠ 0)) by (intros Hz; by apply Hz). apply Hnext. }
    rewrite (bool_decide_false (m = _)) by done.
    destruct (bool_decide (m ≠ 0) && bool_decide (m ≠ invalid_argument)
              && bool_decide (m ≠ permission_denied)) eqn:Hfallback.
    + destruct (copy_file io old_path new_path w1) as [c w2]. cbv beta iota.
      destruct (decide (c = 0)) as [->|Hc].
      * rewrite (bool_decide_false (0 ≠ 0)) by (intros Hz; by apply Hz). apply Hnext.
      * rewrite (bool_decide_true (c ≠ 0)) by done. simpl.
        split; [by left|]. right. repeat split; first [done|lia].
    + cbv beta iota. destruct (decide (m = 0)) as [->|Hm0].
      * rewrite (bool_decide_false (0 ≠ 0)) by (intros Hz; by apply Hz). apply Hnext.
      * rewrite (bool_decide_true (m ≠ 0)) by done. simpl.
        split; [by left|]. right. repeat split; first [done|lia].
Qed.

(** The relocation as a whole, whatever the disk does. *)
Lemma move_storage_result f save_path destination_save_path pf flags ec0 w fuel
    st path ec' w' :
  move_storage io paths f save_path destination_save_path pf flags ec0 w fuel
    = Ok (st, path, ec', w') →
  match st with
  | no_error => path = complete paths destination_save_path ∧ ec' = ec0
  | need_full_check =>
      path = complete paths destination_save_path ∧ ec' = ec0 ∧
      flags = dont_replace
  | file_exist =>
      path = save_path ∧ flags = fail_if_exist ∧
      ec ec' ≠ no_such_file_or_directory ∧
      0 ≤ file ec' < Z.of_nat (num_files f) ∧ operation ec' = op_stat
  | fatal_disk_error =>
      path = save_path ∧ ec ec' ≠ 0 ∧
      ((file ec' = -1 ∧ (operation ec' = op_mkdir ∨ operation ec' = op_stat
                         ∨ operation ec' = op_partfile_move)) ∨
       (0 ≤ file ec' < Z.of_nat (num_files f) ∧ operation ec' = op_rename))
  end.
Proof.
  unfold move_storage.
  set (new_save_path := complete paths destination_save_path).
  destruct (check_destination io paths f new_save_path flags w)
    as [[[j err]|] w1] eqn:Hcheck.
  { apply check_destination_found in Hcheck as (? & ? & ?).
    intros [= <- <- <- <-]. simpl. repeat split; first [done|lia]. }
  destruct (ensure_destination io new_save_path w1)
    as [[[err operation]|] w2] eqn:Hensure.
  { apply ensure_destination_failed in Hensure as (? & Hop).
    intros [= <- <- <- <-]. simpl. repeat split; try done.
    left. split; [done|]. destruct Hop; [by left|right; by left]. }
  pose proof (move_files_result flags save_path new_save_path (entries f) 0
                (replicate (num_files f) false) no_error ec0 w2) as Hml.
  cbv zeta in Hml.
  destruct (move_files io paths flags save_path new_save_path (entries f) 0 0
              (replicate (num_files f) false) no_error ec0 w2)
    as [i e copied ret ec1 w3].
  cbn [ml_e ml_ec ml_w ml_copied_files ml_i ml_ret] in *.
  destruct Hml as [Hret He].
  assert (∀ w4 r,
    match remove_copied io paths save_path copied (entries f) 0 [] w4 with
    | Ok (subdirs, w5) =>
        match remove_subdirs fuel io paths save_path subdirs w5 with
        | Ok w6 => Ok (ret, new_save_path, ec0, w6)
        | Undefined => Undefined
        | OutOfFuel => OutOfFuel
        end
    | Undefined => Undefined
    | OutOfFuel => OutOfFuel
    end = Ok (st, path, ec', r) →
    match st with
    | no_error => path = new_save_path ∧ ec' = ec0
    | need_full_check => path = new_save_path ∧ ec' = ec0 ∧ flags = dont_replace
    | _ => False
    end) as Hcommit.
  { intros w4 r.
    destruct (remove_copied io paths save_path copied (entries f) 0 [] w4)
      as [[subdirs w5]| |]; [|done..].
    destruct (remove_subdirs fuel io paths save_path subdirs w5); [|done..].
    intros [= <- <- <- <-]. by destruct Hret as [->|(_ & -> & ?)]. }
  unfold move_part_file.
  destruct He as [[-> ->]|(He & -> & Hi)].
  - rewrite (bool_decide_true (0 = 0)) by done. cbn [andb].
    destruct pf.
    + destruct (move_partfile io new_save_path w3) as [e1 w4].
      destruct (decide (e1 = 0)) as [->|He1].
      * rewrite !(bool_decide_false (0 ≠ 0)) by (intros Hz; by apply Hz).
        intros Hrun%Hcommit. by destruct st.
      * rewrite !(bool_decide_true (e1 ≠ 0)) by done.
        destruct (rollback io paths f save_path new_save_path copied i w4);
          [|done..].
        intros [= <- <- <- <-]. simpl. repeat split; try done.
        left. split; [done|]. right. by right.
    + rewrite (bool_decide_false (0 ≠ 0)) by (intros Hz; by apply Hz).
      intros Hrun%Hcommit. by destruct st.
  - rewrite (bool_decide_false (e = 0)) by done. cbn [andb].
    rewrite (bool_decide_true (e ≠ 0)) by done.
    destruct (rollback io paths f save_path new_save_path copied i w3);
      [|done..].
    intros [= <- <- <- <-]. simpl. repeat split; try done.
    right. unfold num_files. split; [lia|done].
Qed.
End any_disk.

Lemma copies_follow_moves_snoc l ev :
  copies_follow_moves l → is_copy_event ev = false →
  copies_follow_moves (l ++ [ev]).
Proof.
  intros Hl Hev pre src dst e post Heq.
  destruct post as [|x post _] using rev_ind.
  - apply app_inj_tail in Heq as [_ ->]. done.
  - rewrite app_comm_cons, app_assoc in Heq.
    apply app_inj_tail in Heq as [Heq _]. by eapply Hl.
Qed.

Lemma copies_follow_moves_app l seg :
  copies_follow_moves l → Forall (λ ev, is_copy_event ev = false) seg →
  copies_follow_moves (l ++ seg).
Proof.
  intros Hl Hseg. revert l Hl.
  induction Hseg as [|ev seg Hev _ IH]; intros l Hl; [by rewrite app_nil_r|].
  rewrite cons_middle, app_assoc. apply IH. by apply copies_follow_moves_snoc.
Qed.

Lemma copies_follow_moves_copy l src dst m c :
  copies_follow_moves l → copy_fallback_error m →
  copies_follow_moves (l ++ [ev_move_file src dst m; ev_copy_file src dst c]).
Proof.
  intros Hl Hm pre src' dst' e post Heq.
  destruct post as [|x post _] using rev_ind.
  - change [ev_move_file src dst m; ev_copy_file src dst c]
      with ([ev_move_file src dst m] ++ [ev_copy_file src dst c]) in Heq.
    rewrite app_assoc in Heq.
    apply app_inj_tail in Heq as [<- [= <- <- <-]]. by exists l, m.
  - change [ev_move_file src dst m; ev_copy_file src dst c]
      with ([ev_move_file src dst m] ++ [ev_copy_file src dst c]) in Heq.
    rewrite app_comm_cons, !app_assoc in Heq.
    apply app_inj_tail in Heq as [Heq _].
    eapply (copies_follow_moves_snoc l (ev_move_file src dst m) Hl eq_refl).
    exact Heq.
Qed.

Lemma file_calls_copies flags old_path new_path l seg :
  copies_follow_moves l → file_calls flags old_path new_path seg →
  copies_follow_moves (l ++ seg).
Proof.
  intros Hl (probe & rest & -> & Hprobe & Hrest).
  rewrite app_assoc.
  assert (copies_follow_moves (l ++ probe)) as Hl'.
  { destruct Hprobe as [->|(_ & b & ->)]; [by rewrite app_nil_r|].
    by apply copies_follow_moves_snoc. }
  destruct Hrest as [->|[(m & ->)|(m & c & -> & Hm)]].
  - by rewrite app_nil_r.
  - by apply copies_follow_moves_snoc.
  - by apply copies_follow_moves_copy.
Qed.

Section any_disk_events.
Context {W : Type} (io : disk_io W) (paths : path_ops).
Implicit Types (w : W) (l : list fs_event) (es : list file_entry).

Lemma file_calls_all (P : fs_event → Prop) flags old_path new_path seg :
  (flags = dont_replace → ∀ p b, P (ev_exists p b)) →
  (∀ src dst e, P (ev_move_file src dst e)) →
  (∀ src dst e, P (ev_copy_file src dst e)) →
  file_calls flags old_path new_path seg → Forall P seg.
Proof.
  intros Hexists Hmove Hcopy (probe & rest & -> & Hprobe & Hrest).
  apply Forall_app. split.
  - destruct Hprobe as [->|(? & b & ->)]; [constructor|].
    repeat constructor. by apply Hexists.
  - destruct Hrest as [->|[(m & ->)|(m & c & -> & _)]]; by repeat constructor.
Qed.

(** One file of the loop of lines 256-298 on a traced disk: its calls,
    and then the next file or the end of the loop. *)
Lemma move_files_traced_step flags save_path new_save_path fe es i e copied
    ret ec1 w l :
  ∃ seg w',
    (fe_absolute fe = true → seg = []) ∧
    file_calls flags (combine_path paths save_path (fe_path fe))
      (combine_path paths new_save_path (fe_path fe)) seg ∧
    ((∃ e' copied' ret',
        move_files (traced_io io) paths flags save_path new_save_path
          (fe :: es) i e copied ret ec1 (w, l)
        = move_files (traced_io io) paths flags save_path new_save_path
            es (S i) e' copied' ret' ec1 (w', l ++ seg))
     ∨ ml_w (move_files (traced_io io) paths flags save_path new_save_path
               (fe :: es) i e copied ret ec1 (w, l)) = (w', l ++ seg)).
Proof.
  cbn [move_files]. cbv zeta.
  set (old_path := combine_path paths save_path (fe_path fe)).
  set (new_path := combine_path paths new_save_path (fe_path fe)).
  destruct (fe_absolute fe) eqn:Habs.
  { exists [], w. split; [done|]. split.
    - exists [], []. split; [done|]. split; by left.
    - left. rewrite app_nil_r. by eexists _, _, _. }
  assert (∃ present w0 probe,
    (if bool_decide (flags = dont_replace)
     then exists_ (traced_io io) new_path (w, l) else (false, (w, l)))
    = (present, (w0, l ++ probe)) ∧
    (probe = [] ∨ (flags = dont_replace ∧ ∃ b, probe = [ev_exists new_path b])))
    as (present & w0 & probe & -> & Hprobe).
  { case_bool_decide.
    - rewrite traced_exists. eexists _, _, _. split; [done|].
      right. split; [done|]. by eexists.
    - exists false, w, []. rewrite app_nil_r. split; [done|by left]. }
  destruct present.
  { exists probe, w0. split; [done|]. split.
    - exists probe, []. rewrite app_nil_r. split; [done|]. split; [done|by left].
    - left. by eexists _, _, _. }
  rewrite traced_move_file.
  set (m := fst (move_file io old_path new_path w0)).
  set (w1 := snd (move_file io old_path new_path w0)).
  destruct (decide (m = no_such_file_or_directory)) as [Hm|Hm].
  { rewrite (bool_decide_true (m = _)) by done. cbv beta iota.
    rewrite (bool_decide_false (0 ≠ 0)) by (intros Hz; by apply Hz).
    exists (probe ++ [ev_move_file old_path new_path m]), w1.
    split; [done|]. split.
    - exists probe, [ev_move_file old_path new_path m].
      split; [done|]. split; [done|]. right. left. by eexists.
    - left. rewrite app_assoc. by eexists _, _, _. }
  rewrite (bool_decide_false (m = _)) by done.
  destruct (bool_decide (m ≠ 0) && bool_decide (m ≠ invalid_argument)
            && bool_decide (m ≠ permission_denied)) eqn:Hfallback.
  - apply andb_true_iff in Hfallback as [[Hm0 Hm1]%andb_true_iff Hm2].
    apply bool_decide_eq_true in Hm0, Hm1, Hm2.
    rewrite traced_copy_file.
    set (c := fst (copy_file io old_path new_path w1)).
    set (w2 := snd (copy_file io old_path new_path w1)).
    cbv beta iota.
    exists (probe ++ [ev_move_file old_path new_path m;
                      ev_copy_file old_path new_path c]), w2.
    split; [done|]. split.
    + exists probe, [ev_move_file old_path new_path m;
                     ev_copy_file old_path new_path c].
      split; [done|]. split; [done|]. right. right. by eexists _, _.
    + rewrite <- !app_assoc. cbn [app].
      case_bool_decide; [by right|left; by eexists _, _, _].
  - cbv beta iota.
    exists (probe ++ [ev_move_file old_path new_path m]), w1.
    split; [done|]. split.
    + exists probe, [ev_move_file old_path new_path m].
      split; [done|]. split; [done|]. right. left. by eexists.
    + rewrite <- !app_assoc. clear Hfallback.
      case_bool_decide; [by right|left; by eexists _, _, _].
Qed.
End any_disk_events.

Section any_disk_run.
Context {W : Type} (io : disk_io W) (paths : path_ops).
Implicit Types (w : W) (l : list fs_event) (es : list file_entry).

Lemma move_files_copies flags save_path new_save_path es :
  ∀ i e copied ret ec1 w l,
    copies_follow_moves l →
    copies_follow_moves
      (snd (ml_w (move_files (traced_io io) paths flags save_path new_save_path
                    es i e copied ret ec1 (w, l)))).
Proof.
  induction es as [|fe es IH]; intros i e copied ret ec1 w l Hl; [done|].
  destruct (move_files_traced_step io paths flags save_path new_save_path fe es
              i e copied ret ec1 w l)
    as (seg & w' & _ & Hcalls & [(e' & copied' & ret' & ->)| ->]).
  - apply IH. by eapply file_calls_copies.
  - by eapply file_calls_copies.
Qed.

Section events.
Context (P : fs_event → Prop).

Lemma move_files_events flags save_path new_save_path es :
  (flags = dont_replace → ∀ p b, P (ev_exists p b)) →
  (∀ src dst e, P (ev_move_file src dst e)) →
  (∀ src dst e, P (ev_copy_file src dst e)) →
  ∀ i e copied ret ec1 w l,
    ∃ w' seg,
      ml_w (move_files (traced_io io) paths flags save_path new_save_path
              es i e copied ret ec1 (w, l)) = (w', l ++ seg) ∧
      Forall P seg.
Proof.
  intros Hexists Hmove Hcopy.
  induction es as [|fe es IH]; intros i e copied ret ec1 w l.
  - exists w, []. by rewrite app_nil_r.
  - destruct (move_files_traced_step io paths flags save_path new_save_path fe es
                i e copied ret ec1 w l)
      as (seg & w' & _ & Hcalls & [(e' & copied' & ret' & ->)| ->]).
    + destruct (IH (S i) e' copied' ret' ec1 w' (l ++ seg))
        as (w'' & seg' & -> & Hseg').
      exists w'', (seg ++ seg'). rewrite app_assoc. split; [done|].
      apply Forall_app. split; [|done]. by eapply file_calls_all.
    + exists w', seg. split; [done|]. by eapply file_calls_all.
Qed.

Lemma check_destination_events f new_save_path flags w l :
  (∀ p e, P (ev_stat_file p e)) →
  ∃ r w' seg,
    check_destination (traced_io io) paths f new_save_path flags (w, l)
      = (r, (w', l ++ seg)) ∧
    Forall P seg.
Proof.
  intros Hstat. unfold check_destination.
  case_bool_decide; [|exists None, w, []; by rewrite app_nil_r].
  rewrite traced_stat_file.
  case_bool_decide.
  - destruct (stat_files_only_stat io paths new_save_path (entries f) 0
                (snd (stat_file io new_save_path w))
                (l ++ [ev_stat_file new_save_path
                         (fst (stat_file io new_save_path w))]))
      as (r & w' & l' & -> & Hl' & _).
    exists r, w', (ev_stat_file new_save_path
                     (fst (stat_file io new_save_path w)) :: l').
    rewrite <- app_assoc. split; [done|].
    constructor; [done|]. eapply Forall_impl; [exact Hl'|].
    by intros ev (p & e & ->).
  - eexists None, _, _. split; [done|]. by repeat constructor.
Qed.

Lemma ensure_destination_events new_save_path w l :
  (∀ p e, P (ev_stat_file p e)) →
  (∀ p e, P (ev_create_directories p e)) →
  ∃ r w' seg,
    ensure_destination (traced_io io) new_save_path (w, l)
      = (r, (w', l ++ seg)) ∧
    Forall P seg.
Proof.
  intros Hstat Hmkdir. unfold ensure_destination.
  rewrite traced_stat_file.
  case_bool_decide.
  - rewrite traced_create_directories, <- app_assoc.
    case_bool_decide; eexists _, _, _; (split; [done|]); by repeat constructor.
  - case_bool_decide; eexists _, _, _; (split; [done|]); by repeat constructor.
Qed.

Lemma move_part_file_events new_save_path pf e ec1 w l :
  (pf = true → ∀ p e, P (ev_move_partfile p e)) →
  ∃ e' ec' w' seg,
    move_part_file (traced_io io) new_save_path pf e ec1 (w, l)
      = (e', ec', (w', l ++ seg)) ∧
    Forall P seg.
Proof.
  intros Hpart. unfold move_part_file.
  destruct (bool_decide (e = 0) && pf) eqn:Hgo.
  - apply andb_true_iff in Hgo as [_ ->].
    rewrite traced_move_partfile.
    eexists _, _, _, _. split; [done|]. repeat constructor. by apply Hpart.
  - exists e, ec1, w, []. by rewrite app_nil_r.
Qed.

Lemma rollback_events f save_path new_save_path copied i :
  (∀ src dst e, P (ev_move_file src dst e)) →
  ∀ w l w' l',
    rollback (traced_io io) paths f save_path new_save_path copied i (w, l)
      = Ok (w', l') →
    ∃ seg, l' = l ++ seg ∧ Forall P seg.
Proof.
  intros Hmove. induction i as [|i IH]; intros w l w' l'; cbn [rollback].
  - intros [= <- <-]. exists []. by rewrite app_nil_r.
  - destruct (entries f !! i) as [fe|]; [|done].
    destruct (copied !! i) as [flag|]; [|done].
    destruct (fe_absolute fe); [apply IH|].
    destruct flag; [apply IH|].
    rewrite traced_move_file. intros (seg & -> & Hseg)%IH.
    eexists (_ :: seg). rewrite <- app_assoc. split; [done|].
    by constructor.
Qed.

Lemma remove_copied_events save_path copied es :
  (∀ p e, P (ev_remove p e)) →
  ∀ i subdirs w l subdirs' w' l',
    remove_copied (traced_io io) paths save_path copied es i subdirs (w, l)
      = Ok (subdirs', (w', l')) →
    ∃ seg, l' = l ++ seg ∧ Forall P seg.
Proof.
  intros Hremove. induction es as [|fe es IH];
    intros i subdirs w l subdirs' w' l'; cbn [remove_copied].
  - intros [= <- <- <-]. exists []. by rewrite app_nil_r.
  - destruct (fe_absolute fe); [apply IH|].
    destruct (copied !! i) as [[|]|]; [|apply IH|done].
    rewrite traced_remove. intros (seg & -> & Hseg)%IH.
    eexists (_ :: seg). rewrite <- app_assoc. split; [done|].
    by constructor.
Qed.

Lemma remove_up_events fuel save_path :
  (∀ p e, P (ev_remove p e)) →
  ∀ subdir err w l w' l',
    remove_up fuel (traced_io io) paths save_path subdir err (w, l)
      = Ok (w', l') →
    ∃ seg, l' = l ++ seg ∧ Forall P seg.
Proof.
  intros Hremove. induction fuel as [|fuel IH];
    intros subdir err w l w' l'; cbn [remove_up].
  - destruct (_ && _); [done|].
    intros [= <- <-]. exists []. by rewrite app_nil_r.
  - destruct (_ && _).
    + rewrite traced_remove. intros (seg & -> & Hseg)%IH.
      eexists (_ :: seg). rewrite <- app_assoc. split; [done|].
      by constructor.
    + intros [= <- <-]. exists []. by rewrite app_nil_r.
Qed.

Lemma remove_subdirs_events fuel save_path subdirs :
  (∀ p e, P (ev_remove p e)) →
  ∀ w l w' l',
    remove_subdirs fuel (traced_io io) paths save_path subdirs (w, l)
      = Ok (w', l') →
    ∃ seg, l' = l ++ seg ∧ Forall P seg.
Proof.
  intros Hremove. induction subdirs as [|s subdirs IH];
    intros w l w' l'; cbn [remove_subdirs].
  - intros [= <- <-]. exists []. by rewrite app_nil_r.
  - destruct (remove_up fuel (traced_io io) paths save_path
                (combine_path paths save_path s) 0 (w, l))
      as [[w1 l1]| |] eqn:Hup; [|done..].
    apply remove_up_events in Hup as (seg1 & -> & Hseg1); [|done].
    intros (seg & -> & Hseg)%IH.
    exists (seg1 ++ seg). rewrite app_assoc. split; [done|].
    by apply Forall_app.
Qed.

(** The calls of a whole relocation: those of the pre-flight, of the
    loop over the files, of the partial-piece store and of the rollback;
    paths are removed only in a relocation that succeeds. *)
Lemma move_storage_events f save_path destination_save_path pf flags ec0 w fuel
    st path ec' w' log :
  move_storage (traced_io io) paths f save_path destination_save_path pf flags
    ec0 (w, []) fuel = Ok (st, path, ec', (w', log)) →
  (∀ p e, P (ev_stat_file p e)) →
  (∀ p e, P (ev_create_directories p e)) →
  (flags = dont_replace → ∀ p b, P (ev_exists p b)) →
  (∀ src dst e, P (ev_move_file src dst e)) →
  (∀ src dst e, P (ev_copy_file src dst e)) →
  (pf = true → ∀ p e, P (ev_move_partfile p e)) →
  (st = no_error ∨ st = need_full_check → ∀ p e, P (ev_remove p e)) →
  Forall P log.
Proof.
  intros Hrun Hstat Hmkdir Hexists Hmove Hcopy Hpart Hremove.
  unfold move_storage in Hrun.
  set (new_save_path := complete paths destination_save_path) in *.
  destruct (check_destination_events f new_save_path flags w [] Hstat)
    as (r1 & w1 & seg1 & Hcheck & Hseg1).
  rewrite Hcheck in Hrun. cbn [app] in Hrun.
  destruct r1 as [[j err]|]; [by simplify_eq|].
  destruct (ensure_destination_events new_save_path w1 seg1 Hstat Hmkdir)
    as (r2 & w2 & seg2 & Hensure & Hseg2).
  rewrite Hensure in Hrun.
  destruct r2 as [[err operation]|];
    [simplify_eq; by apply Forall_app|].
  destruct (move_files_events flags save_path new_save_path (entries f)
              Hexists Hmove Hcopy 0 0 (replicate (num_files f) false) no_error
              ec0 w2 (seg1 ++ seg2)) as (w3 & seg3 & Hfiles & Hseg3).
  pose proof (move_files_result (traced_io io) paths flags save_path
                new_save_path (entries f) 0 (replicate (num_files f) false)
                no_error ec0 (w2, seg1 ++ seg2)) as [Hret _].
  destruct (move_files (traced_io io) paths flags save_path new_save_path
              (entries f) 0 0 (replicate (num_files f) false) no_error ec0
              (w2, seg1 ++ seg2)) as [i e copied ret ec1 wl3].
  cbn [ml_e ml_ec ml_w ml_copied_files ml_i ml_ret] in *. subst wl3.
  destruct (move_part_file_events new_save_path pf e ec1 w3
              ((seg1 ++ seg2) ++ seg3) Hpart)
    as (e4 & ec4 & w4 & seg4 & Hpartfile & Hseg4).
  rewrite Hpartfile in Hrun.
  assert (Forall P (((seg1 ++ seg2) ++ seg3) ++ seg4)) as Hbefore
    by (by repeat (apply Forall_app; split)).
  case_bool_decide.
  - destruct (rollback (traced_io io) paths f save_path new_save_path copied i
                (w4, ((seg1 ++ seg2) ++ seg3) ++ seg4))
      as [[w5 l5]| |] eqn:Hback; [|done..].
    apply rollback_events in Hback as (seg5 & -> & Hseg5); [|done].
    simplify_eq. by apply Forall_app.
  - destruct (remove_copied (traced_io io) paths save_path copied (entries f)
                0 [] (w4, ((seg1 ++ seg2) ++ seg3) ++ seg4))
      as [[subdirs [w5 l5]]| |] eqn:Hcommit; [|done..].
    destruct (remove_subdirs fuel (traced_io io) paths save_path subdirs (w5, l5))
      as [[w6 l6]| |] eqn:Hprune; [|done..].
    simplify_eq.
    assert (∀ p e, P (ev_remove p e)) as Hremove'.
    { apply Hremove. destruct Hret as [->|(_ & -> & _)]; [by left|by right]. }
    apply remove_copied_events in Hcommit as (seg5 & -> & Hseg5); [|done].
    apply remove_subdirs_events in Hprune as (seg6 & -> & Hseg6); [|done].
    by repeat (apply Forall_app; split).
Qed.
End events.

(** Copies follow failed moves in the log of a whole relocation. *)
Lemma move_storage_copies f save_path destination_save_path pf flags ec0 w fuel
    st path ec' w' log :
  move_storage (traced_io io) paths f save_path destination_save_path pf flags
    ec0 (w, []) fuel = Ok (st, path, ec', (w', log)) →
  copies_follow_moves log.
Proof.
  intros Hrun. unfold move_storage in Hrun.
  set (new_save_path := complete paths destination_save_path) in *.
  set (Q := λ ev, is_copy_event ev = false).
  destruct (check_destination_events Q f new_save_path flags w [])
    as (r1 & w1 & seg1 & Hcheck & Hseg1); [done|].
  rewrite Hcheck in Hrun. cbn [app] in Hrun.
  assert (copies_follow_moves []) as Hnil.
  { intros pre src dst e post Heq. by destruct pre. }
  destruct r1 as [[j err]|].
  { simplify_eq. by apply (copies_follow_moves_app []). }
  destruct (ensure_destination_events Q new_save_path w1 seg1)
    as (r2 & w2 & seg2 & Hensure & Hseg2); [done..|].
  rewrite Hensure in Hrun.
  assert (copies_follow_moves (seg1 ++ seg2)) as Hpre.
  { apply (copies_follow_moves_app []); [done|]. by apply Forall_app. }
  destruct r2 as [[err operation]|]; [by simplify_eq|].
  pose proof (move_files_copies flags save_path new_save_path (entries f) 0 0
                (replicate (num_files f) false) no_error ec0 w2 _ Hpre) as Hfiles.
  destruct (move_files (traced_io io) paths flags save_path new_save_path
              (entries f) 0 0 (replicate (num_files f) false) no_error ec0
              (w2, seg1 ++ seg2)) as [i e copied ret ec1 [w3 l3]].
  cbn [ml_e ml_ec ml_w ml_copied_files ml_i ml_ret snd] in *.
  destruct (move_part_file_events Q new_save_path pf e ec1 w3 l3)
    as (e4 & ec4 & w4 & seg4 & Hpartfile & Hseg4); [done|].
  rewrite Hpartfile in Hrun.
  case_bool_decide.
  - destruct (rollback (traced_io io) paths f save_path new_save_path copied i
                (w4, l3 ++ seg4)) as [[w5 l5]| |] eqn:Hback; [|done..].
    apply (rollback_events Q) in Hback as (seg5 & -> & Hseg5); [|done].
    simplify_eq. by repeat apply copies_follow_moves_app.
  - destruct (remove_copied (traced_io io) paths save_path copied (entries f)
                0 [] (w4, l3 ++ seg4))
      as [[subdirs [w5 l5]]| |] eqn:Hcommit; [|done..].
    destruct (remove_subdirs fuel (traced_io io) paths save_path subdirs (w5, l5))
      as [[w6 l6]| |] eqn:Hprune; [|done..].
    simplify_eq.
    apply (remove_copied_events Q) in Hcommit as (seg5 & -> & Hseg5); [|done].
    apply (remove_subdirs_events Q) in Hprune as (seg6 & -> & Hseg6); [|done].
    by repeat apply copies_follow_moves_app.
Qed.
End any_disk_run.

(** X11: when the destination root is missing and cannot be created,
    [move_storage] returns the fatal-disk-error status with the original
    save path and the error of [create_directories] under the [mkdir]
    operation, file index [-1]; it has only probed the root and tried to
    create it: no file was touched. *)
Theorem move_storage_mkdir_failure {W} (io : disk_io W) (paths : path_ops)
    (f : file_storage) (save_path destination_save_path : string) (pf : bool)
    (flags : move_flags_t) (ec0 : storage_error) (w : W) (fuel : nat)
    (err : error_code) :
  let new_save_path := complete paths destination_save_path in
  (∀ w, fst (stat_file io new_save_path w) = no_such_file_or_directory) →
  (∀ w, fst (create_directories io new_save_path w) = err) →
  err ≠ 0 →
  ∃ w',
    move_storage (traced_io io) paths f save_path destination_save_path pf
      flags ec0 (w, []) fuel
    = Ok (fatal_disk_error, save_path, mk_storage_error err (-1) op_mkdir,
          (w', (if bool_decide (flags = fail_if_exist)
                then [ev_stat_file new_save_path no_such_file_or_directory]
                else [])
               ++ [ev_stat_file new_save_path no_such_file_or_directory;
                   ev_create_directories new_save_path err])).
Proof.
  intros new_save_path Hstat Hmkdir Herr.
  unfold move_storage, check_destination, ensure_destination.
  fold new_save_path.
  assert (∃ w1,
    (if bool_decide (flags = fail_if_exist)
     then let '(err0, w0) := stat_file (traced_io io) new_save_path (w, []) in
          if bool_decide (err0 ≠ no_such_file_or_directory)
          then stat_files (traced_io io) paths new_save_path (entries f) 0 w0
          else (None, w0)
     else (None, (w, [])))
    = (None, (w1, if bool_decide (flags = fail_if_exist)
                  then [ev_stat_file new_save_path no_such_file_or_directory]
                  else []))) as [w1 ->].
  { case_bool_decide; [|by eexists].
    rewrite traced_stat_file, Hstat.
    rewrite bool_decide_false by (intros Hz; by apply Hz). by eexists. }
  rewrite traced_stat_file, Hstat, bool_decide_true by done.
  rewrite traced_create_directories, Hmkdir, bool_decide_true by done.
  eexists. by rewrite <- app_assoc.
Qed.

Lemma move_storage_mkdir_failure_witness :
  ∃ w',
    move_storage (traced_io (script_io cannot_create)) slash_paths four_files
      "old" "new" true fail_if_exist no_storage_error (tt, []) 2
    = Ok (fatal_disk_error, "old"%string,
          mk_storage_error permission_denied (-1) op_mkdir,
          (w', (if bool_decide (fail_if_exist = fail_if_exist)
                then [ev_stat_file (complete slash_paths "new")
                        no_such_file_or_directory]
                else [])
               ++ [ev_stat_file (complete slash_paths "new")
                     no_such_file_or_directory;
                   ev_create_directories (complete slash_paths "new")
                     permission_denied])).
Proof.
  apply (move_storage_mkdir_failure (script_io cannot_create) slash_paths
           four_files "old" "new" true fail_if_exist no_storage_error tt 2
           permission_denied).
  - intros w. reflexivity.
  - intros w. reflexivity.
  - discriminate.
Defined.

Lemma stat_files_all_missing {W} (io : disk_io W) paths new_save_path es :
  Forall (always_missing io paths new_save_path) es →
  ∀ i w l,
    fst (stat_files (traced_io io) paths new_save_path es i (w, l)) = None.
Proof.
  induction 1 as [|fe es [Habs|Hmissing] _ IH]; intros i w l;
    cbn [stat_files]; [done|by rewrite Habs|].
  destruct (fe_absolute fe); [done|].
  rewrite traced_stat_file, Hmissing.
  by rewrite bool_decide_false by (intros Hz; by apply Hz).
Qed.

(** X12: when the probe of the destination root answers an error other
    than "no such file or directory", and, under fail-if-exists, no file is
    found at the destination, [move_storage] returns the fatal-disk-error
    status with the original save path and that error under the [stat]
    operation, file index [-1]; it has only called [stat_file]. *)
Theorem move_storage_root_stat_failure {W} (io : disk_io W) (paths : path_ops)
    (f : file_storage) (save_path destination_save_path : string) (pf : bool)
    (flags : move_flags_t) (ec0 : storage_error) (w : W) (fuel : nat)
    (err : error_code) :
  let new_save_path := complete paths destination_save_path in
  (∀ w, fst (stat_file io new_save_path w) = err) →
  err ≠ 0 → err ≠ no_such_file_or_directory →
  (flags = fail_if_exist →
   Forall (always_missing io paths new_save_path) (entries f)) →
  ∃ w' log,
    move_storage (traced_io io) paths f save_path destination_save_path pf
      flags ec0 (w, []) fuel
    = Ok (fatal_disk_error, save_path, mk_storage_error err (-1) op_stat,
          (w', log)) ∧
    Forall is_stat_event log.
Proof.
  intros new_save_path Hstat Herr Hexists Hmissing.
  unfold move_storage. fold new_save_path.
  destruct (check_destination_events io paths is_stat_event f new_save_path
              flags w []) as (r1 & w1 & seg1 & Hcheck & Hseg1);
    [intros p e; by exists p, e|].
  assert (r1 = None) as ->.
  { revert Hcheck. unfold check_destination.
    case_bool_decide as Hflags; [|by intros [= <- _]].
    rewrite traced_stat_file, Hstat, bool_decide_true by done.
    intros Hrun.
    pose proof (stat_files_all_missing io paths new_save_path (entries f)
                  (Hmissing Hflags) 0 (snd (stat_file io new_save_path w))
                  ([] ++ [ev_stat_file new_save_path err])) as Hnone.
    by rewrite Hrun in Hnone. }
  rewrite Hcheck. unfold ensure_destination.
  rewrite traced_stat_file, Hstat.
  rewrite bool_decide_false, bool_decide_true by done.
  eexists _, _. split; [done|].
  apply Forall_app. split; [done|]. repeat constructor. by eexists _, _.
Qed.

Lemma move_storage_root_stat_failure_witness :
  ∃ w' log,
    move_storage (traced_io (script_io destination_unreadable)) slash_paths
      four_files "old" "new" true dont_replace no_storage_error (tt, []) 2
    = Ok (fatal_disk_error, "old"%string,
          mk_storage_error permission_denied (-1) op_stat, (w', log)) ∧
    Forall is_stat_event log.
Proof.
  apply (move_storage_root_stat_failure (script_io destination_unreadable)
           slash_paths four_files "old" "new" true dont_replace
           no_storage_error tt 2 permission_denied).
  - intros w. reflexivity.
  - discriminate.
  - discriminate.
  - discriminate.
Defined.

Section plain_move.
Context (a : answers) (paths : path_ops) (flags : move_flags_t).
Context (save_path new_save_path : string).
Hypothesis Hflags : flags ≠ dont_replace.

Lemma fate_plain_move fe :
  fe_absolute fe = true ∨
  move_ans a (combine_path paths save_path (fe_path fe))
             (combine_path paths new_save_path (fe_path fe)) = 0 ∨
  move_ans a (combine_path paths save_path (fe_path fe))
             (combine_path paths new_save_path (fe_path fe))
    = no_such_file_or_directory →
  (fate a paths flags save_path new_save_path fe = fate_absolute
   ∨ fate a paths flags save_path new_save_path fe = fate_moved) ∧
  fate_events a paths flags save_path new_save_path fe
  = (if fe_absolute fe then []
     else [ev_move_file (combine_path paths save_path (fe_path fe))
             (combine_path paths new_save_path (fe_path fe))
             (move_ans a (combine_path paths save_path (fe_path fe))
                (combine_path paths new_save_path (fe_path fe)))]).
Proof using Hflags.
  intros Hfe. unfold fate_events, fate.
  destruct (fe_absolute fe); [split; [by left|done]|].
  destruct Hfe as [?|Hm]; [done|].
  rewrite !(bool_decide_false (flags = dont_replace)) by done. cbn [andb].
  rewrite (bool_decide_true (_ ∨ _)) by done.
  split; [by right|done].
Qed.

Lemma fates_plain_move es :
  Forall (λ fe,
    fe_absolute fe = true ∨
    move_ans a (combine_path paths save_path (fe_path fe))
               (combine_path paths new_save_path (fe_path fe)) = 0 ∨
    move_ans a (combine_path paths save_path (fe_path fe))
               (combine_path paths new_save_path (fe_path fe))
      = no_such_file_or_directory) es →
  Forall (λ fe, goes_clean (fate a paths flags save_path new_save_path fe) = true)
         es ∧
  (fate_skipped ∉ fate a paths flags save_path new_save_path <$> es) ∧
  es ≫= fate_events a paths flags save_path new_save_path
  = (filter (λ fe, fe_absolute fe = false) es ≫= λ fe,
      [ev_move_file (combine_path paths save_path (fe_path fe))
         (combine_path paths new_save_path (fe_path fe))
         (move_ans a (combine_path paths save_path (fe_path fe))
            (combine_path paths new_save_path (fe_path fe)))]).
Proof using Hflags.
  induction 1 as [|fe es Hfe _ (IH1 & IH2 & IH3)].
  - repeat split; [constructor|by intros ?%elem_of_nil].
  - destruct (fate_plain_move fe Hfe) as [Hfate Hevents].
    split; [|split].
    + constructor; [|done]. by destruct Hfate as [-> | ->].
    + rewrite fmap_cons. intros [Heq|?]%elem_of_cons; [|done].
      destruct Hfate as [Hfate|Hfate]; congruence.
    + rewrite bind_cons, Hevents, IH3, filter_cons.
      destruct (fe_absolute fe).
      * by rewrite decide_False by done.
      * by rewrite decide_True by done.
Qed.
End plain_move.

(** X13: under the policies other than dont-replace, when the
    pre-flight passes, every move of a file with a non-absolute path
    succeeds or finds no source, and the partial-piece store moves,
    [move_storage] returns "no error" with the resolved new save path and
    leaves the error carrier alone; after the pre-flight it calls
    [move_file] once for every file with a non-absolute path, in order, and
    for no file with an absolute path, then moves the partial-piece store;
    it copies nothing and removes nothing but source directories. *)
Theorem move_storage_plain_move {W} (io : disk_io W) (a : answers)
    (paths : path_ops) (f : file_storage) (save_path destination_save_path : string)
    (pf : bool) (flags : move_flags_t) (ec0 : storage_error) (w : W) (fuel : nat) :
  let new_save_path := complete paths destination_save_path in
  follows io a →
  preflight_ok a paths f new_save_path flags = true →
  flags ≠ dont_replace →
  Forall (λ fe,
    fe_absolute fe = true ∨
    move_ans a (combine_path paths save_path (fe_path fe))
               (combine_path paths new_save_path (fe_path fe)) = 0 ∨
    move_ans a (combine_path paths save_path (fe_path fe))
               (combine_path paths new_save_path (fe_path fe))
      = no_such_file_or_directory) (entries f) →
  (pf = true → partfile_ans a new_save_path = 0) →
  dirs_below paths f save_path fuel = true →
  ∃ w' prune,
    move_storage (traced_io io) paths f save_path destination_save_path pf
      flags ec0 (w, []) fuel
    = Ok (no_error, new_save_path, ec0,
          (w', preflight_events a paths f new_save_path flags
               ++ (filter (λ fe, fe_absolute fe = false) (entries f) ≫= λ fe,
                     [ev_move_file (combine_path paths save_path (fe_path fe))
                        (combine_path paths new_save_path (fe_path fe))
                        (move_ans a (combine_path paths save_path (fe_path fe))
                           (combine_path paths new_save_path (fe_path fe)))])
               ++ partfile_events a new_save_path pf
               ++ prune)) ∧
    Forall (is_dir_remove paths f save_path) prune.
Proof.
  intros new_save_path Hf Hpre Hflags Hmoves Hpart Hbelow.
  destruct (fates_plain_move a paths flags save_path new_save_path Hflags
              (entries f) Hmoves) as (Hclean & Hskip & Hevents).
  destruct (move_storage_success io a paths f save_path destination_save_path
              pf flags ec0 w fuel Hf Hpre) as (w' & prune & Hrun & Hprune);
    [|done..|].
  { eapply Forall_impl; [exact Hclean|]. apply goes_clean_not_failed. }
  exists w', prune. split; [|done].
  rewrite Hrun. fold new_save_path.
  unfold status_after. rewrite bool_decide_false by done.
  rewrite Hevents, removed_sources_clean by done. done.
Qed.

Lemma move_storage_plain_move_witness :
  ∃ w' prune,
    move_storage (traced_io (script_io fresh_destination)) slash_paths
      four_files "old" "new" true always_replace_files no_storage_error
      (tt, []) 2
    = Ok (no_error, "new"%string, no_storage_error,
          (w', [ev_stat_file "new" no_such_file_or_directory;
                ev_create_directories "new" 0]
               ++ [ev_move_file "old/a" "new/a" 0;
                   ev_move_file "old/d/b" "new/d/b" 0;
                   ev_move_file "old/d/c" "new/d/c" 0;
                   ev_move_file "old/e/x/f" "new/e/x/f" 0]
               ++ [ev_move_partfile "new" 0]
               ++ prune)) ∧
    Forall (is_dir_remove slash_paths four_files "old") prune.
Proof.
  destruct (move_storage_plain_move (script_io fresh_destination)
              fresh_destination slash_paths four_files "old" "new" true
              always_replace_files no_storage_error tt 2)
    as (w' & prune & Hrun & Hprune).
  - apply script_io_follows.
  - reflexivity.
  - discriminate.
  - repeat constructor; right; left; reflexivity.
  - reflexivity.
  - reflexivity.
  - exists w', prune. split; [exact Hrun|exact Hprune].
Defined.

Section returns.
Context {W : Type} (io : disk_io W) (paths : path_ops).
Implicit Types (w : W) (es : list file_entry).

Lemma move_files_lengths flags save_path new_save_path es :
  ∀ i e copied ret ec1 w,
    let ml := move_files io paths flags save_path new_save_path es i e
                copied ret ec1 w in
    length (ml_copied_files ml) = length copied ∧
    (ml_i ml ≤ i + length es)%nat.
Proof.
  induction es as [|fe es IH]; intros i e copied ret ec1 w; cbn [move_files].
  - simpl. split; [done|lia].
  - cbv zeta.
    assert (∀ e' copied' ret' w',
      length copied' = length copied →
      let ml := move_files io paths flags save_path new_save_path es (S i) e'
                  copied' ret' ec1 w' in
      length (ml_copied_files ml) = length copied ∧
      (ml_i ml ≤ i + length (fe :: es))%nat) as Hnext.
    { intros e' copied' ret' w' Hlen.
      destruct (IH (S i) e' copied' ret' ec1 w') as [? ?].
      cbn [length]. split; [congruence|lia]. }
    destruct (fe_absolute fe); [by apply Hnext|].
    destruct (if bool_decide (flags = dont_replace)
              then exists_ io (combine_path paths new_save_path (fe_path fe)) w
              else (false, w)) as [present w0].
    destruct present; [by apply Hnext|].
    destruct (move_file io _ _ w0) as [m w1].
    case_bool_decide.
    { cbv beta iota. case_bool_decide; [simpl; split; [done|lia]|by apply Hnext]. }
    destruct (_ && _).
    + destruct (copy_file io _ _ w1) as [c w2]. cbv beta iota.
      destruct (decide (c = 0)) as [->|Hc].
      * rewrite (bool_decide_false (0 ≠ 0)) by (intros Hz; by apply Hz).
        apply Hnext. rewrite bool_decide_true by done. apply length_insert.
      * rewrite (bool_decide_true (c ≠ 0)), (bool_decide_false (c = 0)) by done.
        simpl. split; [done|lia].
    + cbv beta iota.
      case_bool_decide; [simpl; split; [done|lia]|by apply Hnext].
Qed.

Lemma rollback_returns f save_path new_save_path copied i w :
  (i ≤ length (entries f))%nat → (i ≤ length copied)%nat →
  ∃ w', rollback io paths f save_path new_save_path copied i w = Ok w'.
Proof.
  revert w. induction i as [|i IH]; intros w Hi Hc; cbn [rollback]; [by eexists|].
  destruct (lookup_lt_is_Some_2 (entries f) i) as [fe ->]; [lia|].
  destruct (lookup_lt_is_Some_2 copied i) as [flag ->]; [lia|].
  destruct (fe_absolute fe); [apply IH; lia|].
  destruct flag; [apply IH; lia|].
  destruct (move_file io _ _ w) as [e w0]. apply IH; lia.
Qed.

Lemma remove_copied_returns save_path copied es :
  ∀ i subdirs w,
    (i + length es ≤ length copied)%nat →
    ∃ w', remove_copied io paths save_path copied es i subdirs w
          = Ok (collect_subdirs paths es subdirs, w').
Proof.
  induction es as [|fe es IH]; intros i subdirs w Hlen;
    cbn [remove_copied collect_subdirs]; [by eexists|].
  cbn [length] in Hlen.
  destruct (fe_absolute fe); [apply IH; lia|].
  destruct (lookup_lt_is_Some_2 copied i) as [flag ->]; [lia|].
  destruct flag; [|apply IH; lia].
  destruct (remove io _ w) as [e w0]. apply IH; lia.
Qed.

Lemma remove_up_returns fuel save_path :
  ∀ subdir err w,
    climbs_to paths save_path fuel subdir = true →
    ∃ w', remove_up fuel io paths save_path subdir err w = Ok w'.
Proof.
  induction fuel as [|fuel IH]; intros subdir err w Hclimb;
    cbn [remove_up climbs_to] in *.
  - rewrite orb_false_r in Hclimb. apply bool_decide_eq_true in Hclimb.
    rewrite (bool_decide_false (subdir ≠ save_path)) by (intros Hz; by apply Hz).
    by eexists.
  - destruct (bool_decide (subdir ≠ save_path) && bool_decide (err = 0)) eqn:Hgo;
      [|by eexists].
    apply andb_true_iff in Hgo as [Hne _]. apply bool_decide_eq_true in Hne.
    rewrite (bool_decide_false (subdir = save_path)) in Hclimb by done.
    destruct (remove io subdir w) as [e w0]. by apply IH.
Qed.

Lemma remove_subdirs_returns fuel save_path subdirs :
  Forall (λ s, climbs_to paths save_path fuel (combine_path paths save_path s)
               = true) subdirs →
  ∀ w, ∃ w', remove_subdirs fuel io paths save_path subdirs w = Ok w'.
Proof.
  induction 1 as [|s subdirs Hs _ IH]; intros w; cbn [remove_subdirs];
    [by eexists|].
  destruct (remove_up_returns fuel save_path _ 0 w Hs) as [w0 ->]. apply IH.
Qed.

(** With enough turns for the pruning loops, [move_storage] returns,
    whatever the disk does. *)
Lemma move_storage_returns f save_path destination_save_path pf flags ec0 w fuel :
  dirs_below paths f save_path fuel = true →
  ∃ r, move_storage io paths f save_path destination_save_path pf flags ec0 w fuel
       = Ok r.
Proof.
  intros Hbelow. unfold move_storage.
  set (new_save_path := complete paths destination_save_path).
  destruct (check_destination io paths f new_save_path flags w)
    as [[[j err]|] w1]; [by eexists|].
  destruct (ensure_destination io new_save_path w1)
    as [[[err operation]|] w2]; [by eexists|].
  pose proof (move_files_lengths flags save_path new_save_path (entries f) 0 0
                (replicate (num_files f) false) no_error ec0 w2) as Hml.
  cbv zeta in Hml.
  destruct (move_files io paths flags save_path new_save_path (entries f) 0 0
              (replicate (num_files f) false) no_error ec0 w2)
    as [i e copied ret ec1 w3].
  cbn [ml_e ml_ec ml_w ml_copied_files ml_i ml_ret] in *.
  rewrite length_replicate in Hml. unfold num_files in Hml.
  destruct Hml as [Hlen Hi].
  destruct (move_part_file io new_save_path pf e ec1 w3) as [[e4 ec4] w4].
  case_bool_decide.
  - destruct (rollback_returns f save_path new_save_path copied i w4)
      as [w5 ->]; [lia..|]. by eexists.
  - destruct (remove_copied_returns save_path copied (entries f) 0 [] w4)
      as [w5 ->]; [lia|].
    destruct (remove_subdirs_returns fuel save_path
                (collect_subdirs paths (entries f) [])) with (w := w5)
      as [w6 ->]; [|by eexists].
    eapply Forall_impl; [by apply dirs_below_collected|]. by intros s [? _].
Qed.
End returns.

(** X14: whatever the disk does, [move_storage] returns, given turns
    enough for the pruning loops, and what it returns fits together: with
    "no error" or "need full check" the path is the resolved new save path
    and the error carrier is as it was handed in, "need full check" only
    under dont-replace; with "file exist", only under fail-if-exists, the
    path is the original one and the carrier names a file of the layout
    and the [stat] operation, its error code being anything but "no such
    file or directory" (also no error at all); with "fatal disk error" the
    path is the original one and the carrier holds an error code, under
    [mkdir], [stat] or [partfile_move] with file index [-1], or under
    [rename] with the index of a file of the layout. *)
Theorem move_storage_status_path_carrier {W} (io : disk_io W) (paths : path_ops)
    (f : file_storage) (save_path destination_save_path : string) (pf : bool)
    (flags : move_flags_t) (ec0 : storage_error) (w : W) (fuel : nat) :
  dirs_below paths f save_path fuel = true →
  ∃ st path ec' w',
    move_storage io paths f save_path destination_save_path pf flags ec0 w fuel
      = Ok (st, path, ec', w') ∧
    match st with
    | no_error => path = complete paths destination_save_path ∧ ec' = ec0
    | need_full_check =>
        path = complete paths destination_save_path ∧ ec' = ec0 ∧
        flags = dont_replace
    | file_exist =>
        path = save_path ∧ flags = fail_if_exist ∧
        ec ec' ≠ no_such_file_or_directory ∧
        0 ≤ file ec' < Z.of_nat (num_files f) ∧ operation ec' = op_stat
    | fatal_disk_error =>
        path = save_path ∧ ec ec' ≠ 0 ∧
        ((file ec' = -1 ∧ (operation ec' = op_mkdir ∨ operation ec' = op_stat
                           ∨ operation ec' = op_partfile_move)) ∨
         (0 ≤ file ec' < Z.of_nat (num_files f) ∧ operation ec' = op_rename))
    end.
Proof.
  intros Hbelow.
  destruct (move_storage_returns io paths f save_path destination_save_path pf
              flags ec0 w fuel Hbelow) as [[[[st path] ec'] w'] Hrun].
  exists st, path, ec', w'. split; [done|].
  by eapply move_storage_result.
Qed.

Lemma move_storage_status_path_carrier_witness :
  ∃ st path ec' w',
    move_storage (script_io (move_fails permission_denied)) slash_paths
      four_files "old" "new" true always_replace_files no_storage_error tt 2
      = Ok (st, path, ec', w') ∧
    match st with
    | no_error => path = complete slash_paths "new" ∧ ec' = no_storage_error
    | need_full_check =>
        path = complete slash_paths "new" ∧ ec' = no_storage_error ∧
        always_replace_files = dont_replace
    | file_exist =>
        path = "old"%string ∧ always_replace_files = fail_if_exist ∧
        ec ec' ≠ no_such_file_or_directory ∧
        0 ≤ file ec' < Z.of_nat (num_files four_files) ∧ operation ec' = op_stat
    | fatal_disk_error =>
        path = "old"%string ∧ ec ec' ≠ 0 ∧
        ((file ec' = -1 ∧ (operation ec' = op_mkdir ∨ operation ec' = op_stat
                           ∨ operation ec' = op_partfile_move)) ∨
         (0 ≤ file ec' < Z.of_nat (num_files four_files)
          ∧ operation ec' = op_rename))
    end.
Proof.
  apply (move_storage_status_path_carrier (script_io (move_fails permission_denied))
           slash_paths four_files "old" "new" true always_replace_files
           no_storage_error tt 2).
  reflexivity.
Defined.

(** X15: whatever the disk does, a relocation that ends with "fatal
    disk error" or "file exist" has called [remove] on no path: neither the
    source of a file that was copied before the failure, nor its copy at the
    destination, nor a directory. *)
Theorem move_storage_failure_removes_nothing {W} (io : disk_io W)
    (paths : path_ops) (f : file_storage) (save_path destination_save_path : string)
    (pf : bool) (flags : move_flags_t) (ec0 : storage_error) (w : W) (fuel : nat) :
  dirs_below paths f save_path fuel = true →
  ∃ st path ec' w' log,
    move_storage (traced_io io) paths f save_path destination_save_path pf flags
      ec0 (w, []) fuel = Ok (st, path, ec', (w', log)) ∧
    (st = fatal_disk_error ∨ st = file_exist →
     Forall (λ ev, is_remove_event ev = false) log).
Proof.
  intros Hbelow.
  destruct (move_storage_returns (traced_io io) paths f save_path
              destination_save_path pf flags ec0 (w, []) fuel Hbelow)
    as [[[[st path] ec'] [w' log]] Hrun].
  exists st, path, ec', w', log. split; [done|]. intros Hst.
  eapply (move_storage_events io paths (λ ev, is_remove_event ev = false));
    [exact Hrun|done..|].
  intros [->| ->]; by destruct Hst.
Qed.

Lemma move_storage_failure_removes_nothing_witness :
  ∃ st path ec' w' log,
    move_storage (traced_io (script_io (move_fails permission_denied)))
      slash_paths four_files "old" "new" true always_replace_files
      no_storage_error (tt, []) 2 = Ok (st, path, ec', (w', log)) ∧
    (st = fatal_disk_error ∨ st = file_exist →
     Forall (λ ev, is_remove_event ev = false) log).
Proof.
  apply (move_storage_failure_removes_nothing
           (script_io (move_fails permission_denied)) slash_paths four_files
           "old" "new" true always_replace_files no_storage_error tt 2).
  reflexivity.
Defined.

(** X16: whatever the disk does, every call to [copy_file] that
    [move_storage] makes comes right after a call to [move_file] with the
    same source and destination that answered an error other than "no such
    file or directory", "invalid argument" and "permission denied". *)
Theorem move_storage_copy_after_failed_move {W} (io : disk_io W)
    (paths : path_ops) (f : file_storage) (save_path destination_save_path : string)
    (pf : bool) (flags : move_flags_t) (ec0 : storage_error) (w : W) (fuel : nat) :
  dirs_below paths f save_path fuel = true →
  ∃ st path ec' w' log,
    move_storage (traced_io io) paths f save_path destination_save_path pf flags
      ec0 (w, []) fuel = Ok (st, path, ec', (w', log)) ∧
    copies_follow_moves log.
Proof.
  intros Hbelow.
  destruct (move_storage_returns (traced_io io) paths f save_path
              destination_save_path pf flags ec0 (w, []) fuel Hbelow)
    as [[[[st path] ec'] [w' log]] Hrun].
  exists st, path, ec', w', log. split; [done|].
  by eapply move_storage_copies.
Qed.

Lemma move_storage_copy_after_failed_move_witness :
  ∃ st path ec' w' log,
    move_storage (traced_io (script_io (move_fails EXDEV))) slash_paths
      four_files "old" "new" true always_replace_files no_storage_error
      (tt, []) 2 = Ok (st, path, ec', (w', log)) ∧
    copies_follow_moves log.
Proof.
  apply (move_storage_copy_after_failed_move (script_io (move_fails EXDEV))
           slash_paths four_files "old" "new" true always_replace_files
           no_storage_error tt 2).
  reflexivity.
Defined.

(** X17: whatever the disk does, [move_storage] calls [exists] only
    under the dont-replace policy, and the partial-piece store only when
    there is one. *)
Theorem move_storage_optional_calls {W} (io : disk_io W)
    (paths : path_ops) (f : file_storage) (save_path destination_save_path : string)
    (pf : bool) (flags : move_flags_t) (ec0 : storage_error) (w : W) (fuel : nat) :
  dirs_below paths f save_path fuel = true →
  ∃ st path ec' w' log,
    move_storage (traced_io io) paths f save_path destination_save_path pf flags
      ec0 (w, []) fuel = Ok (st, path, ec', (w', log)) ∧
    (flags ≠ dont_replace → Forall (λ ev, is_exists_event ev = false) log) ∧
    (pf = false → Forall (λ ev, is_partfile_event ev = false) log).
Proof.
  intros Hbelow.
  destruct (move_storage_returns (traced_io io) paths f save_path
              destination_save_path pf flags ec0 (w, []) fuel Hbelow)
    as [[[[st path] ec'] [w' log]] Hrun].
  exists st, path, ec', w', log. split; [done|]. split.
  - intros Hflags.
    by eapply (move_storage_events io paths (λ ev, is_exists_event ev = false)).
  - intros ->.
    by eapply (move_storage_events io paths (λ ev, is_partfile_event ev = false)).
Qed.

Lemma move_storage_optional_calls_witness :
  ∃ st path ec' w' log,
    move_storage (traced_io (script_io one_file_present)) slash_paths
      four_files "old" "new" false always_replace_files no_storage_error
      (tt, []) 2 = Ok (st, path, ec', (w', log)) ∧
    (always_replace_files ≠ dont_replace →
     Forall (λ ev, is_exists_event ev = false) log) ∧
    (false = false → Forall (λ ev, is_partfile_event ev = false) log).
Proof.
  apply (move_storage_optional_calls (script_io one_file_present) slash_paths
           four_files "old" "new" false always_replace_files no_storage_error
           tt 2).
  reflexivity.
Defined.

Section remove_up_trace.
Context {W : Type} (io : disk_io W) (paths : path_ops) (save_path : string).

Lemma remove_up_trace fuel :
  ∀ subdir err (w : W) l w' l',
    remove_up fuel (traced_io io) paths save_path subdir err (w, l)
      = Ok (w', l') →
    ∃ answers : list error_code,
      l' = l ++ imap (λ k e, ev_remove (Nat.iter k (parent_path paths) subdir) e)
                  answers ∧
      (∀ k, (k < length answers)%nat →
         Nat.iter k (parent_path paths) subdir ≠ save_path) ∧
      (∀ k e, answers !! k = Some e → (S k < length answers)%nat → e = 0) ∧
      (answers ≠ [] → err = 0) ∧
      (Nat.iter (length answers) (parent_path paths) subdir = save_path
       ∨ default err (last answers) ≠ 0).
Proof.
  induction fuel as [|fuel IH]; intros subdir err w l w' l'; cbn [remove_up].
  - destruct (bool_decide (subdir ≠ save_path) && bool_decide (err = 0)) eqn:Hgo;
      [done|].
    intros [= <- <-]. exists []. rewrite app_nil_r.
    repeat split; try done; [simpl; lia|].
    apply andb_false_iff in Hgo as [Hgo|Hgo]; apply bool_decide_eq_false in Hgo.
    + left. simpl. by apply dec_stable.
    + by right.
  - destruct (bool_decide (subdir ≠ save_path) && bool_decide (err = 0)) eqn:Hgo.
    2:{ intros [= <- <-]. exists []. rewrite app_nil_r.
        repeat split; try done; [simpl; lia|].
        apply andb_false_iff in Hgo as [Hgo|Hgo]; apply bool_decide_eq_false in Hgo.
        + left. simpl. by apply dec_stable.
        + by right. }
    apply andb_true_iff in Hgo as [Hne Herr].
    apply bool_decide_eq_true in Hne, Herr.
    rewrite traced_remove.
    set (e1 := fst (remove io subdir w)).
    intros (answers & -> & Hnot & Hzero & Hfirst & Hstop)%IH.
    exists (e1 :: answers). split; [|split; [|split; [|split]]].
    + rewrite <- app_assoc. cbn [app imap]. do 2 f_equal.
      apply imap_ext. intros k e _. unfold compose.
      by rewrite Nat.iter_succ_r.
    + intros [|k] Hk; [done|]. rewrite Nat.iter_succ_r.
      apply Hnot. simpl in Hk. lia.
    + intros [|k] e He Hk; simpl in *.
      * injection He as <-. apply Hfirst. intros ->. simpl in Hk. lia.
      * apply (Hzero k e He). lia.
    + done.
    + cbn [length]. rewrite Nat.iter_succ_r.
      destruct Hstop as [?|Hstop]; [by left|right].
      destruct answers as [|e2 answers]; [done|].
      rewrite last_cons_cons.
      destruct (last (e2 :: answers)) as [x|] eqn:Hlast; [done|].
      by apply last_None in Hlast.
Qed.
End remove_up_trace.

(** X18: the loop that prunes the directories above a relocated file
    (lines 367-371), for a directory that lies below [save_path]: it
    removes the directory, then its parent, and so on, each answer but the
    last being a success; it never removes [save_path]; and it stops when
    it has reached [save_path] or a removal has failed. *)
Theorem remove_up_stops_at_first_failure {W} (io : disk_io W) (paths : path_ops)
    (save_path subdir : string) (fuel : nat) (w : W) (l : list fs_event) :
  climbs_to paths save_path fuel subdir = true →
  ∃ w' (answers : list error_code),
    remove_up fuel (traced_io io) paths save_path subdir 0 (w, l)
      = Ok (w', l ++ imap (λ k e,
                      ev_remove (Nat.iter k (parent_path paths) subdir) e)
                    answers) ∧
    (∀ k, (k < length answers)%nat →
       Nat.iter k (parent_path paths) subdir ≠ save_path) ∧
    (∀ k e, answers !! k = Some e → (S k < length answers)%nat → e = 0) ∧
    (Nat.iter (length answers) (parent_path paths) subdir = save_path
     ∨ ∃ e, last answers = Some e ∧ e ≠ 0).
Proof.
  intros Hclimb.
  destruct (remove_up_returns (traced_io io) paths fuel save_path subdir 0
              (w, l) Hclimb) as [[w' l'] Hrun].
  destruct (remove_up_trace io paths save_path fuel _ _ _ _ _ _ Hrun)
    as (answers & -> & Hnot & Hzero & _ & Hstop).
  exists w', answers. repeat split; try done.
  destruct Hstop as [?|Hstop]; [by left|right].
  destruct (last answers) as [e|]; [by exists e|done].
Qed.

Lemma remove_up_stops_at_first_failure_witness :
  ∃ w' (answers : list error_code),
    remove_up 3 (traced_io (script_io fresh_destination)) slash_paths "old"
      "old/e/x" 0 (tt, [])
      = Ok (w', [] ++ imap (λ k e,
                        ev_remove (Nat.iter k (parent_path slash_paths)
                                     "old/e/x"%string) e)
                      answers) ∧
    (∀ k, (k < length answers)%nat →
       Nat.iter k (parent_path slash_paths) "old/e/x"%string ≠ "old"%string) ∧
    (∀ k e, answers !! k = Some e → (S k < length answers)%nat → e = 0) ∧
    (Nat.iter (length answers) (parent_path slash_paths) "old/e/x"%string
       = "old"%string
     ∨ ∃ e, last answers = Some e ∧ e ≠ 0).
Proof.
  apply (remove_up_stops_at_first_failure (script_io fresh_destination)
           slash_paths "old" "old/e/x" 3 tt []).
  reflexivity.
Defined.
